(** * geetools: the Array, User and ImageCollection extensions.

    A shallow embedding of the client-side helpers of the package.  The
    remote engine's primitives used by the helpers ([ee.List.repeat],
    [ee.List.get], [ee.Number.toInt], ...) are embedded as the functions
    their documentation describes; each helper is then the composition
    the Python source writes. *)

From Stdlib Require Import ZArith QArith Qround Reals Lra Lia List String Ascii Sorted.
From stdpp Require Import gmap strings list fin_maps pretty.

Local Open Scope Z_scope.

(** ** The engine's numbers and lists *)

Module EE.

(** [ee.Number]: client numbers are Python ints and floats; rationals
    cover both. *)
Abbreviation Number := Q (only parsing).

Definition int32_min : Z := - 2 ^ 31.
Definition int32_max : Z := 2 ^ 31 - 1.

(** Truncation toward zero of a rational. *)
Definition Qtrunc (q : Q) : Z := Z.quot (Qnum q) (Z.pos (Qden q)).

(** [ee.Number.toInt]: cast to a signed 32-bit integer.  The fractional
    part is dropped; values beyond the 32-bit range saturate. *)
Definition toInt (q : Number) : Z :=
  Z.max int32_min (Z.min int32_max (Qtrunc q)).

(** [ee.List.repeat(value, count)].  A negative count is an error of
    the engine. *)
Definition List_repeat {A} (value : A) (count : Z) : option (list A) :=
  if count <? 0 then None else Some (replicate (Z.to_nat count) value).

(** Position designated by an index of [ee.List.get] / [ee.List.set]:
    a negative index counts backwards from the end of the list; an index
    outside of the list is an error. *)
Definition List_pos {A} (l : list A) (i : Z) : option nat :=
  let n := Z.of_nat (length l) in
  if (0 <=? i) && (i <? n) then Some (Z.to_nat i)
  else if (- n <=? i) && (i <? 0) then Some (Z.to_nat (n + i))
  else None.

Definition List_get {A} (l : list A) (i : Z) : option A :=
  p ← List_pos l i; l !! p.

Definition List_set {A} (l : list A) (i : Z) (x : A) : option (list A) :=
  p ← List_pos l i; Some (<[p := x]> l).

(** [ee.Array(list)]: a 2-D array is built from nested lists whose rows
    all have the same length. *)
Definition rectangular {A} (l : list (list A)) : bool :=
  match l with
  | [] => true
  | r :: rs => forallb (fun r' => Nat.eqb (length r') (length r)) rs
  end.

Definition Array_of {A} (l : list (list A)) : option (list (list A)) :=
  if rectangular l then Some l else None.

End EE.

(** ** geetools/Array/__init__.py *)

Module Array.
Import EE.

(** An [ee.Array] of rank 2, as the nested lists [toList()] returns. *)
Abbreviation t := (list (list Number)) (only parsing).

Definition toList (a : t) : list (list Number) := a.

(** [Array.full(width, height, value)] *)
Definition full (width height value : Number) : option t :=
  let width := toInt width in
  let height := toInt height in
  row ← List_repeat value width;
  rows ← List_repeat row height;
  Array_of rows.

(** [Array.set(x, y, value)] on the array [obj] *)
Definition set (obj : t) (x y value : Number) : option t :=
  let xPos := toInt x in
  let yPos := toInt y in
  r ← List_get (toList obj) yPos;
  row ← List_set r xPos value;
  rows ← List_set (toList obj) yPos row;
  Array_of rows.

(** The cell at row [i] (outer index) and column [j] (inner index). *)
Definition cell (a : t) (i j : nat) : option Number :=
  r ← a !! i; r !! j.

End Array.

(** ** geetools/User/__init__.py *)

Module User.

(** *** The file system and Python's exceptions *)

(** A path is the list of its components ([pathlib.Path]); the empty
    list is the root, and stands for the empty string when it is a
    [credential_pathname] argument. *)
Abbreviation Path := (list string) (only parsing).

Inductive Node := File (content : string) | Dir.

(** The files and directories, and the directories in which entries can
    neither be created nor removed.  There are no links, every
    directory can be searched, and names are compared byte for byte. *)
Record FS := mkFS {
  nodes : gmap (list string) Node;
  readonly : gset (list string)
}.

Inductive Exn :=
| OSError | FileNotFoundError | IsADirectoryError | NotADirectoryError
| PermissionError | shutil_Error.

Definition Exn_eqb (a b : Exn) : bool :=
  match a, b with
  | OSError, OSError | FileNotFoundError, FileNotFoundError
  | IsADirectoryError, IsADirectoryError
  | NotADirectoryError, NotADirectoryError
  | PermissionError, PermissionError | shutil_Error, shutil_Error => true
  | _, _ => false
  end.

(** Every exception of the model derives from [OSError]. *)
Definition issubclass (e cls : Exn) : bool :=
  Exn_eqb e cls || Exn_eqb cls OSError.

Inductive Result (A : Type) := Ok (a : A) | Raise (e : Exn).
Arguments Ok {A} a.
Arguments Raise {A} e.

(** A statement runs on a file system and returns or raises; what it did
    to the file system before raising stays done. *)
Definition M (A : Type) : Type := FS -> Result A * FS.

Definition ret {A} (a : A) : M A := fun fs => (Ok a, fs).

Definition bind {A B} (m : M A) (k : A -> M B) : M B :=
  fun fs => match m fs with
            | (Ok a, fs') => k a fs'
            | (Raise e, fs') => (Raise e, fs')
            end.

Notation "x <- m ;; k" := (bind m (fun x => k))
  (at level 100, m at next level, right associativity, only parsing).

Definition Path_parent (p : Path) : Path := removelast p.
Definition Path_name (p : Path) : string := List.last p ""%string.

(** [p / s], for a name [s] that is one component (see [portable]
    below). *)
Definition Path_div (p : Path) (s : string) : Path := p ++ [s].

(** Resolution of the directory that holds [p]: the error the system
    reports when that directory is missing or is a regular file.  What a
    file system stores has directories above it, so the directories
    further up decide only for a missing directory (see [file_above]
    below). *)
Definition parent_error (fs : FS) (p : Path) : option Exn :=
  match Path_parent p with
  | [] => None
  | d => match nodes fs !! d with
         | Some Dir => None
         | Some (File _) => Some NotADirectoryError
         | None => Some FileNotFoundError
         end
  end.

Definition under (d p : Path) : bool := bool_decide (d `prefix_of` p).

Definition locked (fs : FS) (p : Path) : bool :=
  bool_decide (Path_parent p ∈ readonly fs).

(** [Path.unlink()] *)
Definition os_unlink (p : Path) : M unit := fun fs =>
  match parent_error fs p with
  | Some e => (Raise e, fs)
  | None =>
    match nodes fs !! p with
    | None => (Raise FileNotFoundError, fs)
    | Some Dir => (Raise IsADirectoryError, fs)
    | Some (File _) =>
      if locked fs p then (Raise PermissionError, fs)
      else (Ok tt, mkFS (delete p (nodes fs)) (readonly fs))
    end
  end.

Definition rebase (src dst p : Path) : Path :=
  if under src p then dst ++ drop (length src) p else p.

Definition remove_tree (d : Path) (m : gmap (list string) Node)
  : gmap (list string) Node :=
  filter (fun kv : list string * Node => under d kv.1 = false) m.

Definition move_tree (src dst : Path) (m : gmap (list string) Node)
  : gmap (list string) Node :=
  let moved : list (list string * Node) :=
    (fun kv : list string * Node => (rebase src dst kv.1, kv.2))
      <$> map_to_list (remove_tree dst m) in
  list_to_map moved.

Definition has_children (d : Path) (m : gmap (list string) Node) : bool :=
  existsb (fun p : list string => under d p && negb (bool_decide (d = p)))
          (map_to_list m).*1.

(** [os.rename(src, dst)], also [Path.rename]: a file replaces an
    existing file, a directory replaces an empty directory. *)
Definition os_rename (src dst : Path) : M unit := fun fs =>
  match parent_error fs src with
  | Some e => (Raise e, fs)
  | None =>
    match nodes fs !! src with
    | None => (Raise FileNotFoundError, fs)
    | Some n =>
      match parent_error fs dst with
      | Some e => (Raise e, fs)
      | None =>
        if locked fs src || locked fs dst then (Raise PermissionError, fs)
        else if bool_decide (src = dst) then (Ok tt, fs)
        else
          match n, nodes fs !! dst with
          | File _, Some Dir => (Raise IsADirectoryError, fs)
          | Dir, Some (File _) => (Raise NotADirectoryError, fs)
          | File c, _ =>
            (Ok tt, mkFS (<[dst := File c]> (delete src (nodes fs))) (readonly fs))
          | Dir, _ =>
            if has_children dst (nodes fs) || under src dst
            then (Raise OSError, fs)
            else (Ok tt, mkFS (move_tree src dst (nodes fs)) (readonly fs))
          end
      end
    end
  end.

Definition isdir (fs : FS) (p : Path) : bool :=
  match p with
  | [] => true
  | _ => match nodes fs !! p with Some Dir => true | _ => false end
  end.

(** [shutil.move(src, dst)]: into [dst] when it is a directory, onto
    [dst] otherwise; returns the destination. *)
Definition shutil_move (src dst : Path) : M (list string) := fun fs =>
  if isdir fs dst && negb (bool_decide (src = dst)) then
    let real_dst := Path_div dst (Path_name src) in
    match nodes fs !! real_dst with
    | Some _ => (Raise shutil_Error, fs)
    | None => (_ <- os_rename src real_dst ;; ret real_dst) fs
    end
  else (_ <- os_rename src dst ;; ret dst) fs.

(** [with suppress(cls): body] *)
Definition with_suppress (cls : Exn) (body : M unit) : M unit := fun fs =>
  match body fs with
  | (Raise e, fs') => if issubclass e cls then (Ok tt, fs') else (Raise e, fs')
  | r => r
  end.

(** [suppress(v)] as an expression statement: the argument [v] has been
    evaluated already; the call only builds a context manager, which is
    dropped without being entered. *)
Definition suppress_call {A} (v : A) : M unit := ret tt.

(** A regular file sits at the path or at a directory above it. *)
Definition file_above (fs : FS) (p : Path) : bool :=
  existsb (fun k => match nodes fs !! take k p with
                    | Some (File _) => true
                    | _ => false
                    end)
          (seq 1 (length p)).

(** The path names no file: nothing is stored under it, and no
    regular file stands where one of its directories should be (the
    system then answers with [NotADirectoryError], not with
    [FileNotFoundError]). *)
Definition absent (fs : FS) (p : Path) : Prop :=
  nodes fs !! p = None /\ file_above fs p = false.

(** [Path_div] is [/] for a name that is one component.  The names the
    system takes as one component: not empty, not [.] or [..], without a
    slash or a null character, of at most 255 bytes; a path is at most
    4095 bytes long with its separators. *)
Fixpoint String_forallb (f : ascii -> bool) (s : string) : bool :=
  match s with
  | EmptyString => true
  | String c s' => f c && String_forallb f s'
  end.

Definition component_ok (s : string) : bool :=
  negb (String.eqb s "") && negb (String.eqb s ".") && negb (String.eqb s "..")
  && String_forallb (fun c => negb (Ascii.eqb c "/") && negb (Ascii.eqb c Ascii.zero)) s
  && Nat.leb (String.length s) 255.

Definition path_length (p : Path) : nat :=
  foldr (fun s n => (S (String.length s) + n)%nat) 0%nat p.

Definition portable (p : Path) : bool :=
  forallb component_ok p && Nat.leb (path_length p) 4095.

Section Engine.

(** [ee.oauth.get_credentials_path()] *)
Variable get_credentials_path : list string.

(** [ee.Authenticate()], the interactive authorization flow. *)
Variable Authenticate : M unit.

(** The name [tempfile] picks for a new directory. *)
Variable mkdtemp : FS -> list string.

(** [with TemporaryDirectory() as dir: body]: the directory is created,
    and removed with its contents when the block is left, also by an
    exception. *)
Definition with_TemporaryDirectory {A} (body : Path -> M A) : M A := fun fs =>
  let dir := mkdtemp fs in
  let '(r, fs') := body dir (mkFS (<[dir := Dir]> (nodes fs)) (readonly fs)) in
  (r, mkFS (remove_tree dir (nodes fs')) (readonly fs')).

(** [credential_pathname or ee.oauth.get_credentials_path()] *)
Definition or_default (credential_pathname : Path) : Path :=
  match credential_pathname with
  | [] => get_credentials_path
  | _ => credential_pathname
  end.

(** [User.create(name, credential_pathname)] *)
Definition create (name : string) (credential_pathname : Path) : M unit :=
  let name := ("credentials" +:+ name)%string in
  let credential_pathname := or_default credential_pathname in
  let credential_path := Path_parent credential_pathname in
  let default := get_credentials_path in
  with_TemporaryDirectory (fun dir =>
    saved <- shutil_move default (Path_div dir (Path_name default)) ;;
    _ <- suppress_call saved ;;
    _ <- Authenticate ;;
    _ <- shutil_move default (Path_div credential_path name) ;;
    restored <- shutil_move (Path_div dir (Path_name default)) default ;;
    suppress_call restored).

(** [User.delete(name, credential_pathname)] *)
Definition delete (name : string) (credential_pathname : Path) : M unit :=
  let name := ("credentials" +:+ name)%string in
  let credential_pathname := or_default credential_pathname in
  let credential_path := Path_parent credential_pathname in
  with_suppress FileNotFoundError (os_unlink (Path_div credential_path name)).

(** [User.rename(new, old, credential_pathname)] *)
Definition rename (new old : string) (credential_pathname : Path) : M unit :=
  let old := ("credentials" +:+ old)%string in
  let new := ("credentials" +:+ new)%string in
  let credential_pathname := or_default credential_pathname in
  let credential_path := Path_parent credential_pathname in
  with_suppress FileNotFoundError
    (os_rename (Path_div credential_path old) (Path_div credential_path new)).

End Engine.

(** *** set and list *)

(** [Path.read_text()] *)
Definition read_text (p : Path) : M string := fun fs =>
  match parent_error fs p with
  | Some e => (Raise e, fs)
  | None =>
    match nodes fs !! p with
    | None => (Raise FileNotFoundError, fs)
    | Some Dir => (Raise IsADirectoryError, fs)
    | Some (File c) => (Ok c, fs)
    end
  end.

Definition is_file (fs : FS) (p : Path) : bool :=
  match nodes fs !! p with
  | Some (File _) => true
  | _ => false
  end.

(** [dir.glob(prefix + "*")]: the entries of [dir] whose name starts with
    [prefix]. *)
Definition glob (fs : FS) (dir : Path) (prefix : string) : list (list string) :=
  List.filter
    (fun p : list string =>
       negb (bool_decide (p = [])) && bool_decide (Path_parent p = dir)
       && String.prefix prefix (Path_name p))
    (map_to_list (nodes fs)).*1.

(** [s.replace(p, "")] for a non-empty [p]: the occurrences of [p] are
    removed, from the left and without overlap.  [skip] counts the
    characters of the current occurrence that are still to drop. *)
Fixpoint str_remove (p : string) (skip : nat) (s : string) : string :=
  match s with
  | EmptyString => EmptyString
  | String c s' =>
    match skip with
    | S k => str_remove p k s'
    | O =>
      if String.prefix p s then str_remove p (String.length p - 1) s'
      else String c (str_remove p O s')
    end
  end.

(** [f.name.replace("credentials", "") or "default"] *)
Definition user_name (file_name : string) : string :=
  let n := str_remove "credentials" 0 file_name in
  if String.eqb n "" then "default"%string else n.

(** Nothing is stored at [d] or below it. *)
Definition vacant (fs : FS) (d : Path) : bool :=
  forallb (fun p : list string => negb (under d p)) (map_to_list (nodes fs)).*1.

(** What [set] does: it raises [ee.EEException], or it reaches
    [ee.Initialize] with credentials made of the three tokens. *)
Inductive Outcome (J : Type) :=
| Initialize (refresh_token client_id client_secret : J)
| EEException.
Arguments Initialize {J} refresh_token client_id client_secret.
Arguments EEException {J}.

Section Accounts.

Variable get_credentials_path : list string.

(** [json.loads], for a text that is a JSON object ([None] for any other
    text); [J] are the JSON values. *)
Context {J : Type}.
Variable json_loads : string -> option (gmap string J).

(** [User.set(name, credential_pathname)]: whatever fails inside the
    [try] block becomes the [EEException]. *)
Definition set (name : string) (credential_pathname : Path) (fs : FS) : Outcome J :=
  let name := ("credentials" +:+ name)%string in
  let credential_pathname := or_default get_credentials_path credential_pathname in
  let credential_path := Path_parent credential_pathname in
  match read_text (Path_div credential_path name) fs with
  | (Raise _, _) => EEException
  | (Ok text, _) =>
    match json_loads text with
    | None => EEException
    | Some tokens =>
      match tokens !! "refresh_token"%string, tokens !! "client_id"%string,
            tokens !! "client_secret"%string with
      | Some refresh_token, Some client_id, Some client_secret =>
        Initialize refresh_token client_id client_secret
      | _, _, _ => EEException
      end
    end
  end.

(** [User.list(credential_pathname)] *)
Definition list (credential_pathname : Path) (fs : FS) : list string :=
  let credential_pathname := or_default get_credentials_path credential_pathname in
  let credential_path := Path_parent credential_pathname in
  let files := List.filter (is_file fs) (glob fs credential_path "credentials") in
  (fun f => user_name (Path_name f)) <$> files.

End Accounts.

End User.

(** ** geetools/ee_image_collection.py *)

Module ImageCollection.

(** *** Images and collections *)

(** A value of the property bag of an image. *)
Inductive PropVal := PNum (z : Z) | PStr (s : string).

(** An image: its named bands, in order, and its properties.  [P] is
    what a band holds: a raster, or the value at one pixel when a helper
    is followed pixel by pixel. *)
Record Image (P : Type) := mkImage {
  bands : list (string * P);
  props : gmap string PropVal
}.
Arguments mkImage {P} bands props.
Arguments bands {P} i.
Arguments props {P} i.

Definition bandNames {P} (i : Image P) : list string := (bands i).*1.

Definition get_num {P} (i : Image P) (p : string) : option Z :=
  match props i !! p with
  | Some (PNum z) => Some z
  | _ => None
  end.

Definition set_prop {P} (i : Image P) (p : string) (v : PropVal) : Image P :=
  mkImage (bands i) (<[p := v]> (props i)).

(** [copyProperties(source, source.propertyNames())] *)
Definition copyProperties {P} (dst src : Image P) : Image P :=
  mkImage (bands dst) (props src ∪ props dst).

Definition lookup_band {P} (n : string) (i : Image P) : option P :=
  snd <$> List.find (fun b : string * P => String.eqb b.1 n) (bands i).

(** [select(names)]: the named bands, in the order asked; a name that
    matches no band is an error. *)
Definition select {P} (names : list string) (i : Image P) : option (Image P) :=
  bs ← mapM (fun n => pair n <$> lookup_band n i) names;
  Some (mkImage bs (props i)).

(** [rename(names)]: new names by position; as many names as bands. *)
Definition rename {P} (names : list string) (i : Image P) : option (Image P) :=
  if Nat.eqb (length names) (length (bands i))
  then Some (mkImage (zip names (bands i).*2) (props i))
  else None.

(** [addBands(src)]: the bands of [src] after those of the image.  (The
    engine renames an added band whose name is taken; the helpers add
    bands under new names.) *)
Definition addBands {P} (i src : Image P) : Image P :=
  mkImage (bands i ++ bands src) (props i).

(** [aggregate_array(p)]: the values of a numeric property, skipping the
    images that lack it. *)
Definition aggregate_array {P} (ic : list (Image P)) (p : string) : list Z :=
  omap (fun i => get_num i p) ic.

Definition aggregate_min {P} (ic : list (Image P)) (p : string) : option Z :=
  match aggregate_array ic p with
  | [] => None
  | t :: ts => Some (foldr Z.min t ts)
  end.

Definition aggregate_max {P} (ic : list (Image P)) (p : string) : option Z :=
  match aggregate_array ic p with
  | [] => None
  | t :: ts => Some (foldr Z.max t ts)
  end.

Definition first {P} (ic : list (Image P)) : option (Image P) := head ic.

(** [sort(p)]: ascending and stable; images without the key come first. *)
Definition key_leb (a b : option Z) : bool :=
  match a, b with
  | None, _ => true
  | Some _, None => false
  | Some x, Some y => x <=? y
  end.

Definition key_le {P} (p : string) (a b : Image P) : Prop :=
  key_leb (get_num a p) (get_num b p) = true.

Fixpoint insert_sorted {P} (p : string) (i : Image P) (l : list (Image P))
  : list (Image P) :=
  match l with
  | [] => [i]
  | j :: l' =>
    if key_leb (get_num i p) (get_num j p) then i :: l
    else j :: insert_sorted p i l'
  end.

Definition sort {P} (p : string) (ic : list (Image P)) : list (Image P) :=
  foldr (insert_sorted p) [] ic.

(** [filterDate(start, end)]: [system:time_start] in the half-open range
    [start <= t < end]. *)
Definition filterDate {P} (start end_ : Z) (ic : list (Image P)) : list (Image P) :=
  List.filter
    (fun i => match get_num i "system:time_start" with
              | Some t => (start <=? t) && (t <? end_)
              | None => false
              end) ic.

(** The time key of an image, 0 for an image that has none. *)
Definition time_of {P} (i : Image P) : Z :=
  default 0 (get_num i "system:time_start").

(** [iterate(f, s)]: the images are folded from the first to the last. *)
Definition iterate {A S} (f : A -> S -> option S) (ic : list A) (s : S) : option S :=
  foldl (fun acc x => st ← acc; f x st) (Some s) ic.

(** *** groupInterval *)

(** Modelled from the spec: the millisecond multiplier of the unit names
    accepted by [DateRange.geetools.split], which is not part of the
    sources at hand. *)
Definition unitMillis (unit : string) : option Z :=
  if String.eqb unit "year" then Some (1000 * 60 * 60 * 24 * 365)
  else if String.eqb unit "month" then Some (1000 * 60 * 60 * 24 * 30)
  else if String.eqb unit "week" then Some (1000 * 60 * 60 * 24 * 7)
  else if String.eqb unit "day" then Some (1000 * 60 * 60 * 24)
  else if String.eqb unit "hour" then Some (1000 * 60 * 60)
  else if String.eqb unit "minute" then Some (1000 * 60)
  else if String.eqb unit "second" then Some 1000
  else None.

(** Modelled from the spec: [ee.DateRange(start, end).geetools.split(
    duration, unit)], which is not part of the sources at hand.  The
    span is cut into buckets of [duration] units, from [start] on; the
    last bucket stops at [end]. *)
Definition DateRange_split (start end_ duration : Z) (unit : string)
  : option (list (Z * Z)) :=
  u ← unitMillis unit;
  let d := duration * u in
  if d <=? 0 then None
  else
    let n := (end_ - start + d - 1) / d in
    Some ((fun k => (start + k * d, Z.min (start + (k + 1) * d) end_))
            <$> seqZ 0 n).

(** [groupInterval(unit, duration)] *)
Definition groupInterval {P} (unit : string) (duration : Z) (obj : list (Image P))
  : option (list (list (Image P))) :=
  let ic := sort "system:time_start" obj in
  let timeList := aggregate_array ic "system:time_start" in
  start ← EE.List_get timeList 0;
  end_ ← EE.List_get timeList (-1);
  DateRangeList ← DateRange_split start end_ duration unit;
  Some (List.map (fun dr : Z * Z => filterDate dr.1 dr.2 ic) DateRangeList).

(** *** Images at one pixel *)

(** A helper that computes on pixel values is followed at one pixel: a
    band then holds an [option R], [None] where the pixel is masked.
    The engine's floating-point numbers are taken as real numbers. *)

Definition lift2 (f : R -> R -> R) (a b : option R) : option R :=
  match a, b with
  | Some x, Some y => Some (f x y)
  | _, _ => None
  end.

(** Band matching of the binary image operators: a single band is used
    against every band of the other image, otherwise the bands are paired
    in their order; the result is named after the first image (after the
    second when only the first has a single band) and carries no
    property. *)
Definition binop (f : option R -> option R -> option R)
    (a b : Image (option R)) : Image (option R) :=
  mkImage
    match bands a, bands b with
    | [(_, x)], _ :: _ :: _ => (fun b : string * option R => (b.1, f x b.2)) <$> bands b
    | _, [(_, y)] => (fun a : string * option R => (a.1, f a.2 y)) <$> bands a
    | _, _ => zip_with (fun (a b : string * option R) => (a.1, f a.2 b.2))
                       (bands a) (bands b)
    end ∅.

Definition unop (f : R -> R) (a : Image (option R)) : Image (option R) :=
  mkImage ((fun b : string * option R => (b.1, f <$> b.2)) <$> bands a) ∅.

(** [ee.Image.constant(k)]; a number given where an image is expected is
    this image. *)
Definition constant (k : R) : Image (option R) :=
  mkImage [("constant"%string, Some k)] ∅.

Definition add := binop (lift2 Rplus).
Definition subtract := binop (lift2 Rminus).
Definition multiply := binop (lift2 Rmult).
(** Division by zero gives zero, in the engine as in [Rdiv]. *)
Definition divide := binop (lift2 Rdiv).
Definition pow (a : Image (option R)) (n : nat) := unop (fun x => (x ^ n)%R) a.
Definition sqrt := unop R_sqrt.sqrt.

(** Comparisons and boolean operators give 1 or 0. *)
Definition gt := binop (lift2 (fun x y => if Rgt_dec x y then 1 else 0)%R).
Definition lt := binop (lift2 (fun x y => if Rlt_dec x y then 1 else 0)%R).
Definition Or :=
  binop (lift2 (fun x y =>
                  if Req_dec_T x 0 then if Req_dec_T y 0 then 0 else 1 else 1)%R).
Definition Not := unop (fun x => if Req_dec_T x 0 then 1 else 0)%R.

(** [updateMask(mask)]: a pixel stays valid where the mask is not zero. *)
Definition updateMask :=
  binop (fun v m => match v, m with
                    | Some x, Some k => if Req_dec_T k 0 then None else Some x
                    | _, _ => None
                    end).

(** [addBands(src, overwrite=True)]: a band of [src] replaces the band
    of the same name, or is appended. *)
Definition addBands_overwrite {P} (i src : Image P) : Image P :=
  mkImage
    (((fun b : string * P =>
         match lookup_band b.1 src with Some v => (b.1, v) | None => b end)
        <$> bands i)
     ++ List.filter (fun b : string * P =>
                       negb (bool_decide (b.1 ∈ bandNames i))) (bands src))
    (props i).

(** *** Reducers *)

(** A reducer sees the valid pixels only. *)
Definition valid (l : list (option R)) : list R :=
  omap (fun v : option R => v) l.

Definition total (l : list R) : R := foldr Rplus 0%R l.

Definition Reducer_sum (l : list (option R)) : option R := Some (total (valid l)).

Definition mean_of (l : list R) : R := (total l / INR (length l))%R.

Definition Reducer_mean (l : list (option R)) : option R :=
  match valid l with
  | [] => None
  | vs => Some (mean_of vs)
  end.

(** [ee.Reducer.stdDev]: the standard deviation of the inputs (the
    population one; the sample one is [sampleStdDev]). *)
Definition Reducer_stdDev (l : list (option R)) : option R :=
  match valid l with
  | [] => None
  | vs => Some (R_sqrt.sqrt (mean_of ((fun x => (x - mean_of vs) ^ 2)%R <$> vs)))
  end.

Definition Reducer_min (l : list (option R)) : option R :=
  match valid l with
  | [] => None
  | v :: vs => Some (foldr Rmin v vs)
  end.

Definition Reducer_max (l : list (option R)) : option R :=
  match valid l with
  | [] => None
  | v :: vs => Some (foldr Rmax v vs)
  end.

(** The pixels a collection holds for the band [n]. *)
Definition band_stack {P} (n : string) (ic : list (Image P)) : list P :=
  omap (lookup_band n) ic.

(** [ImageCollection.reduce(reducer)]: the reducer runs on each band of
    the collection, the bands being those of the first image and matched
    by name; [name] gives the name of the output band. *)
Definition reduce {P} (red : list P -> P) (name : string -> string)
    (ic : list (Image P)) : Image P :=
  match ic with
  | [] => mkImage [] ∅
  | first :: _ =>
    mkImage ((fun n => (name n, red (band_stack n ic))) <$> bandNames first) ∅
  end.

(** [ImageCollection.mean()] keeps the band names. *)
Definition mean (ic : list (Image (option R))) : Image (option R) :=
  reduce Reducer_mean (fun n => n) ic.

Definition suffix (s : string) (n : string) : string := (n +:+ "_" +:+ s)%string.

(** [reduce(ee.Reducer.minMax())]: two bands per input band. *)
Definition reduce_minMax (ic : list (Image (option R))) : Image (option R) :=
  match ic with
  | [] => mkImage [] ∅
  | first :: _ =>
    mkImage
      (mjoin ((fun n => [(suffix "min" n, Reducer_min (band_stack n ic));
                         (suffix "max" n, Reducer_max (band_stack n ic))])
                <$> bandNames first)) ∅
  end.

(** [Image.reduce(reducer)]: across the bands of one image. *)
Definition reduce_bands (red : list (option R) -> option R) (name : string)
    (i : Image (option R)) : Image (option R) :=
  mkImage [(name, red (bands i).*2)] ∅.

(** [toBands()]: the bands of all the images, in order, each named after
    the position of its image. *)
Definition toBands {P} (ic : list (Image P)) : Image P :=
  mkImage
    (mjoin (imap (fun k i =>
                    (fun b : string * P => ((pretty k +:+ "_" +:+ b.1)%string, b.2))
                      <$> bands i) ic)) ∅.

(** [qualityMosaic(name)]: at the pixel, the image whose band [name] is
    valid and greatest; the earliest one among equals. *)
Definition quality (name : string) (i : Image (option R)) : option R :=
  v ← lookup_band name i; v.

Definition better (name : string) (best : option (R * Image (option R)))
    (i : Image (option R)) : option (R * Image (option R)) :=
  match quality name i, best with
  | None, _ => best
  | Some q, None => Some (q, i)
  | Some q, Some (qb, _) => if Rlt_dec qb q then Some (q, i) else best
  end.

Definition qualityMosaic (name : string) (ic : list (Image (option R)))
  : Image (option R) :=
  match foldl (better name) None ic with
  | Some (_, i) => mkImage (bands i) ∅
  | None =>
    mkImage (match ic with
             | [] => []
             | i :: _ => (fun b : string * option R => (b.1, None)) <$> bands i
             end) ∅
  end.

(** *** integral *)

(** The [intervals] dictionary, looked up at [unit]; an unknown unit is
    a [KeyError]. *)
Definition intervals (unit : string) (minTime maxTime : option Z) : option R :=
  if String.eqb unit "year" then Some (IZR (1000 * 60 * 60 * 24 * 365))
  else if String.eqb unit "month" then Some (IZR (1000 * 60 * 60 * 24 * 30))
  else if String.eqb unit "day" then Some (IZR (1000 * 60 * 60 * 24))
  else if String.eqb unit "hour" then Some (IZR (1000 * 60 * 60))
  else if String.eqb unit "minute" then Some (IZR (1000 * 60))
  else if String.eqb unit "second" then Some (IZR 1000)
  else if String.eqb unit "" then
    hi ← maxTime; lo ← minTime; Some (IZR hi - IZR lo)%R
  else None.

(** The running sum and the image kept in its ["last"] property. *)
Record Integral := mkIntegral {
  sum : Image (option R);
  last : Image (option R)
}.

Definition computeIntegral (band time : string) (interval : R)
    (image : Image (option R)) (integral : Integral) : option Integral :=
  image ← select [band] image;
  let last := last integral in
  locMinTime ← get_num last time;
  locMaxTime ← get_num image time;
  let locInterval := ((IZR locMaxTime - IZR locMinTime) / interval)%R in
  let locIntegral :=
    divide (multiply (add last image) (constant locInterval)) (constant 2) in
  Some (mkIntegral (add (sum integral) locIntegral) image).

(** The zero image the sum starts from. *)
Definition integral_start (obj : list (Image (option R))) : option Integral :=
  first ← first obj;
  let zero := copyProperties (constant 0) first in
  s ← rename ["integral"%string] zero;
  Some (mkIntegral s zero).

(** [integral(band, time, unit)] *)
Definition integral (band time unit : string) (obj : list (Image (option R)))
  : option (Image (option R)) :=
  let minTime := aggregate_min obj time in
  let maxTime := aggregate_max obj time in
  interval ← intervals unit minTime maxTime;
  s ← integral_start obj;
  r ← iterate (computeIntegral band time interval) obj s;
  Some (sum r).

(** The trapezoidal rule as the specification words it: from one sample
    [(t, v)] to the next, [(prev + curr) / 2 * (dt / unitInterval)]. *)
Fixpoint trapezoids (unitInterval : R) (prev : Z * R) (l : list (Z * R)) : R :=
  match l with
  | [] => 0%R
  | curr :: l' =>
    ((prev.2 + curr.2) / 2 * ((IZR curr.1 - IZR prev.1) / unitInterval)
     + trapezoids unitInterval curr l')%R
  end.

(** The sample an image contributes: its time and its value of [band]. *)
Definition sample (band time : string) (i : Image (option R)) : option (Z * R) :=
  t ← get_num i time;
  v ← lookup_band band i;
  x ← v;
  Some (t, x).

(** *** outliers *)

Definition computeOutlierBands (statBands outBands : list string)
    (minValues maxValues : Image (option R)) (i : Image (option R))
  : option (Image (option R)) :=
  outImage ← select statBands i;
  let outImage := Or (gt outImage maxValues) (lt outImage minValues) in
  renamed ← rename outBands outImage;
  Some (addBands i renamed).

Definition maskOutliers (initBands statBands outBands : list string)
    (i : Image (option R)) : option (Image (option R)) :=
  stat ← select statBands i;
  out ← select outBands i;
  let maskedBands := updateMask stat (Not out) in
  select initBands (addBands_overwrite i maskedBands).

(** [outliers(bands, sigma, drop)] *)
Definition outliers (bands : list string) (sigma : R) (drop : bool)
    (obj : list (Image (option R))) : option (list (Image (option R))) :=
  first ← first obj;
  let initBands := bandNames first in
  let statBands := match bands with [] => initBands | _ => bands end in
  let outBands := (fun b => (b +:+ "_outlier")%string) <$> statBands in
  statCollection ← mapM (select statBands) obj;
  let mean := mean statCollection in
  let stdDev := reduce Reducer_stdDev (suffix "stdDev") statCollection in
  let minValues := subtract mean (multiply stdDev (constant sigma)) in
  let maxValues := add mean (multiply stdDev (constant sigma)) in
  ic ← mapM (computeOutlierBands statBands outBands minValues maxValues) obj;
  if drop then mapM (maskOutliers initBands statBands outBands) ic else Some ic.

(** An image given band by band: the bands are indexed by [l], named by
    [name] and filled by [px]. *)
Definition bandwise {A} (l : list A) (name : A -> string) (px : A -> option R)
    (ps : gmap string PropVal) : Image (option R) :=
  mkImage ((fun n => (name n, px n)) <$> l) ps.

(** The pixel of band [n] in the image [i], masked when [i] has no such
    band. *)
Definition pixel (i : Image (option R)) (n : string) : option R :=
  default None (lookup_band n i).

(** The pixel of an outlier band, given the pixels [stack] of the
    collection for the band and the pixel [v] of the image. *)
Definition outlier_flag (sigma : R) (stack : list (option R)) (v : option R)
  : option R :=
  let mean := Reducer_mean stack in
  let spread := lift2 Rmult (Reducer_stdDev stack) (Some sigma) in
  lift2 (fun x y => if Req_dec_T x 0 then if Req_dec_T y 0 then 0 else 1 else 1)%R
    (lift2 (fun x y => if Rgt_dec x y then 1 else 0)%R v (lift2 Rplus mean spread))
    (lift2 (fun x y => if Rlt_dec x y then 1 else 0)%R v (lift2 Rminus mean spread)).

(** The outlier test as the specification words it: the value lies above
    [mean + sigma * stddev] or below [mean - sigma * stddev]. *)
Definition is_outlier (sigma : R) (stack : list (option R)) (v : R) : Prop :=
  exists m s, Reducer_mean stack = Some m /\ Reducer_stdDev stack = Some s /\
              (v > m + sigma * s \/ v < m - sigma * s)%R.

(** *** medoid *)

Definition normalizeBand (minMax image : Image (option R)) (bandName : string)
  : option (Image (option R)) :=
  band ← select [bandName] image;
  bandMin ← select [suffix "min" bandName] minMax;
  bandMax ← select [suffix "max" bandName] minMax;
  Some (divide (subtract band bandMin) (subtract bandMax bandMin)).

Definition normalizeBands (bandNames : list string)
    (minMax image : Image (option R)) : option (Image (option R)) :=
  imgs ← mapM (normalizeBand minMax image) bandNames;
  rename bandNames (toBands imgs).

Definition computeDistance (image other : Image (option R)) : Image (option R) :=
  sqrt (reduce_bands Reducer_sum "sum" (pow (subtract image other) 2)).

Definition computeSumDistance (sumOfDistancesName : string)
    (normalized : list (Image (option R))) (image : Image (option R))
  : option (Image (option R)) :=
  let sumDistances :=
    reduce Reducer_sum (suffix "sum") (computeDistance image <$> normalized) in
  renamed ← rename [sumOfDistancesName] sumDistances;
  Some (addBands image renamed).

(** [medoid()]; [sumOfDistancesName] is the random name drawn for the
    band of the sums. *)
Definition medoid (sumOfDistancesName : string) (obj : list (Image (option R)))
  : option (Image (option R)) :=
  first ← first obj;
  let bandNames := bandNames first in
  let minMax := reduce_minMax obj in
  normalized ← mapM (normalizeBands bandNames minMax) obj;
  sumDistance ← mapM (computeSumDistance sumOfDistancesName normalized) normalized;
  let medoid := qualityMosaic sumOfDistancesName sumDistance in
  select bandNames medoid.

(** *** Strings and dictionaries of the engine *)

(** [ee.Filter.stringStartsWith] *)
Definition stringStartsWith (p s : string) : bool := String.prefix p s.

Fixpoint String_drop (n : nat) (s : string) : string :=
  match n, s with
  | O, _ => s
  | S n', EmptyString => EmptyString
  | S n', String _ s' => String_drop n' s'
  end.

(** [ee.String.replace(p, r)]: the first match of [p] is replaced.  The
    engine reads [p] as a regular expression; a key made of letters,
    digits and underscores stands for itself. *)
Fixpoint String_replace (p r s : string) : string :=
  if String.prefix p s then (r +:+ String_drop (String.length p) s)%string
  else match s with
       | EmptyString => EmptyString
       | String c s' => String c (String_replace p r s')
       end.

(** [ee.String.slice(1)] *)
Definition String_slice1 (s : string) : string := String_drop 1 s.

(** [ee.Dictionary]: the entries, sorted by key, one per key. *)
Abbreviation Dictionary V := (list (string * V)) (only parsing).

Fixpoint Dictionary_set {V} (k : string) (v : V) (d : list (string * V))
  : list (string * V) :=
  match d with
  | [] => [(k, v)]
  | (k', v') :: d' =>
    match String.compare k k' with
    | Lt => (k, v) :: d
    | Eq => (k, v) :: d'
    | Gt => (k', v') :: Dictionary_set k v d'
    end
  end.

(** [ee.Dictionary.fromLists(keys, values)] *)
Definition Dictionary_fromLists {V} (keys : list string) (values : list V)
  : list (string * V) :=
  foldl (fun d (kv : string * V) => Dictionary_set kv.1 kv.2 d) [] (zip keys values).

Definition Dictionary_keys {V} (d : list (string * V)) : list string := d.*1.
Definition Dictionary_values {V} (d : list (string * V)) : list V := d.*2.

(** [Dictionary.select(keys)] *)
Definition Dictionary_select {V} (d : list (string * V)) (keys : list string)
  : list (string * V) :=
  List.filter (fun kv : string * V => bool_decide (kv.1 ∈ keys)) d.

Definition Dictionary_get {V} (d : list (string * V)) (k : string) : option V :=
  snd <$> List.find (fun kv : string * V => String.eqb kv.1 k) d.

(** [Image.reduceRegion(reducer, geometry, ...)]: one entry per band. *)
Definition Image_reduceRegion {P V} (spatial : P -> V) (i : Image P)
  : list (string * V) :=
  Dictionary_fromLists (bandNames i) (spatial <$> (bands i).*2).

(** *** doyByBands *)

Section DoyByBands.
Context {P V : Type}.

(** [ee.Date(t).getRelative("day", "year")]: the day of the year, from
    0, of a timestamp. *)
Variable getRelative_day_year : Z -> Z.

(** The temporal reducer, on the pixels a bucket holds for one band, and
    the name it gives to its output band. *)
Variable timeRed : list P -> P.
Variable timeRedName : string -> string.

(** The spatial reducer over the region, on one band. *)
Variable spatialRed : P -> V.

(** The random name of the day-of-year metadata.  The size of a bucket,
    kept by the source under a second random name, travels in a field of
    its own below. *)
Variable doy_metadata : string.

Definition doy_tag (dateProperty : string) (i : Image P) : option (Image P) :=
  t ← get_num i dateProperty;
  Some (set_prop i doy_metadata (PNum (getRelative_day_year t))).

(** The collection that carries the day of the year.  The first [ic],
    restricted to [bands] and renamed to [labels], is bound and then
    bound again. *)
Definition doy_tagged (dateProperty : string) (bands labels : list string)
    (obj : list (Image P)) : option (list (Image P)) :=
  let ic := mapM (fun i => select bands i ≫= rename labels) obj in
  let ic := mapM (doy_tag dateProperty) obj in
  ic.

(** A sub-collection with its two properties. *)
Record Bucket := mkBucket {
  members : list (Image P);
  bucket_size : Z;
  bucket_doy : Z
}.

Definition filter_doy (ic : list (Image P)) (d : Z) : Bucket :=
  let c := List.filter
             (fun i => bool_decide (get_num i doy_metadata = Some d)) ic in
  mkBucket c (Z.of_nat (length c)) d.

(** The image a bucket reduces to, before it is renamed. *)
Definition timeReduced (c : Bucket) : Image P :=
  reduce timeRed timeRedName (members c).

(** A reduced image with its two properties.  The engine evaluates on
    demand: an image that cannot be built ([None]) is an error only once
    it is used. *)
Record Reduced := mkReduced {
  reduced_image : option (Image P);
  reduced_size : Z;
  reduced_doy : Z
}.

Definition timeReduce (labels : list string) (c : Bucket) : Reduced :=
  let i := rename labels (timeReduced c) in
  mkReduced i (bucket_size c) (bucket_doy c).

(** [doyByBands(region, spatialReducer, timeReducer, scale, dateProperty,
    bands, labels)] *)
Definition doyByBands (dateProperty : string) (bands labels : list string)
    (obj : list (Image P)) : option (list (string * list (string * V))) :=
  bands ← match bands with
          | [] => bandNames <$> first obj
          | _ => Some bands
          end;
  let labels := match labels with [] => bands | _ => labels end in
  ic ← doy_tagged dateProperty bands labels obj;
  let dayList := seqZ 0 367 in
  let icList := filter_doy ic <$> dayList in
  let kept := List.filter (fun r => 0 <? reduced_size r)
                          (timeReduce labels <$> icList) in
  ic ← mapM reduced_image kept;
  let doyList := (fun r => pretty (reduced_doy r)) <$> kept in
  let spatialReduce (label : string) : option (list (string * V)) :=
    selected ← mapM (select [label]) ic;
    image ← rename doyList (toBands selected);
    Some (Image_reduceRegion spatialRed image) in
  values ← mapM spatialReduce labels;
  Some (Dictionary_fromLists labels values).

End DoyByBands.

(** *** reduceRegion *)

Definition PropVal_eqb (a b : PropVal) : bool :=
  match a, b with
  | PNum x, PNum y => x =? y
  | PStr x, PStr y => String.eqb x y
  | _, _ => false
  end.

(** [ee.List.distinct()]: the first occurrence of each value. *)
Fixpoint distinct (l : list PropVal) : list PropVal :=
  match l with
  | [] => []
  | x :: l' => x :: List.filter (fun y => negb (PropVal_eqb x y)) (distinct l')
  end.

(** The [idPropertyType] argument: the three classes the method knows,
    and any other value. *)
Inductive IdType := ee_String | ee_Number | ee_Date | ee_other.

Section ReduceRegion.
Context {P V : Type}.

(** [filterBounds(geometry)] *)
Variable inBounds : Image P -> bool.

(** The property reducer ([first] by default), on the pixels the images
    of one identifier hold for a band, and the name of its output. *)
Variable propRed : list P -> P.
Variable propRedName : string -> string.

(** The reducer over the geometry, on one band. *)
Variable spatial : P -> V.

(** [ee.Number.format] and [ee.Date.format] *)
Variable Number_format : string -> Z -> string.
Variable Date_format : string -> Z -> string.

Definition formatId (idPropertyType : IdType) (dateFormat numberFormat : string)
    (p : PropVal) : option string :=
  match idPropertyType, p with
  | ee_String, PStr s => Some s
  | ee_Number, PNum z => Some (Number_format numberFormat z)
  | ee_Date, PNum z => Some (Date_format dateFormat z)
  | _, _ => None
  end.

(** The unstacking half: the entries of [reduced] whose key starts with
    [p], under that key without [p] and without its next character. *)
Definition getProp (reduced : list (string * V)) (p : string) : list (string * V) :=
  let keys := List.filter (stringStartsWith p) (Dictionary_keys reduced) in
  let values := Dictionary_values (Dictionary_select reduced keys) in
  let keys := (fun k => String_slice1 (String_replace p "" k)) <$> keys in
  Dictionary_fromLists keys values.

(** [reduceRegion(reducer, geometry, idProperty, idPropertyType,
    propertyReducer, dateFormat, numberFormat, ...)]; an unknown
    [idPropertyType] is the [ValueError]. *)
Definition reduceRegion (idProperty : string) (idPropertyType : IdType)
    (dateFormat numberFormat : string) (obj : list (Image P))
  : option (list (string * list (string * V))) :=
  let ic := List.filter inBounds obj in
  let propertyList := distinct (omap (fun i => props i !! idProperty) ic) in
  bandName ← bandNames <$> first ic;
  let reduce (p : PropVal) :=
    rename bandName
      (reduce propRed propRedName
         (List.filter
            (fun i => match props i !! idProperty with
                      | Some v => PropVal_eqb v p
                      | None => false
                      end) ic)) in
  ic ← mapM reduce propertyList;
  propertyList ← match idPropertyType with
                 | ee_other => None
                 | _ => mapM (formatId idPropertyType dateFormat numberFormat)
                             propertyList
                 end;
  bands ← bandNames <$> first ic;
  let bandNames :=
    mjoin ((fun p => (fun b => (p +:+ "_" +:+ b)%string) <$> bands) <$> propertyList) in
  image ← rename bandNames (toBands ic);
  let reduced := Image_reduceRegion spatial image in
  let values := getProp reduced <$> propertyList in
  Some (Dictionary_fromLists propertyList values).

End ReduceRegion.

(** *** outliers with [drop] *)

(** The pixel [maskOutliers] leaves in an evaluated band, given the
    pixel [v] of the image and its outlier flag [flag]: the value is
    kept where [Not] of the flag is not zero. *)
Definition drop_flagged (v flag : option R) : option R :=
  match v, (fun x => if Req_dec_T x 0 then 1 else 0)%R <$> flag with
  | Some x, Some k => if Req_dec_T k 0 then None else Some x
  | _, _ => None
  end.

(** *** append, iloc *)

(** [ee.ImageCollection([image, ...])]: the images of a list get their
    position as [system:index]. *)
Definition fromImages {P} (l : list (Image P)) : list (Image P) :=
  imap (fun k i => set_prop i "system:index" (PStr (pretty k))) l.

(** What [merge] does to an element: its [system:index] gets the prefix
    of its collection. *)
Definition merge_index {P} (prefix : string) (i : Image P) : Image P :=
  match props i !! "system:index"%string with
  | Some (PStr s) => set_prop i "system:index" (PStr (prefix +:+ s))
  | _ => i
  end.

(** [merge(other)]: the elements of the collection, under the prefix
    [1_], then those of [other], under the prefix [2_]. *)
Definition merge {P} (obj other : list (Image P)) : list (Image P) :=
  (merge_index "1_" <$> obj) ++ (merge_index "2_" <$> other).

(** [append(image)] *)
Definition append {P} (obj : list (Image P)) (image : Image P) : list (Image P) :=
  merge obj (fromImages [image]).

(** Two images differ in their [system:index] at most. *)
Definition same_but_index {P} (a b : Image P) : Prop :=
  bands a = bands b /\
  forall p, p <> "system:index"%string -> props a !! p = props b !! p.

(** [iloc(index)] *)
Definition iloc {P} (obj : list (Image P)) (index : Z) : option (Image P) :=
  EE.List_get obj index.

(** *** collectionMask, validPixel *)

(** [mask()]: 1 where the pixel is valid, 0 where it is masked. *)
Definition mask (i : Image (option R)) : Image (option R) :=
  mkImage ((fun b : string * option R =>
              (b.1, Some (match b.2 with Some _ => 1 | None => 0 end)%R))
             <$> bands i) (props i).

(** The image has the band [n] and its pixel is valid. *)
Definition valid_at {P} (n : string) (i : Image (option P)) : bool :=
  match lookup_band n i with
  | Some (Some _) => true
  | _ => false
  end.

(** [ImageCollection.sum()] keeps the band names. *)
Definition collection_sum (ic : list (Image (option R))) : Image (option R) :=
  reduce Reducer_sum (fun n => n) ic.

Definition Image_eq :=
  binop (lift2 (fun x y => if Req_dec_T x y then 1 else 0)%R).

(** [clip(geometry)], at a pixel inside or outside of the geometry. *)
Definition clip (inside : bool) (i : Image (option R)) : Image (option R) :=
  if inside then i
  else mkImage ((fun b : string * option R => (b.1, None)) <$> bands i) (props i).

(** [collectionMask()] *)
Definition collectionMask (obj : list (Image (option R))) : Image (option R) :=
  let masks := mask <$> obj in
  gt (collection_sum masks) (constant 0).

(** [validPixel(band)]; [inside] tells whether the pixel lies in the
    geometry of the collection. *)
Definition validPixel (band : string) (inside : bool)
    (obj : list (Image (option R))) : option (Image (option R)) :=
  band ← (if String.eqb band "" then first obj ≫= (fun f => head (bandNames f))
          else Some band);
  selected ← mapM (select [band]) obj;
  let masks := (fun i => Image_eq (mask i) (constant 1)) <$> selected in
  renamed ← rename ["valid"%string] (collection_sum masks);
  let validPixel := clip inside renamed in
  validPct ← rename ["pct_valid"%string]
               (multiply (divide validPixel (constant (INR (length obj))))
                         (constant 100));
  Some (addBands validPixel validPct).

(** *** containsBandNames *)

(** The properties the engine keeps for itself: [system:time_start],
    [system:index], [system:footprint] and the like. *)
Definition system_property (p : string) : bool := String.prefix "system:" p.

(** The properties of an image that are not the engine's own. *)
Definition user_properties (ps : gmap string PropVal) : gmap string PropVal :=
  filter (fun kv : string * PropVal => system_property kv.1 = false) ps.

(** What an image keeps through a blank multiplication followed by
    [copyProperties]: the bands with their pixels and the properties
    that are not the engine's own; [system:time_start] is gone. *)
Definition keeps_user_content {P} (i o : Image P) : Prop :=
  bands o = bands i /\
  props o !! "system:time_start"%string = None /\
  forall p, system_property p = false -> props o !! p = props i !! p.

(** [copyProperties(source, exclude=[p])]: without a list of properties
    the engine copies the properties that are not its own, here all of
    them but [p]. *)
Definition copyProperties_exclude {P} (dst src : Image P) (p : string) : Image P :=
  mkImage (bands dst) (user_properties (delete p (props src)) ∪ props dst).

(** [containsBandNames(bandNames, filter)]; [band_name] is the random
    name of the temporary property, which holds the band names of the
    image: the pair below.  [Filter.and] and [Filter.or] combine the
    [listContains] filters; a [filter] other than ["ALL"] and ["ANY"] is
    the [KeyError]. *)
Definition containsBandNames (band_name : string) (bandNames_ : list string)
    (filter : string) (obj : list (Image (option R)))
  : option (list (Image (option R))) :=
  filter ← (if String.eqb filter "ALL" then Some (forallb (fun b : bool => b))
            else if String.eqb filter "ANY" then Some (existsb (fun b : bool => b))
            else None);
  let ic := (fun i => (i, bandNames i)) <$> obj in
  let filterList (names : list string) :=
    (fun b => bool_decide (b ∈ names)) <$> bandNames_ in
  let ic := List.filter
              (fun t : Image (option R) * list string => filter (filterList t.2)) ic in
  Some ((fun t : Image (option R) * list string =>
           copyProperties_exclude (multiply t.1 (constant 1)) t.1 band_name) <$> ic).

Definition containsAllBands (band_name : string) (bandNames_ : list string)
    (obj : list (Image (option R))) :=
  containsBandNames band_name bandNames_ "ALL" obj.

Definition containsAnyBands (band_name : string) (bandNames_ : list string)
    (obj : list (Image (option R))) :=
  containsBandNames band_name bandNames_ "ANY" obj.

(** *** aggregateArray *)

(** [aggregate_array(p)] for a property of any type. *)
Definition aggregate_values {P} (ic : list (Image P)) (p : string) : list PropVal :=
  omap (fun i => props i !! p) ic.

Definition propertyNames {P} (i : Image P) : list string :=
  (map_to_list (props i)).*1.

(** [aggregateArray(properties)]; [None] stands for the default. *)
Definition aggregateArray {P} (properties : option (list string))
    (obj : list (Image P)) : option (list (string * list PropVal)) :=
  keys ← match properties with
         | Some l => Some l
         | None => propertyNames <$> first obj
         end;
  let values := (fun p => aggregate_values obj p) <$> keys in
  Some (Dictionary_fromLists keys values).

(** *** reduceInterval *)

Section ReduceInterval.
Context {P : Type}.

(** The reducer, on the pixels the images of a bucket hold for a band,
    and the name of its output band. *)
Variable red : list P -> P.
Variable redName : string -> string.

(** The inner [reduce(ic)]. *)
Definition reduceInterval_reduce (ic : list (Image P)) : option (Image P) :=
  let timeList := aggregate_array ic "system:time_start" in
  start ← EE.List_get timeList 0;
  end_ ← EE.List_get timeList (-1);
  bandNames ← bandNames <$> first ic;
  image ← rename bandNames (reduce red redName ic);
  Some (set_prop (set_prop image "system:time_start" (PNum start))
                 "system:time_end" (PNum end_)).

(** [reduceInterval(reducer, unit, duration)]; the properties of the
    collection itself, copied at the end, are not part of the model. *)
Definition reduceInterval (unit : string) (duration : Z) (obj : list (Image P))
  : option (list (Image P)) :=
  imageCollectionList ← groupInterval unit duration obj;
  mapM reduceInterval_reduce imageCollectionList.

End ReduceInterval.

(** *** closestDate *)

(** [ee.List.sort()] on numbers. *)
Fixpoint insert_number (x : Z) (l : list Z) : list Z :=
  match l with
  | [] => [x]
  | y :: l' => if x <=? y then x :: l else y :: insert_number x l'
  end.

Definition List_sort (l : list Z) : list Z := foldr insert_number [] l.

(** [mosaic()]: at the pixel, the last image that is valid there. *)
Definition last_valid (l : list (option R)) : option R :=
  foldl (fun acc v => match v with Some x => Some x | None => acc end) None l.

Definition mosaic (ic : list (Image (option R))) : Image (option R) :=
  reduce last_valid (fun n => n) ic.

(** The [Filter.lte("system:time_start", date)] of [fill]. *)
Definition until {P} (date : Z) (ic : list (Image P)) : list (Image P) :=
  List.filter (fun i => match get_num i "system:time_start" with
                        | Some t => t <=? date
                        | None => false
                        end) ic.

(** [closestDate()] *)
Definition closestDate (obj : list (Image (option R))) : list (Image (option R)) :=
  let timeList := List_sort (aggregate_array obj "system:time_start") in
  let fill (date : Z) := mosaic (until date obj) in
  fill <$> timeList.

(** *** datesByBands *)

Section DatesByBands.
Context {P V : Type}.

(** The reducer over the region, on one band. *)
Variable spatial : P -> V.

(** [ee.Date(d).format(EE_DATE_FORMAT)] *)
Variable Date_format : Z -> string.

(** [datesByBands(region, reducer, scale, dateProperty, bands, labels)] *)
Definition datesByBands (dateProperty : string) (bands labels : list string)
    (obj : list (Image P)) : option (list (string * list (string * V))) :=
  eeBands ← match bands with
            | [] => bandNames <$> first obj
            | _ => Some bands
            end;
  let eeLabels := match labels with [] => eeBands | _ => labels end in
  ic ← mapM (fun i => select eeBands i ≫= rename eeLabels) obj;
  let dateList := Date_format <$> aggregate_array ic dateProperty in
  let reduce (lbl : string) : option (list (string * V)) :=
    selected ← mapM (select [lbl]) ic;
    image ← rename dateList (toBands selected);
    Some (Image_reduceRegion spatial image) in
  values ← mapM reduce eeLabels;
  Some (Dictionary_fromLists eeLabels values).

End DatesByBands.

(** *** doyByYears *)

(** [ee.List.distinct()] on numbers: the first occurrence of each. *)
Fixpoint List_distinct (l : list Z) : list Z :=
  match l with
  | [] => []
  | x :: l' => x :: List.filter (fun y => negb (x =? y)) (List_distinct l')
  end.

Section DoyByYears.
Context {P V : Type}.

(** [ee.Date(t).getRelative("day", "year")] and [ee.Date(t).get("year")] *)
Variable getRelative_day_year : Z -> Z.
Variable Date_get_year : Z -> Z.

(** The reducer over the region, on one band. *)
Variable spatial : P -> V.

(** The two random names of the metadata. *)
Variables doy_metadata year_metadata : string.

Definition date_tag (dateProperty : string) (i : Image P) : option (Image P) :=
  date ← get_num i dateProperty;
  let doy := getRelative_day_year date in
  let year := Date_get_year date in
  Some (set_prop (set_prop i doy_metadata (PNum doy)) year_metadata (PNum year)).

(** [doyByYears(band, region, reducer, scale, dateProperty)] *)
Definition doyByYears (band dateProperty : string) (obj : list (Image P))
  : option (list (string * list (string * V))) :=
  ic ← mapM (fun i => select [band] i ≫= date_tag dateProperty) obj;
  let yearList := List_sort (List_distinct (aggregate_array ic year_metadata)) in
  let yearKeys := (fun y : Z => pretty y) <$> yearList in
  let reduce (year : Z) : option (list (string * V)) :=
    let c := List.filter
               (fun i => bool_decide (get_num i year_metadata = Some year)) ic in
    let doyList := (fun d : Z => pretty d) <$> aggregate_array c doy_metadata in
    image ← rename doyList (toBands c);
    Some (Image_reduceRegion spatial image) in
  values ← mapM reduce yearList;
  Some (Dictionary_fromLists yearKeys values).

End DoyByYears.

End ImageCollection.

(** Sample collections. *)

Module ICSamples.
Import ImageCollection.

(** An image known by its acquisition time only. *)
Definition timed (t : Z) : Image unit :=
  mkImage [] {[ "system:time_start"%string := PNum t ]}.

(** A single-band image at one pixel: band ["B1"], acquired at [t]. *)
Definition pix (t : Z) (v : R) : Image (option R) :=
  mkImage [("B1"%string, Some v)] {[ "system:time_start"%string := PNum t ]}.

(** The same where the pixel is masked. *)
Definition masked_pix (t : Z) : Image (option R) :=
  mkImage [("B1"%string, None)] {[ "system:time_start"%string := PNum t ]}.

(** A pixel that is masked in the second of three images. *)
Definition gappy : list (Image (option R)) := [pix 0 1; masked_pix 1; pix 2 3].

(** The values of one pixel along a collection of six images. *)
Definition series : list (Image (option R)) :=
  [pix 0 1; pix 1 5; pix 2 6; pix 3 4; pix 4 7; pix 5 10].

(** Three images whose pixel holds 0, 1 and 10. *)
Definition triple : list (Image (option R)) := [pix 0 0; pix 1 1; pix 2 10].

(** The name drawn for the band of the sums of distances. *)
Definition drawn : string := "3f2a9c0d5b7e4a1682c4d9e0f1a2b3c4".

(** A normalized image, and the same with its sum of distances. *)
Definition norm1 (v : R) : Image (option R) := mkImage [("B1"%string, Some v)] ∅.
Definition scored (v q : R) : Image (option R) :=
  mkImage [("B1"%string, Some v); (drawn, Some q)] ∅.

(** Two tiles of one band whose identifiers share a prefix. *)
Definition tile (id : string) (v : Z) : Image Z :=
  mkImage [("B1"%string, v)] {[ "tile"%string := PStr id ]}.

(** The [first] reducer. *)
Definition firstRed (l : list Z) : Z := default 0 (head l).

(** Scenes of two bands, one per day. *)
Definition scene (t : Z) (v w : Z) : Image Z :=
  mkImage [("B1"%string, v); ("B2"%string, w)]
          {[ "system:time_start"%string := PNum t ]}.

Definition day_ms : Z := 1000 * 60 * 60 * 24.
Definition day_of_year (t : Z) : Z := (t / day_ms) mod 365.
Definition year_of (t : Z) : Z := 1970 + t / (365 * day_ms).
Definition sumRed (l : list Z) : Z := foldr Z.add 0 l.

End ICSamples.

(** Sample file systems. *)

Module UserSamples.

(** The engine's configuration directory in a home directory with the engine's configuration directory. *)
Definition ee_dir : list string := ["home"; ".config"; "earthengine"]%string.
Definition ee_default : list string := ee_dir ++ ["credentials"%string].

Definition fs_dirs : gmap (list string) User.Node :=
  <[ee_dir := User.Dir]>
    (<[["home"; ".config"]%string := User.Dir]>
       (<[["home"]%string := User.Dir]> (<[["tmp"]%string := User.Dir]> ∅))).

(** No credential file at all. *)
Definition fs_fresh : User.FS := User.mkFS fs_dirs ∅.

(** A directory sits where the credential file of ["locked"] would be. *)
Definition fs_blocked : User.FS :=
  User.mkFS (<[ee_dir ++ ["credentialslocked"%string] := User.Dir]> fs_dirs) ∅.

(** A default credential file is in place. *)
Definition fs_default : User.FS :=
  User.mkFS (<[ee_default := User.File "old token"]> fs_dirs) ∅.

(** An authorization flow that succeeds and writes [token] as the
    default credential file. *)
Definition authorize (token : string) : User.M unit := fun fs =>
  (User.Ok tt,
   User.mkFS (<[ee_default := User.File token]> (User.nodes fs)) (User.readonly fs)).

Definition tmp_name (fs : User.FS) : list string := ["tmp"; "tmpk3v9"]%string.

(** An authorization flow that is given up: it raises and writes
    nothing. *)
Definition refuse : User.M unit := fun fs => (User.Raise User.OSError, fs).

(** A reader of credential files for the samples: the text of the file
    is taken as the refresh token of a fixed client. *)
Definition loads (text : string) : option (gmap string string) :=
  if String.eqb text "" then None
  else Some (<["refresh_token"%string := text]>
               (<["client_id"%string := "id"%string]>
                  (<["client_secret"%string := "secret"%string]> ∅))).

End UserSamples.

(** *** Facts about the engine's primitives *)

Lemma Qtrunc_inject_Z (z : Z) : EE.Qtrunc (inject_Z z) = z.
Proof. unfold EE.Qtrunc. simpl. apply Z.quot_1_r. Qed.

Lemma toInt_inject_Z (z : Z) :
  EE.int32_min <= z <= EE.int32_max -> EE.toInt (inject_Z z) = z.
Proof. intros H. unfold EE.toInt. rewrite Qtrunc_inject_Z. lia. Qed.

(** Truncation is the floor on non-negative numbers and the ceiling on
    non-positive ones: never a rounding to the nearest integer. *)
Lemma Qtrunc_nonneg (q : Q) : (0 <= q)%Q -> EE.Qtrunc q = Qfloor q.
Proof.
  destruct q as [n d]. unfold Qle, EE.Qtrunc, Qfloor. simpl. intros H.
  apply Z.quot_div_nonneg; lia.
Qed.

Lemma Qtrunc_nonpos (q : Q) : (q <= 0)%Q -> EE.Qtrunc q = Qceiling q.
Proof.
  destruct q as [n d]. unfold Qle, EE.Qtrunc, Qceiling, Qfloor. simpl. intros H.
  replace n with (- (- n)) at 1 by lia.
  rewrite Z.quot_opp_l by lia. f_equal.
  apply Z.quot_div_nonneg; lia.
Qed.

Example toInt_truncates :
  EE.toInt (5 # 2) = 2 /\ EE.toInt (7 # 2) = 3 /\ EE.toInt (- 5 # 2) = -2
  /\ EE.toInt (29 # 10) = 2.
Proof. repeat split. Qed.

Lemma List_pos_in_range {A} (l : list A) (i : nat) :
  (i < length l)%nat -> EE.List_pos l (Z.of_nat i) = Some i.
Proof.
  intros H. unfold EE.List_pos.
  replace (0 <=? Z.of_nat i) with true by (symmetry; apply Z.leb_le; lia).
  replace (Z.of_nat i <? Z.of_nat (length l)) with true
    by (symmetry; apply Z.ltb_lt; lia).
  simpl. f_equal. apply Nat2Z.id.
Qed.

Lemma rectangular_replicate {A} (n : nat) (r : list A) :
  EE.rectangular (replicate n r) = true.
Proof.
  destruct n as [|n]; [reflexivity|]. simpl.
  induction n as [|n IH]; simpl; [reflexivity|].
  rewrite Nat.eqb_refl. exact IH.
Qed.

Lemma rectangular_spec {A} (l : list (list A)) :
  EE.rectangular l = true <->
  forall i j r r', l !! i = Some r -> l !! j = Some r' -> length r = length r'.
Proof.
  destruct l as [|r0 rs]; simpl.
  - split; [intros _ i j r r' H; rewrite lookup_nil in H; discriminate | reflexivity].
  - rewrite forallb_forall. split.
    + intros H.
      assert (Hall : forall i r, (r0 :: rs) !! i = Some r -> length r = length r0).
      { intros [|i] r Hr; simpl in Hr; [congruence|].
        apply Nat.eqb_eq, H. apply list_elem_of_In.
        eapply list_elem_of_lookup_2; eauto. }
      intros i j r r' Hi Hj. rewrite (Hall _ _ Hi), (Hall _ _ Hj). reflexivity.
    + intros H r Hr. apply list_elem_of_In, list_elem_of_lookup in Hr.
      destruct Hr as [i Hi]. apply Nat.eqb_eq.
      apply (H (S i) 0%nat r r0); [exact Hi | reflexivity].
Qed.

Lemma rectangular_insert {A} (l : list (list A)) (i : nat) (r row : list A) :
  EE.rectangular l = true -> l !! i = Some r -> length row = length r ->
  EE.rectangular (<[i := row]> l) = true.
Proof.
  intros Hrect Hi Hlen. apply rectangular_spec.
  assert (Hall : forall k s, <[i := row]> l !! k = Some s -> length s = length r).
  { intros k s Hk. destruct (decide (i = k)) as [->|Hne].
    - rewrite list_lookup_insert_eq in Hk by (eapply lookup_lt_Some; eauto).
      congruence.
    - rewrite list_lookup_insert_ne in Hk by exact Hne.
      eapply (proj1 (rectangular_spec l) Hrect); eauto. }
  intros a b s s' Ha Hb. rewrite (Hall _ _ Ha), (Hall _ _ Hb). reflexivity.
Qed.

(** *** Array.full *)

Lemma toInt_floor (q : Q) :
  (0 <= q)%Q -> (q <= inject_Z EE.int32_max)%Q ->
  EE.toInt q = Qfloor q /\ 0 <= Qfloor q.
Proof.
  intros H0 Hmax.
  assert (Hlo : 0 <= Qfloor q).
  { change 0 with (Qfloor 0). apply Qfloor_resp_le. exact H0. }
  assert (Hhi : Qfloor q <= EE.int32_max).
  { rewrite <- (Qfloor_Z EE.int32_max). apply Qfloor_resp_le. exact Hmax. }
  split; [|exact Hlo].
  unfold EE.toInt. rewrite Qtrunc_nonneg by exact H0.
  unfold EE.int32_min, EE.int32_max in *. lia.
Qed.

(** C9.  [Array.full(w, h, v)] is the nested list of [h] rows of [w]
    columns whose cells all equal [v]; a non-integer [w] or [h] is first
    truncated (the floor, for the non-negative sizes an array can have),
    never rounded. *)
Theorem Array_full_spec (w h v : Q) :
  (0 <= w)%Q -> (w <= inject_Z EE.int32_max)%Q ->
  (0 <= h)%Q -> (h <= inject_Z EE.int32_max)%Q ->
  let W := Z.to_nat (Qfloor w) in
  let H := Z.to_nat (Qfloor h) in
  EE.toInt w = Qfloor w /\ EE.toInt h = Qfloor h /\
  exists arr,
    Array.full w h v = Some arr /\
    arr = replicate H (replicate W v) /\
    length arr = H /\
    (forall row, In row arr -> length row = W /\ forall c, In c row -> c = v) /\
    (forall i j, (i < H)%nat -> (j < W)%nat -> Array.cell arr i j = Some v).
Proof.
  intros Hw0 Hw1 Hh0 Hh1 W H.
  destruct (toInt_floor w Hw0 Hw1) as [Ew Pw].
  destruct (toInt_floor h Hh0 Hh1) as [Eh Ph].
  split; [exact Ew|]. split; [exact Eh|].
  exists (replicate H (replicate W v)).
  split.
  - unfold Array.full, EE.List_repeat. rewrite Ew, Eh.
    replace (Qfloor w <? 0) with false by (symmetry; apply Z.ltb_ge; lia).
    replace (Qfloor h <? 0) with false by (symmetry; apply Z.ltb_ge; lia).
    simpl. unfold EE.Array_of. fold W H.
    rewrite rectangular_replicate. reflexivity.
  - split; [reflexivity|]. split; [apply length_replicate|]. split.
    + intros row Hin. apply list_elem_of_In, elem_of_replicate in Hin.
      destruct Hin as [-> _]. split; [apply length_replicate|].
      intros c Hc. apply list_elem_of_In, elem_of_replicate in Hc. tauto.
    + intros i j Hi Hj. unfold Array.cell.
      rewrite lookup_replicate_2 by exact Hi. simpl.
      apply lookup_replicate_2. exact Hj.
Qed.

Lemma Array_full_spec_witness :
  exists arr, Array.full 3 (7 # 2) (-5 # 2) = Some arr /\
              arr = replicate 3 (replicate 3 (-5 # 2)%Q).
Proof.
  destruct (Array_full_spec 3 (7 # 2) (-5 # 2)) as (_ & _ & arr & H1 & H2 & _).
  - apply Qle_bool_iff; reflexivity.
  - apply Qle_bool_iff; reflexivity.
  - apply Qle_bool_iff; reflexivity.
  - apply Qle_bool_iff; reflexivity.
  - exists arr. split; [exact H1 | exact H2].
Defined.

(** *** Array.set *)

(** C8.  With [x], [y] inside the array, [set(x, y, value)] returns the
    array whose cell at row [y] and column [x] is [value] and whose other
    cells are those of the input; on [full(3,3,1)], [set(1,1,0)] zeroes
    the centre and leaves the eight other cells at 1. *)
Theorem Array_set_spec (obj : Array.t) (x y : nat) (value : Q) (row : list Q) :
  EE.rectangular obj = true ->
  obj !! y = Some row -> (x < length row)%nat ->
  Z.of_nat x <= EE.int32_max -> Z.of_nat y <= EE.int32_max ->
  (exists arr,
      Array.set obj (inject_Z (Z.of_nat x)) (inject_Z (Z.of_nat y)) value = Some arr /\
      Array.cell arr y x = Some value /\
      (forall i j, (i, j) <> (y, x) -> Array.cell arr i j = Array.cell obj i j)) /\
  (a ← Array.full 3 3 1; Array.set a 1 1 0)
  = Some [[1; 1; 1]; [1; 0; 1]; [1; 1; 1]]%Q.
Proof.
  intros Hrect Hy Hx Bx By. split; [|reflexivity].
  assert (Hylt : (y < length obj)%nat) by (eapply lookup_lt_Some; eauto).
  exists (<[y := <[x := value]> row]> obj).
  split; [|split].
  - unfold Array.set, Array.toList, EE.List_get, EE.List_set.
    rewrite !toInt_inject_Z by (unfold EE.int32_min, EE.int32_max in *; lia).
    rewrite (List_pos_in_range obj y Hylt). simpl. rewrite Hy. simpl.
    rewrite (List_pos_in_range row x Hx). simpl.
    unfold EE.Array_of.
    rewrite (rectangular_insert obj y row) by
      (try assumption; apply length_insert).
    reflexivity.
  - unfold Array.cell. rewrite list_lookup_insert_eq by exact Hylt. simpl.
    apply list_lookup_insert_eq. exact Hx.
  - intros i j Hne. unfold Array.cell.
    destruct (decide (y = i)) as [<-|Hyi].
    + rewrite list_lookup_insert_eq by exact Hylt. rewrite Hy. simpl.
      apply list_lookup_insert_ne. intros ->. apply Hne. reflexivity.
    + rewrite list_lookup_insert_ne by exact Hyi. reflexivity.
Qed.

Lemma Array_set_spec_witness :
  exists arr,
    Array.set [[1; 2]; [3; 4]]%Q (inject_Z (Z.of_nat 1)) (inject_Z (Z.of_nat 0)) 9
    = Some arr /\ Array.cell arr 0 1 = Some 9%Q.
Proof.
  destruct (Array_set_spec [[1; 2]; [3; 4]]%Q 1 0 9 [1; 2]%Q)
    as [(arr & H1 & H2 & _) _].
  - reflexivity.
  - reflexivity.
  - simpl; lia.
  - apply Z.leb_le; reflexivity.
  - apply Z.leb_le; reflexivity.
  - exists arr. split; [exact H1 | exact H2].
Defined.

(** ** User: credential files *)

Lemma issubclass_FileNotFoundError (e : User.Exn) :
  User.issubclass e User.FileNotFoundError = true <-> e = User.FileNotFoundError.
Proof. destruct e; split; intros H; try reflexivity; discriminate H. Qed.

Lemma with_suppress_swallows (body : User.M unit) (fs fs' : User.FS) :
  body fs = (User.Raise User.FileNotFoundError, fs') ->
  User.with_suppress User.FileNotFoundError body fs = (User.Ok tt, fs').
Proof. intros H. unfold User.with_suppress. rewrite H. reflexivity. Qed.

Lemma with_suppress_propagates (body : User.M unit) (fs fs' : User.FS) (e : User.Exn) :
  e <> User.FileNotFoundError ->
  body fs = (User.Raise e, fs') ->
  User.with_suppress User.FileNotFoundError body fs = (User.Raise e, fs').
Proof.
  intros Hne H. unfold User.with_suppress. rewrite H.
  destruct (User.issubclass e User.FileNotFoundError) eqn:E; [|reflexivity].
  apply issubclass_FileNotFoundError in E. contradiction.
Qed.

Lemma absent_parent (fs : User.FS) (p : list string) :
  User.absent fs p -> User.parent_error fs p <> Some User.NotADirectoryError.
Proof.
  intros [_ Hf]. unfold User.parent_error.
  destruct (User.Path_parent p) as [|c d] eqn:E; [discriminate|].
  destruct (User.nodes fs !! (c :: d)) as [[x|]|] eqn:En; try discriminate.
  exfalso. unfold User.file_above in Hf.
  assert (Ht : existsb (fun k => match User.nodes fs !! take k p with
                                 | Some (User.File _) => true
                                 | _ => false
                                 end) (seq 1 (length p)) = true).
  { apply existsb_exists. exists (Nat.pred (length p)).
    unfold User.Path_parent in E. rewrite removelast_firstn_len in E.
    split.
    - apply in_seq. apply (f_equal (@length string)) in E.
      rewrite length_take in E. simpl in E. lia.
    - change (firstn (Nat.pred (length p)) p) with (take (Nat.pred (length p)) p) in E.
      rewrite E, En. reflexivity. }
  rewrite Ht in Hf. discriminate Hf.
Qed.

Lemma os_unlink_absent (fs : User.FS) (p : list string) :
  User.absent fs p -> User.os_unlink p fs = (User.Raise User.FileNotFoundError, fs).
Proof.
  intros H. pose proof (absent_parent fs p H) as Hp. destruct H as [Hn _].
  unfold User.os_unlink.
  unfold User.parent_error in *.
  destruct (User.Path_parent p) as [|c d]; [rewrite Hn; reflexivity|].
  destruct (User.nodes fs !! (c :: d)) as [[?|]|]; try reflexivity.
  - contradiction.
  - rewrite Hn. reflexivity.
Qed.

Lemma os_rename_absent (fs : User.FS) (src dst : list string) :
  User.absent fs src -> User.os_rename src dst fs = (User.Raise User.FileNotFoundError, fs).
Proof.
  intros H. pose proof (absent_parent fs src H) as Hp. destruct H as [Hn _].
  unfold User.os_rename.
  unfold User.parent_error in *.
  destruct (User.Path_parent src) as [|c d]; [rewrite Hn; reflexivity|].
  destruct (User.nodes fs !! (c :: d)) as [[?|]|]; try reflexivity.
  - contradiction.
  - rewrite Hn. reflexivity.
Qed.

(** C10.  [delete] and [rename] return normally, leaving the file system
    as it is, when the credential file they target does not exist; any
    other error of the unlink or of the rename reaches the caller as it
    was raised.  The file does not exist when nothing is stored at its
    path and no regular file stands above it; its path is one the system
    takes, the name being a single component. *)
Theorem delete_rename_failure_policy
    (default : list string) (name new old : string)
    (credential_pathname : list string) (fs : User.FS) :
  let dir := User.Path_parent (User.or_default default credential_pathname) in
  let target := User.Path_div dir ("credentials" +:+ name) in
  let src := User.Path_div dir ("credentials" +:+ old) in
  let dst := User.Path_div dir ("credentials" +:+ new) in
  (User.portable target = true -> User.absent fs target ->
   User.delete default name credential_pathname fs = (User.Ok tt, fs)) /\
  (User.portable src = true -> User.portable dst = true -> User.absent fs src ->
   User.rename default new old credential_pathname fs = (User.Ok tt, fs)) /\
  (forall e fs', e <> User.FileNotFoundError ->
     User.os_unlink target fs = (User.Raise e, fs') ->
     User.delete default name credential_pathname fs = (User.Raise e, fs')) /\
  (forall e fs', e <> User.FileNotFoundError ->
     User.os_rename src dst fs = (User.Raise e, fs') ->
     User.rename default new old credential_pathname fs = (User.Raise e, fs')).
Proof.
  intros dir target src dst. repeat split.
  - intros _ H. apply with_suppress_swallows, os_unlink_absent, H.
  - intros _ _ H. apply with_suppress_swallows, os_rename_absent, H.
  - intros e fs' Hne H. apply with_suppress_propagates; assumption.
  - intros e fs' Hne H. apply with_suppress_propagates; assumption.
Qed.

Import UserSamples.

Lemma delete_rename_failure_policy_witness :
  User.delete ee_default "nonexistent" [] fs_fresh = (User.Ok tt, fs_fresh) /\
  User.rename ee_default "b" "nonexistent" [] fs_fresh = (User.Ok tt, fs_fresh) /\
  User.delete ee_default "locked" [] fs_blocked
  = (User.Raise User.IsADirectoryError, fs_blocked) /\
  User.rename ee_default "locked" "" []
      (User.mkFS (<[ee_default := User.File "token"]> (User.nodes fs_blocked)) ∅)
  = (User.Raise User.IsADirectoryError,
     User.mkFS (<[ee_default := User.File "token"]> (User.nodes fs_blocked)) ∅).
Proof.
  split; [|split; [|split]].
  - apply (delete_rename_failure_policy ee_default "nonexistent" "b" "nonexistent" [] fs_fresh);
      first [reflexivity | split; reflexivity].
  - apply (delete_rename_failure_policy ee_default "nonexistent" "b" "nonexistent" [] fs_fresh);
      first [reflexivity | split; reflexivity].
  - apply (delete_rename_failure_policy ee_default "locked" "b" "" [] fs_blocked);
      [discriminate | reflexivity].
  - apply (delete_rename_failure_policy ee_default "x" "locked" "" []
             (User.mkFS (<[ee_default := User.File "token"]> (User.nodes fs_blocked)) ∅));
      [discriminate | reflexivity].
Defined.

(** *** User.create *)

Lemma shutil_move_absent (fs : User.FS) (src dst : list string) :
  User.absent fs src -> User.isdir fs dst = false ->
  User.shutil_move src dst fs = (User.Raise User.FileNotFoundError, fs).
Proof.
  intros Habs Hdir. unfold User.shutil_move. rewrite Hdir. simpl.
  unfold User.bind. rewrite os_rename_absent by exact Habs. reflexivity.
Qed.

(** C4, on a machine that has no default credential file yet: the first
    [move] raises before the authorization flow is started; the
    [suppress] built from its result never guards it. *)
Theorem create_without_default_raises :
  User.nodes fs_fresh !! ee_default = None /\
  User.create ee_default (authorize "new token") tmp_name "secondary" [] fs_fresh
  = (User.Raise User.FileNotFoundError, fs_fresh).
Proof. split; [reflexivity|]. vm_compute. reflexivity. Qed.

(** With a default credential file in place the swap works: the new
    token lands under the qualified name and the old default is back. *)
Example create_with_default :
  exists fs',
    User.create ee_default (authorize "new token") tmp_name "secondary" [] fs_default
    = (User.Ok tt, fs') /\
    User.nodes fs' !! ee_default = Some (User.File "old token") /\
    User.nodes fs' !! (ee_dir ++ ["credentialssecondary"%string])
    = Some (User.File "new token") /\
    User.nodes fs' !! tmp_name fs_default = None.
Proof. eexists. split; [vm_compute; reflexivity|]. repeat split. Qed.

(** The same on every machine: whatever the authorization flow and the
    temporary name, [create] raises [FileNotFoundError] when the default
    credential file is missing. *)
Lemma create_raises_when_default_absent
    (default : list string) (Authenticate : User.M unit)
    (mkdtemp : User.FS -> list string)
    (name : string) (credential_pathname : list string) (fs : User.FS) :
  let dir := mkdtemp fs in
  let fs1 := User.mkFS (<[dir := User.Dir]> (User.nodes fs)) (User.readonly fs) in
  User.absent fs1 default ->
  User.isdir fs1 (User.Path_div dir (User.Path_name default)) = false ->
  (User.create default Authenticate mkdtemp name credential_pathname fs).1
  = User.Raise User.FileNotFoundError.
Proof.
  intros dir fs1 Habs Hdir.
  unfold User.create, User.with_TemporaryDirectory, User.bind.
  fold dir. fold fs1.
  rewrite (shutil_move_absent fs1 default _ Habs Hdir). reflexivity.
Qed.

(** ** ImageCollection: sorting and time keys *)

Section Sorting.
Context {P : Type}.
Variable p : string.

Lemma key_leb_total (a b : option Z) :
  ImageCollection.key_leb a b = false -> ImageCollection.key_leb b a = true.
Proof.
  destruct a as [x|], b as [y|]; simpl; try congruence.
  intros H. apply Z.leb_gt in H. apply Z.leb_le. lia.
Qed.

Lemma key_leb_trans (a b c : option Z) :
  ImageCollection.key_leb a b = true -> ImageCollection.key_leb b c = true ->
  ImageCollection.key_leb a c = true.
Proof.
  destruct a as [x|], b as [y|], c as [z|]; simpl; try congruence.
  rewrite !Z.leb_le. lia.
Qed.

Lemma insert_sorted_In (i j : ImageCollection.Image P) l :
  In j (ImageCollection.insert_sorted p i l) <-> j = i \/ In j l.
Proof.
  induction l as [|k l IH]; simpl.
  - intuition congruence.
  - destruct (ImageCollection.key_leb _ _); simpl; [intuition congruence|].
    rewrite IH. intuition congruence.
Qed.

Lemma sort_In (j : ImageCollection.Image P) l :
  In j (ImageCollection.sort p l) <-> In j l.
Proof.
  induction l as [|k l IH]; simpl; [reflexivity|].
  rewrite insert_sorted_In, IH. intuition congruence.
Qed.

Lemma insert_sorted_sorted (i : ImageCollection.Image P) l :
  StronglySorted (ImageCollection.key_le p) l ->
  StronglySorted (ImageCollection.key_le p) (ImageCollection.insert_sorted p i l).
Proof.
  induction 1 as [|k l Hs IH Hk]; simpl.
  - constructor; constructor.
  - destruct (ImageCollection.key_leb _ _) eqn:E.
    + constructor; [constructor; assumption|].
      constructor; [exact E|].
      eapply Forall_impl; [exact Hk|].
      intros a Ha. unfold ImageCollection.key_le in *. eapply key_leb_trans; eassumption.
    + constructor; [exact IH|].
      apply List.Forall_forall. intros a Ha. apply insert_sorted_In in Ha.
      destruct Ha as [->|Ha].
      * apply key_leb_total. exact E.
      * rewrite List.Forall_forall in Hk. apply Hk. exact Ha.
Qed.

Lemma sort_sorted (l : list (ImageCollection.Image P)) :
  StronglySorted (ImageCollection.key_le p) (ImageCollection.sort p l).
Proof.
  induction l as [|k l IH]; simpl; [constructor|].
  apply insert_sorted_sorted. exact IH.
Qed.

(** In a sorted collection the first image has the least key and the
    last image the greatest. *)
Lemma sorted_head_least (h : ImageCollection.Image P) l :
  StronglySorted (ImageCollection.key_le p) (h :: l) -> forall j, In j (h :: l) -> ImageCollection.key_le p h j.
Proof.
  intros Hs j [<-|Hj].
  - unfold ImageCollection.key_le. destruct (ImageCollection.get_num h p); simpl; [apply Z.leb_refl|reflexivity].
  - apply StronglySorted_inv in Hs. destruct Hs as [_ Hh].
    rewrite List.Forall_forall in Hh. apply Hh. exact Hj.
Qed.

Lemma sorted_last_greatest l (m : ImageCollection.Image P) :
  StronglySorted (ImageCollection.key_le p) (l ++ [m]) -> forall j, In j (l ++ [m]) -> ImageCollection.key_le p j m.
Proof.
  induction l as [|k l IH]; simpl; intros Hs j Hj.
  - destruct Hj as [<-|[]]. unfold ImageCollection.key_le.
    destruct (ImageCollection.get_num m p); simpl; [apply Z.leb_refl|reflexivity].
  - apply StronglySorted_inv in Hs. destruct Hs as [Hs Hk].
    destruct Hj as [<-|Hj]; [|apply IH; assumption].
    rewrite List.Forall_forall in Hk. apply Hk. apply in_or_app. right. left. reflexivity.
Qed.

End Sorting.

(** ** ImageCollection.groupInterval *)

Section GroupInterval.
Context {P : Type}.

Lemma aggregate_array_timed (l : list (ImageCollection.Image P)) :
  (forall i, In i l -> exists t, ImageCollection.get_num i "system:time_start" = Some t) ->
  ImageCollection.aggregate_array l "system:time_start" = List.map ImageCollection.time_of l.
Proof.
  unfold ImageCollection.aggregate_array.
  induction l as [|i l IH]; intros H; simpl; [reflexivity|].
  destruct (H i) as [t Ht]; [left; reflexivity|].
  unfold ImageCollection.time_of at 1. rewrite Ht. simpl. f_equal.
  apply IH. intros j Hj. apply H. right. exact Hj.
Qed.

Lemma List_get_first {A} (x : A) (l : list A) : EE.List_get (x :: l) 0 = Some x.
Proof.
  unfold EE.List_get, EE.List_pos.
  replace (0 <? Z.of_nat (length (x :: l))) with true
    by (symmetry; apply Z.ltb_lt; simpl; lia).
  reflexivity.
Qed.

Lemma List_get_last {A} (l : list A) (x : A) : EE.List_get (l ++ [x]) (-1) = Some x.
Proof.
  unfold EE.List_get, EE.List_pos. rewrite length_app. simpl length.
  replace (0 <=? -1) with false by reflexivity. simpl andb.
  replace (- Z.of_nat (length l + 1) <=? -1) with true
    by (symmetry; apply Z.leb_le; lia).
  simpl.
  replace (Z.to_nat (Z.of_nat (length l + 1) + -1)) with (length l) by lia.
  rewrite lookup_app_r by lia. rewrite Nat.sub_diag. reflexivity.
Qed.

Variables (tmin tmax : Z) (obj : list (ImageCollection.Image P)).
Hypothesis Hrange : forall i, In i obj ->
  exists t, ImageCollection.get_num i "system:time_start" = Some t /\ tmin <= t <= tmax.
Hypothesis Hmin : exists i, In i obj /\ ImageCollection.get_num i "system:time_start" = Some tmin.
Hypothesis Hmax : exists i, In i obj /\ ImageCollection.get_num i "system:time_start" = Some tmax.

Lemma sorted_times_first_last :
  let timeList := ImageCollection.aggregate_array (ImageCollection.sort "system:time_start" obj) "system:time_start" in
  EE.List_get timeList 0 = Some tmin /\ EE.List_get timeList (-1) = Some tmax.
Proof.
  intros timeList. subst timeList.
  assert (Hin : forall i, In i (ImageCollection.sort "system:time_start" obj) ->
                exists t, ImageCollection.get_num i "system:time_start" = Some t /\ tmin <= t <= tmax).
  { intros i Hi. apply Hrange. apply (sort_In "system:time_start"). exact Hi. }
  rewrite aggregate_array_timed
    by (intros i Hi; destruct (Hin i Hi) as (t & Ht & _); eauto).
  pose proof (sort_sorted "system:time_start" obj) as Hs.
  destruct Hmin as (imin & Himin & Htmin). destruct Hmax as (imax & Himax & Htmax).
  apply (sort_In "system:time_start") in Himin, Himax.
  split.
  - destruct (ImageCollection.sort "system:time_start" obj) as [|h l] eqn:E; [destruct Himin|].
    simpl List.map. rewrite List_get_first. f_equal.
    pose proof (sorted_head_least "system:time_start" h l Hs imin Himin) as Hle. unfold ImageCollection.key_le in Hle.
    destruct (Hin h) as (th & Hth & Hb); [left; reflexivity|].
    unfold ImageCollection.time_of. rewrite Hth. simpl.
    rewrite Hth, Htmin in Hle. simpl in Hle. apply Z.leb_le in Hle. lia.
  - destruct (ImageCollection.sort "system:time_start" obj) as [|h l] eqn:E using rev_ind;
      [destruct Himax|].
    clear IHl. rewrite List.map_app. simpl List.map. rewrite List_get_last. f_equal.
    pose proof (sorted_last_greatest "system:time_start" l h Hs imax Himax) as Hle. unfold ImageCollection.key_le in Hle.
    destruct (Hin h) as (th & Hth & Hb); [apply in_or_app; right; left; reflexivity|].
    unfold ImageCollection.time_of. rewrite Hth. simpl.
    rewrite Hth, Htmax in Hle. simpl in Hle. apply Z.leb_le in Hle. lia.
Qed.

(** Every bucket of the split is kept, filled with the images of its
    half-open range. *)
Lemma groupInterval_buckets (unit : string) (duration u : Z) :
  ImageCollection.unitMillis unit = Some u -> 0 < duration * u ->
  let d := duration * u in
  ImageCollection.groupInterval unit duration obj
  = Some (List.map
            (fun k => ImageCollection.filterDate
                        (tmin + k * d) (Z.min (tmin + (k + 1) * d) tmax)
                        (ImageCollection.sort "system:time_start" obj))
            (seqZ 0 ((tmax - tmin + d - 1) / d))).
Proof.
  intros Hu Hd d. unfold ImageCollection.groupInterval.
  destruct sorted_times_first_last as [H0 H1].
  rewrite H0. simpl. rewrite H1. simpl.
  unfold ImageCollection.DateRange_split. rewrite Hu. simpl. fold d.
  replace (d <=? 0) with false by (symmetry; apply Z.leb_gt; exact Hd).
  simpl. f_equal. rewrite <- list_fmap_compose. reflexivity.
Qed.

Lemma In_filterDate_sort (a b : Z) (i : ImageCollection.Image P) :
  In i (ImageCollection.filterDate a b (ImageCollection.sort "system:time_start" obj)) <->
  In i obj /\ exists t, ImageCollection.get_num i "system:time_start" = Some t /\ a <= t < b.
Proof.
  unfold ImageCollection.filterDate. rewrite filter_In, (sort_In "system:time_start").
  split; intros [Hi H]; (split; [exact Hi|]).
  - destruct (ImageCollection.get_num i "system:time_start") as [t|]; [|discriminate].
    exists t. apply andb_true_iff in H. rewrite Z.leb_le, Z.ltb_lt in H.
    split; [reflexivity | lia].
  - destruct H as (t & -> & Ht). apply andb_true_iff.
    rewrite Z.leb_le, Z.ltb_lt. lia.
Qed.

End GroupInterval.

(** C5, at two images one second apart grouped by one second: the
    collection spans exactly the duration, and the only bucket is
    [[0 s, 1 s)], which misses the later image.  The range ends at the
    time of the last image and [filterDate] leaves the end of a range
    out, so no bucket can hold all the images. *)
Lemma groupInterval_drops_latest :
  let ic := [ICSamples.timed 0; ICSamples.timed 1000] in
  ImageCollection.aggregate_max ic "system:time_start" = Some 1000 /\
  ImageCollection.aggregate_min ic "system:time_start" = Some 0 /\
  ~ (exists b, ImageCollection.groupInterval "second" 1 ic = Some [b] /\
               forall i, In i ic -> In i b).
Proof.
  intros ic. split; [reflexivity|]. split; [reflexivity|].
  intros (b & Hb & Hall).
  assert (E : ImageCollection.groupInterval "second" 1 ic = Some [[ICSamples.timed 0]])
    by (vm_compute; reflexivity).
  rewrite E in Hb. injection Hb as <-.
  destruct (Hall (ICSamples.timed 1000)) as [H|[]]; [right; left; reflexivity|].
  apply (f_equal (fun i => ImageCollection.get_num i "system:time_start")) in H.
  vm_compute in H. discriminate H.
Qed.

(** The buckets are half-open: over a span of exactly
    [duration] units there is one bucket, [[tmin, tmax)], and over twice
    that span two, [[tmin, tmin + d)] and [[tmin + d, tmax)]; an image is
    in a bucket exactly when its time key is at or after the lower edge
    and before the upper edge, so the images at the latest time key are in
    none; a bucket stays in the list whether or not an image falls in
    it. *)
Theorem groupInterval_span {P} (unit : string) (duration u tmin tmax : Z)
    (obj : list (ImageCollection.Image P)) :
  ImageCollection.unitMillis unit = Some u -> 0 < duration * u ->
  (forall i, In i obj -> exists t,
      ImageCollection.get_num i "system:time_start" = Some t /\ tmin <= t <= tmax) ->
  (exists i, In i obj /\ ImageCollection.get_num i "system:time_start" = Some tmin) ->
  (exists i, In i obj /\ ImageCollection.get_num i "system:time_start" = Some tmax) ->
  let d := duration * u in
  let ic := ImageCollection.sort "system:time_start" obj in
  (tmax - tmin = d ->
   ImageCollection.groupInterval unit duration obj
   = Some [ImageCollection.filterDate tmin tmax ic]) /\
  (tmax - tmin = 2 * d ->
   ImageCollection.groupInterval unit duration obj
   = Some [ImageCollection.filterDate tmin (tmin + d) ic;
           ImageCollection.filterDate (tmin + d) tmax ic]) /\
  (forall a b i,
      In i (ImageCollection.filterDate a b ic) <->
      In i obj /\ exists t,
        ImageCollection.get_num i "system:time_start" = Some t /\ a <= t < b).
Proof.
  intros Hu Hd Hrange Hmin Hmax d ic.
  pose proof (groupInterval_buckets tmin tmax obj Hrange Hmin Hmax unit duration u Hu Hd)
    as Hb. cbv zeta in Hb. fold d in Hb. fold ic in Hb.
  split; [|split].
  - intros Hspan. rewrite Hb.
    replace ((tmax - tmin + d - 1) / d) with 1
      by (apply (Z.div_unique_pos _ d 1 (d - 1)); lia).
    simpl. do 3 f_equal; lia.
  - intros Hspan. rewrite Hb.
    replace ((tmax - tmin + d - 1) / d) with 2
      by (apply (Z.div_unique_pos _ d 2 (d - 1)); lia).
    simpl. f_equal. f_equal; [f_equal; lia|]. do 2 f_equal; lia.
  - intros a b i. apply In_filterDate_sort.
Qed.

Lemma groupInterval_span_witness :
  ImageCollection.groupInterval "second" 1 [ICSamples.timed 2000; ICSamples.timed 0]
  = Some [[ICSamples.timed 0]; []].
Proof.
  destruct (groupInterval_span "second" 1 1000 0 2000
              [ICSamples.timed 2000; ICSamples.timed 0]) as (_ & H2 & _).
  - reflexivity.
  - lia.
  - intros i [<-|[<-|[]]]; [exists 2000 | exists 0]; (split; [reflexivity | lia]).
  - exists (ICSamples.timed 0). split; [right; left|]; reflexivity.
  - exists (ICSamples.timed 2000). split; [left|]; reflexivity.
  - rewrite H2 by lia. vm_compute. reflexivity.
Defined.

(** ** ImageCollection.integral *)

Section Integral.
Variables (band time : string) (u : R).

Lemma select_sample (i : ImageCollection.Image (option R)) (t : Z) (x : R) :
  ImageCollection.sample band time i = Some (t, x) ->
  ImageCollection.select [band] i
  = Some (ImageCollection.mkImage [(band, Some x)] (ImageCollection.props i))
  /\ ImageCollection.get_num i time = Some t.
Proof.
  unfold ImageCollection.sample, ImageCollection.select. intros H. simpl.
  destruct (ImageCollection.get_num i time) as [t'|]; [|discriminate].
  simpl in H.
  destruct (ImageCollection.lookup_band band i) as [[x'|]|]; try discriminate.
  simpl in H. injection H as -> ->. split; reflexivity.
Qed.

(** One step of the iteration adds one trapezoid. *)
Lemma computeIntegral_step n a ps m v pl t (i : ImageCollection.Image (option R)) t' x :
  ImageCollection.get_num (ImageCollection.mkImage [(m, Some v)] pl) time = Some t ->
  ImageCollection.sample band time i = Some (t', x) ->
  ImageCollection.computeIntegral band time u i
    (ImageCollection.mkIntegral
       (ImageCollection.mkImage [(n, Some a)] ps)
       (ImageCollection.mkImage [(m, Some v)] pl))
  = Some (ImageCollection.mkIntegral
            (ImageCollection.mkImage
               [(n, Some (a + (v + x) * ((IZR t' - IZR t) / u) / 2)%R)] ∅)
            (ImageCollection.mkImage [(band, Some x)] (ImageCollection.props i))).
Proof.
  intros Ht Hs. destruct (select_sample i t' x Hs) as [Hsel Hti].
  unfold ImageCollection.computeIntegral. rewrite Hsel. simpl.
  rewrite Ht. simpl.
  replace (ImageCollection.get_num
             (ImageCollection.mkImage [(band, Some x)] (ImageCollection.props i)) time)
    with (Some t') by (symmetry; exact Hti).
  reflexivity.
Qed.

Lemma iterate_trapezoids (ic : list (ImageCollection.Image (option R))) (pts : list (Z * R)) :
  Forall2 (fun i q => ImageCollection.sample band time i = Some q) ic pts ->
  forall n a ps m v pl t,
    ImageCollection.get_num (ImageCollection.mkImage [(m, Some v)] pl) time = Some t ->
    exists r,
      ImageCollection.iterate (ImageCollection.computeIntegral band time u) ic
        (ImageCollection.mkIntegral
           (ImageCollection.mkImage [(n, Some a)] ps)
           (ImageCollection.mkImage [(m, Some v)] pl)) = Some r /\
      ImageCollection.bands (ImageCollection.sum r)
      = [(n, Some (a + ImageCollection.trapezoids u (t, v) pts)%R)].
Proof.
  unfold ImageCollection.iterate.
  induction 1 as [|i [t' x] ic pts Hs _ IH]; intros n a ps m v pl t Ht.
  - eexists. split; [reflexivity|]. simpl. do 3 f_equal. lra.
  - simpl foldl. rewrite (computeIntegral_step n a ps m v pl t i t' x Ht Hs).
    destruct (select_sample i t' x Hs) as [_ Hti].
    destruct (IH n (a + (v + x) * ((IZR t' - IZR t) / u) / 2)%R ∅ band x
                 (ImageCollection.props i) t' Hti) as (r & Hr & Hb).
    exists r. split; [exact Hr|]. rewrite Hb. simpl. do 3 f_equal.
    unfold Rdiv. ring.
Qed.

End Integral.

(** C6.  On a collection that has images, [integral] starts from the
    zero image with the properties of the first image and returns the
    trapezoidal sum of the samples, in the order of the collection, each
    step adding [(prev + curr) / 2 * (dt / unitInterval)], where
    [unitInterval] is the millisecond constant of the unit or, for the
    empty unit, the time span of the collection. *)
Theorem integral_trapezoidal (band time unit : string)
    (first : ImageCollection.Image (option R))
    (rest : list (ImageCollection.Image (option R)))
    (p0 : Z * R) (pts : list (Z * R)) (u : R) :
  let ic := first :: rest in
  Forall2 (fun i q => ImageCollection.sample band time i = Some q) ic (p0 :: pts) ->
  ImageCollection.intervals unit (ImageCollection.aggregate_min ic time)
                            (ImageCollection.aggregate_max ic time) = Some u ->
  ImageCollection.integral_start ic
  = Some (ImageCollection.mkIntegral
            (ImageCollection.mkImage [("integral"%string, Some 0%R)]
                                     (ImageCollection.props first))
            (ImageCollection.mkImage [("constant"%string, Some 0%R)]
                                     (ImageCollection.props first))) /\
  (exists img,
      ImageCollection.integral band time unit ic = Some img /\
      ImageCollection.bands img
      = [("integral"%string, Some (ImageCollection.trapezoids u p0 pts))]) /\
  (unit = "year"%string -> u = IZR (1000 * 60 * 60 * 24 * 365)) /\
  (unit = "month"%string -> u = IZR (1000 * 60 * 60 * 24 * 30)) /\
  (unit = "day"%string -> u = IZR (1000 * 60 * 60 * 24)) /\
  (unit = "hour"%string -> u = IZR (1000 * 60 * 60)) /\
  (unit = "minute"%string -> u = IZR (1000 * 60)) /\
  (unit = "second"%string -> u = IZR 1000) /\
  (unit = ""%string -> exists lo hi,
      ImageCollection.aggregate_min ic time = Some lo /\
      ImageCollection.aggregate_max ic time = Some hi /\
      u = (IZR hi - IZR lo)%R).
Proof.
  intros ic Hpts Hu.
  assert (Hstart : ImageCollection.integral_start ic
    = Some (ImageCollection.mkIntegral
              (ImageCollection.mkImage [("integral"%string, Some 0%R)]
                                       (ImageCollection.props first))
              (ImageCollection.mkImage [("constant"%string, Some 0%R)]
                                       (ImageCollection.props first)))).
  { unfold ImageCollection.integral_start, ImageCollection.copyProperties. simpl.
    unfold ImageCollection.rename. simpl.
    rewrite (right_id_L ∅ (∪)). reflexivity. }
  split; [exact Hstart|]. split.
  - unfold ImageCollection.integral. rewrite Hu, Hstart.
    cbn [mbind option_bind]. destruct p0 as [t0 v0].
    assert (Ht0 : ImageCollection.get_num
                    (ImageCollection.mkImage [("constant"%string, Some 0%R)]
                                             (ImageCollection.props first)) time
                  = Some t0).
    { inversion Hpts as [|? ? ? ? Hs _]; subst.
      destruct (select_sample band time first t0 v0 Hs) as [_ H]. exact H. }
    destruct (iterate_trapezoids band time u ic ((t0, v0) :: pts) Hpts
                "integral"%string 0%R (ImageCollection.props first)
                "constant"%string 0%R (ImageCollection.props first) t0 Ht0)
      as (r & Hr & Hb).
    rewrite Hr. simpl. exists (ImageCollection.sum r). split; [reflexivity|].
    rewrite Hb. simpl. do 3 f_equal. unfold Rdiv. ring.
  - unfold ImageCollection.intervals in Hu.
    repeat split; intros ->; simpl in Hu; try (injection Hu as <-; reflexivity).
    destruct (ImageCollection.aggregate_max ic time) as [hi|]; [|discriminate].
    destruct (ImageCollection.aggregate_min ic time) as [lo|]; [|discriminate].
    simpl in Hu. injection Hu as <-. exists lo, hi. repeat split.
Qed.

Lemma integral_trapezoidal_witness :
  exists img,
    ImageCollection.integral "B1" "system:time_start" "second"
      [ICSamples.pix 0 1; ICSamples.pix 1000 3; ICSamples.pix 3000 5] = Some img /\
    ImageCollection.bands img
    = [("integral"%string,
        Some (ImageCollection.trapezoids (IZR 1000) (0, 1%R) [(1000, 3%R); (3000, 5%R)]))].
Proof.
  destruct (integral_trapezoidal "B1" "system:time_start" "second"
              (ICSamples.pix 0 1) [ICSamples.pix 1000 3; ICSamples.pix 3000 5]
              (0, 1%R) [(1000, 3%R); (3000, 5%R)] (IZR 1000))
    as (_ & H & _).
  - repeat constructor.
  - reflexivity.
  - exact H.
Defined.

(** ** Images at one pixel: selection and band-wise operators *)

Lemma mapM_fmap_Some {A B} (f : A -> option B) (g : A -> B) (l : list A) :
  (forall x, In x l -> f x = Some (g x)) -> mapM f l = Some (g <$> l).
Proof.
  induction l as [|x l IH]; intros H; [reflexivity|].
  simpl. rewrite (H x) by (left; reflexivity). simpl.
  rewrite IH by (intros y Hy; apply H; right; exact Hy). reflexivity.
Qed.

Lemma find_fmap_key {P} (v : string -> P) (names : list string) (n : string) :
  In n names ->
  List.find (fun b : string * P => String.eqb b.1 n) ((fun m => (m, v m)) <$> names)
  = Some (n, v n).
Proof.
  induction names as [|m names IH]; intros H; [destruct H|].
  simpl. destruct (String.eqb m n) eqn:E.
  - apply String.eqb_eq in E. subst m. reflexivity.
  - destruct H as [->|H]; [rewrite String.eqb_refl in E; discriminate|].
    apply IH. exact H.
Qed.

Section Pixel.
Import ImageCollection.
Local Open Scope R_scope.

Lemma select_present (names : list string) (i : Image (option R)) :
  (forall n, In n names -> is_Some (lookup_band n i)) ->
  select names i = Some (bandwise names (fun n => n) (pixel i) (props i)).
Proof.
  intros H. unfold select, bandwise.
  rewrite (mapM_fmap_Some _ (fun n => (n, pixel i n))); [reflexivity|].
  intros n Hn. destruct (H n Hn) as [v Hv]. unfold pixel. rewrite Hv. reflexivity.
Qed.

Lemma lookup_band_selected (names : list string) (i : Image (option R)) ps n :
  In n names ->
  lookup_band n (bandwise names (fun m => m) (pixel i) ps) = Some (pixel i n).
Proof.
  intros H. unfold lookup_band, bandwise. simpl.
  rewrite (find_fmap_key (pixel i) names n H). reflexivity.
Qed.

Lemma band_stack_selected (names : list string) (ic : list (Image (option R))) n :
  In n names ->
  (forall i m, In i ic -> In m names -> is_Some (lookup_band m i)) ->
  band_stack n ((fun i => bandwise names (fun m => m) (pixel i) (props i)) <$> ic)
  = band_stack n ic.
Proof.
  intros Hn H. unfold band_stack.
  induction ic as [|i ic IH]; [reflexivity|].
  simpl. rewrite lookup_band_selected by exact Hn.
  destruct (H i n) as [v Hv]; [left; reflexivity | exact Hn |].
  unfold pixel at 1. rewrite Hv. simpl. f_equal.
  apply IH. intros j m Hj Hm. apply H; [right; exact Hj | exact Hm].
Qed.

Lemma bandNames_bandwise {A} (l : list A) g x ps :
  bandNames (bandwise l g x ps) = g <$> l.
Proof.
  unfold bandNames, bandwise. simpl. rewrite <- list_fmap_compose. reflexivity.
Qed.

Lemma bandwise_ext {A} (l : list A) g x y ps :
  (forall n, In n l -> x n = y n) -> bandwise l g x ps = bandwise l g y ps.
Proof.
  intros H. unfold bandwise. f_equal.
  induction l as [|a l IH]; [reflexivity|]. simpl.
  rewrite (H a) by (left; reflexivity). f_equal.
  apply IH. intros n Hn. apply H. right. exact Hn.
Qed.

(** Two images with the same bands are combined band by band. *)
Lemma binop_bandwise f {A} (l : list A) g h x y ps qs :
  binop f (bandwise l g x ps) (bandwise l h y qs)
  = bandwise l g (fun n => f (x n) (y n)) ∅.
Proof.
  unfold binop, bandwise. simpl. f_equal.
  destruct l as [|a [|b l]]; try reflexivity.
  simpl. do 2 f_equal.
  induction l as [|c l IH]; [reflexivity|]. simpl. f_equal. exact IH.
Qed.

Lemma binop_bandwise_constant f {A} (l : list A) g x ps k :
  binop f (bandwise l g x ps) (constant k)
  = bandwise l g (fun n => f (x n) (Some k)) ∅.
Proof.
  unfold binop, bandwise, constant. simpl. f_equal.
  destruct l as [|a [|b l]]; try reflexivity.
  simpl. do 2 f_equal. rewrite <- list_fmap_compose. reflexivity.
Qed.

Lemma rename_bandwise {A} (l : list A) g h x ps :
  rename (h <$> l) (bandwise l g x ps) = Some (bandwise l h x ps).
Proof.
  unfold rename, bandwise. simpl. rewrite !length_fmap, Nat.eqb_refl.
  do 2 f_equal.
  induction l as [|a l IH]; [reflexivity|]. simpl. f_equal. exact IH.
Qed.

Lemma image_eta (i : Image (option R)) : i = mkImage (bands i) (props i).
Proof. destruct i; reflexivity. Qed.

End Pixel.

(** ** ImageCollection.outliers *)

Section Outliers.
Import ImageCollection.
Variables (names : list string) (sigma : R).
Variables (first0 : Image (option R)) (rest : list (Image (option R))).
Hypothesis Hnames : names <> [].
Hypothesis Hpresent :
  forall i n, In i (first0 :: rest) -> In n names -> is_Some (lookup_band n i).

Lemma reduce_selected (red : list (option R) -> option R) (name : string -> string) :
  reduce red name
    ((fun i => bandwise names (fun m => m) (pixel i) (props i)) <$> (first0 :: rest))
  = bandwise names name (fun n => red (band_stack n (first0 :: rest))) ∅.
Proof.
  set (sel := fun i : Image (option R) =>
                bandwise names (fun m => m) (pixel i) (props i)).
  change (sel <$> (first0 :: rest)) with (sel first0 :: (sel <$> rest)).
  unfold reduce.
  replace (bandNames (sel first0)) with names
    by (unfold sel; rewrite bandNames_bandwise, list_fmap_id; reflexivity).
  change (sel first0 :: (sel <$> rest)) with (sel <$> (first0 :: rest)).
  change (bandwise names name (fun n => red (band_stack n (sel <$> (first0 :: rest)))) ∅
          = bandwise names name (fun n => red (band_stack n (first0 :: rest))) ∅).
  apply bandwise_ext. intros n Hn. f_equal.
  apply band_stack_selected; [exact Hn | exact Hpresent].
Qed.

Lemma computeOutlierBands_selected (i : Image (option R)) :
  In i (first0 :: rest) ->
  let statCollection :=
    (fun i => bandwise names (fun m => m) (pixel i) (props i)) <$> (first0 :: rest) in
  let stdDev := reduce Reducer_stdDev (suffix "stdDev") statCollection in
  computeOutlierBands names ((fun b => (b +:+ "_outlier")%string) <$> names)
    (subtract (mean statCollection) (multiply stdDev (constant sigma)))
    (add (mean statCollection) (multiply stdDev (constant sigma))) i
  = Some (mkImage
            (bands i ++
             ((fun n => ((n +:+ "_outlier")%string,
                         outlier_flag sigma (band_stack n (first0 :: rest)) (pixel i n)))
                <$> names))
            (props i)).
Proof.
  intros Hi statCollection stdDev. subst statCollection stdDev.
  unfold mean. rewrite !reduce_selected.
  unfold computeOutlierBands.
  rewrite select_present by (intros n Hn; apply Hpresent; assumption).
  cbn [mbind option_bind].
  unfold subtract, add, multiply, gt, lt, Or.
  rewrite !binop_bandwise_constant, !binop_bandwise.
  rewrite rename_bandwise. reflexivity.
Qed.

(** Without [drop], every image keeps its bands and gets one more band
    per evaluated band, holding the outlier flag of the pixel. *)
Lemma outliers_appends_flags :
  outliers names sigma false (first0 :: rest)
  = Some ((fun i =>
             mkImage
               (bands i ++
                ((fun n => ((n +:+ "_outlier")%string,
                            outlier_flag sigma (band_stack n (first0 :: rest)) (pixel i n)))
                   <$> names))
               (props i)) <$> (first0 :: rest)).
Proof.
  unfold outliers. cbn [first head mbind option_bind].
  replace (match names with [] => bandNames first0 | _ :: _ => names end)
    with names by (destruct names; [contradiction | reflexivity]).
  rewrite (mapM_fmap_Some _ (fun i => bandwise names (fun m => m) (pixel i) (props i)))
    by (intros i Hi; apply select_present; intros n Hn; apply Hpresent; assumption).
  cbn [mbind option_bind].
  rewrite (mapM_fmap_Some _
    (fun i => mkImage
       (bands i ++
        ((fun n => ((n +:+ "_outlier")%string,
                    outlier_flag sigma (band_stack n (first0 :: rest)) (pixel i n)))
           <$> names))
       (props i))).
  - reflexivity.
  - intros i Hi. apply computeOutlierBands_selected. exact Hi.
Qed.

End Outliers.

Section OutlierFlag.
Import ImageCollection.
Local Open Scope R_scope.

Lemma valid_In (stack : list (option R)) (v : R) :
  In (Some v) stack -> In v (valid stack).
Proof.
  unfold valid. induction stack as [|[x|] stack IH]; simpl; intros H.
  - exact H.
  - destruct H as [H|H]; [left; congruence | right; apply IH; exact H].
  - destruct H as [H|H]; [discriminate | apply IH; exact H].
Qed.

Lemma stats_defined (stack : list (option R)) (v : R) :
  In (Some v) stack ->
  exists m s, Reducer_mean stack = Some m /\ Reducer_stdDev stack = Some s.
Proof.
  intros H. apply valid_In in H. unfold Reducer_mean, Reducer_stdDev.
  destruct (valid stack) as [|x xs]; [destruct H|]. eauto.
Qed.

(** The flag the code computes is 1 exactly on the outliers of the
    specification, and 0 elsewhere. *)
Lemma outlier_flag_spec (sigma : R) (stack : list (option R)) (v : R) :
  In (Some v) stack ->
  exists f, outlier_flag sigma stack (Some v) = Some f /\
            (f = 1 \/ f = 0) /\
            (f = 1 <-> is_outlier sigma stack v).
Proof.
  intros H. destruct (stats_defined stack v H) as (m & s & Hm & Hs).
  unfold outlier_flag, is_outlier. rewrite Hm, Hs. simpl.
  eexists. split; [reflexivity|].
  assert (Hc : sigma * s = s * sigma) by ring.
  destruct (Rgt_dec v (m + s * sigma)) as [Hgt|Hgt];
    destruct (Rlt_dec v (m - s * sigma)) as [Hlt|Hlt];
    repeat match goal with
           | |- context [Req_dec_T ?a ?b] =>
             destruct (Req_dec_T a b); try (exfalso; lra)
           end.
  all: split; [(left; reflexivity) || (right; reflexivity)|].
  all: split;
    [ intros Hf; try (exfalso; lra);
      exists m, s; repeat split; rewrite Hc; tauto
    | intros (m' & s' & Em & Es & Hcond);
      injection Em as <-; injection Es as <-; rewrite Hc in Hcond;
      try reflexivity; exfalso; tauto ].
Qed.

Lemma pixel_in_stack (ic : list (Image (option R))) i n v :
  In i ic -> pixel i n = Some v -> In (Some v) (band_stack n ic).
Proof.
  intros Hi Hv. unfold band_stack. apply list_elem_of_In, list_elem_of_omap.
  exists i. split; [apply list_elem_of_In; exact Hi|].
  unfold pixel in Hv. destruct (lookup_band n i) as [o|]; simpl in Hv; congruence.
Qed.

(** Mean and standard deviation of the values 1, 5, 6, 4, 7, 10. *)
Lemma series_stats (m s : R) :
  Reducer_mean (band_stack "B1" ICSamples.series) = Some m ->
  Reducer_stdDev (band_stack "B1" ICSamples.series) = Some s ->
  m = 11 / 2 /\ 27 / 10 < s < 28 / 10.
Proof.
  intros Hm Hs.
  assert (Em : mean_of [1; 5; 6; 4; 7; 10] = 11 / 2).
  { unfold mean_of, total. simpl. lra. }
  unfold Reducer_mean, Reducer_stdDev, band_stack in Hm, Hs.
  simpl in Hm, Hs. rewrite Em in Hm, Hs. injection Hm as <-. injection Hs as <-.
  split; [reflexivity|].
  match goal with |- _ < R_sqrt.sqrt ?q < _ => assert (Eq : q = 91 / 12) end.
  { unfold mean_of, total. simpl. lra. }
  rewrite Eq.
  rewrite <- (sqrt_square (27 / 10)) at 1 by lra.
  rewrite <- (sqrt_square (28 / 10)) at 1 by lra.
  split; apply sqrt_lt_1_alt; lra.
Qed.

End OutlierFlag.

Section OutlierSeries.
Import ImageCollection.
Local Open Scope R_scope.

Lemma series_present i n :
  In i ICSamples.series -> In n ["B1"%string] -> is_Some (lookup_band n i).
Proof.
  intros Hi [<-|[]]. unfold ICSamples.series in Hi. simpl in Hi.
  repeat (destruct Hi as [<-|Hi]; [eexists; reflexivity|]). destruct Hi.
Qed.

Lemma series_sigma2 (v : R) :
  1 <= v <= 10 -> ~ is_outlier 2 (band_stack "B1" ICSamples.series) v.
Proof.
  intros Hv (m & s & Hm & Hs & Hc).
  destruct (series_stats m s Hm Hs) as [-> Hb]. lra.
Qed.

Lemma series_sigma1 (v : R) :
  In v [1; 5; 6; 4; 7; 10] ->
  is_outlier 1 (band_stack "B1" ICSamples.series) v <-> v = 1 \/ v = 10.
Proof.
  intros Hv.
  destruct (stats_defined (band_stack "B1" ICSamples.series) 1) as (m & s & Hm & Hs);
    [left; reflexivity|].
  destruct (series_stats m s Hm Hs) as [Em Hb].
  split.
  - intros (m' & s' & Hm' & Hs' & Hc).
    rewrite Hm in Hm'. rewrite Hs in Hs'. injection Hm' as <-. injection Hs' as <-.
    simpl in Hv. repeat (destruct Hv as [<-|Hv]; [lra|]). destruct Hv.
  - intros Hc. exists m, s. repeat split; [exact Hm | exact Hs |]. lra.
Qed.

(** C3, as stated, fails on its own example: with [sigma = 2] the value
    1 of the sequence 1, 5, 6, 4, 7, 10 gets the flag 0. *)
Lemma outliers_sigma2_keeps_1 :
  exists out o f,
    outliers ["B1"%string] 2 false ICSamples.series = Some out /\
    out !! 0%nat = Some o /\
    bands o = [("B1"%string, Some 1); ("B1_outlier"%string, Some f)] /\
    f = 0 /\ f <> 1.
Proof.
  pose proof (outliers_appends_flags ["B1"%string] 2 (ICSamples.pix 0 1)
                [ICSamples.pix 1 5; ICSamples.pix 2 6; ICSamples.pix 3 4;
                 ICSamples.pix 4 7; ICSamples.pix 5 10]) as H.
  fold ICSamples.series in H.
  specialize (H ltac:(discriminate) series_present).
  destruct (outlier_flag_spec 2 (band_stack "B1" ICSamples.series) 1)
    as (f & Hf & H01 & Hiff); [left; reflexivity|].
  assert (Ef : f = 0).
  { destruct H01 as [E|E]; [|exact E].
    exfalso. apply (series_sigma2 1); [lra|]. apply Hiff. exact E. }
  eexists _, _, f. split; [exact H|]. split; [reflexivity|]. split.
  - change ([("B1"%string, Some 1);
             ("B1_outlier"%string,
              outlier_flag 2 (band_stack "B1" ICSamples.series) (Some 1))]
            = [("B1"%string, Some 1); ("B1_outlier"%string, Some f)]).
    rewrite Hf. reflexivity.
  - split; [exact Ef | lra].
Qed.

End OutlierSeries.

(** C3, amended.  Without [drop], on distinct selected bands whose
    names with the suffix [_outlier] are free in every image (the engine
    renames an added band whose name is taken), [outliers(bands, sigma)]
    appends to every image one band per selected band, named with the
    suffix [_outlier]; at a valid pixel it holds 1 exactly when the value is
    above [mean + sigma * stddev] or below [mean - sigma * stddev], and 0
    otherwise, the mean and the population standard deviation being
    those of the pixel across the collection.  On the sequence 1, 5, 6,
    4, 7, 10, [sigma = 2] flags no value; [sigma = 1] flags exactly 1
    and 10. *)
Theorem outliers_spec (names : list string) (sigma : R)
    (first0 : ImageCollection.Image (option R))
    (rest : list (ImageCollection.Image (option R))) :
  let obj := first0 :: rest in
  names <> [] ->
  NoDup names ->
  (forall i n, In i obj -> In n names -> is_Some (ImageCollection.lookup_band n i)) ->
  (forall i n, In i obj -> In n names ->
               (n +:+ "_outlier")%string ∉ ImageCollection.bandNames i) ->
  ImageCollection.outliers names sigma false obj
  = Some ((fun i =>
             ImageCollection.mkImage
               (ImageCollection.bands i ++
                ((fun n => ((n +:+ "_outlier")%string,
                            ImageCollection.outlier_flag sigma
                              (ImageCollection.band_stack n obj)
                              (ImageCollection.pixel i n)))
                   <$> names))
               (ImageCollection.props i)) <$> obj) /\
  (forall i n v, In i obj -> In n names -> ImageCollection.pixel i n = Some v ->
     exists f,
       ImageCollection.outlier_flag sigma (ImageCollection.band_stack n obj)
                                    (ImageCollection.pixel i n) = Some f /\
       (f = 1 \/ f = 0)%R /\
       (f = 1%R <->
        ImageCollection.is_outlier sigma (ImageCollection.band_stack n obj) v)) /\
  (forall v, In v [1; 5; 6; 4; 7; 10]%R ->
     ~ ImageCollection.is_outlier 2
         (ImageCollection.band_stack "B1" ICSamples.series) v) /\
  (forall v, In v [1; 5; 6; 4; 7; 10]%R ->
     ImageCollection.is_outlier 1
       (ImageCollection.band_stack "B1" ICSamples.series) v <->
     v = 1%R \/ v = 10%R).
Proof.
  intros obj Hnames Hnd Hpresent Hfresh. split; [|split; [|split]].
  - apply outliers_appends_flags; assumption.
  - intros i n v Hi Hn Hv. rewrite Hv.
    apply outlier_flag_spec. eapply pixel_in_stack; eassumption.
  - intros v Hv. apply series_sigma2.
    simpl in Hv. repeat (destruct Hv as [<-|Hv]; [lra|]). destruct Hv.
  - intros v Hv. apply series_sigma1. exact Hv.
Qed.

Lemma outliers_spec_witness :
  exists out,
    ImageCollection.outliers ["B1"%string] 1 false ICSamples.series = Some out /\
    length out = 6%nat.
Proof.
  destruct (outliers_spec ["B1"%string] 1 (ICSamples.pix 0 1)
              [ICSamples.pix 1 5; ICSamples.pix 2 6; ICSamples.pix 3 4;
               ICSamples.pix 4 7; ICSamples.pix 5 10]) as (H & _).
  - discriminate.
  - apply (bool_decide_unpack _). vm_compute. exact I.
  - apply series_present.
  - intros i n Hi [<-|[]] Hin. simpl in Hi.
    repeat (destruct Hi as [<-|Hi];
            [apply list_elem_of_singleton in Hin; discriminate Hin|]).
    destruct Hi.
  - eexists. split; [exact H | reflexivity].
Defined.

(** ** ImageCollection.medoid *)

Section Medoid.
Import ImageCollection.
Local Open Scope R_scope.

Lemma distance_abs (a b : R) : R_sqrt.sqrt ((a - b) ^ 2 + 0) = Rabs (a - b).
Proof. rewrite Rplus_0_r, <- Rsqr_pow2. apply sqrt_Rsqr_abs. Qed.

Lemma triple_minMax :
  reduce_minMax ICSamples.triple
  = mkImage [("B1_min"%string, Some 0); ("B1_max"%string, Some 10)] ∅.
Proof.
  change (mkImage [("B1_min"%string, Some (Rmin 1 (Rmin 10 0)));
                   ("B1_max"%string, Some (Rmax 1 (Rmax 10 0)))] ∅
          = mkImage [("B1_min"%string, Some 0); ("B1_max"%string, Some 10)] ∅).
  replace (Rmin 1 (Rmin 10 0)) with 0
    by (rewrite (Rmin_right 10 0) by lra; rewrite Rmin_right by lra; reflexivity).
  replace (Rmax 1 (Rmax 10 0)) with 10
    by (rewrite (Rmax_left 10 0) by lra; rewrite Rmax_right by lra; reflexivity).
  reflexivity.
Qed.

Lemma triple_normalized :
  mapM (normalizeBands ["B1"%string] (reduce_minMax ICSamples.triple)) ICSamples.triple
  = Some [ICSamples.norm1 0; ICSamples.norm1 (1 / 10); ICSamples.norm1 1].
Proof.
  rewrite triple_minMax.
  change (Some [ICSamples.norm1 ((0 - 0) / (10 - 0));
                ICSamples.norm1 ((1 - 0) / (10 - 0));
                ICSamples.norm1 ((10 - 0) / (10 - 0))]
          = Some [ICSamples.norm1 0; ICSamples.norm1 (1 / 10); ICSamples.norm1 1]).
  replace ((0 - 0) / (10 - 0)) with 0 by lra.
  replace ((1 - 0) / (10 - 0)) with (1 / 10) by lra.
  replace ((10 - 0) / (10 - 0)) with 1 by lra.
  reflexivity.
Qed.

Lemma triple_scored :
  let normalized := [ICSamples.norm1 0; ICSamples.norm1 (1 / 10); ICSamples.norm1 1] in
  mapM (computeSumDistance ICSamples.drawn normalized) normalized
  = Some [ICSamples.scored 0 (11 / 10); ICSamples.scored (1 / 10) 1;
          ICSamples.scored 1 (19 / 10)].
Proof.
  intros normalized. subst normalized.
  set (d := fun a b : R => R_sqrt.sqrt ((a - b) ^ 2 + 0)).
  change (Some [ICSamples.scored 0 (d 0 0 + (d 0 (1 / 10) + (d 0 1 + 0)));
                ICSamples.scored (1 / 10)
                  (d (1 / 10) 0 + (d (1 / 10) (1 / 10) + (d (1 / 10) 1 + 0)));
                ICSamples.scored 1 (d 1 0 + (d 1 (1 / 10) + (d 1 1 + 0)))]
          = Some [ICSamples.scored 0 (11 / 10); ICSamples.scored (1 / 10) 1;
                  ICSamples.scored 1 (19 / 10)]).
  assert (Hd : forall a b, d a b = Rabs (a - b)) by (intros; apply distance_abs).
  rewrite !Hd.
  replace (Rabs (0 - 0)) with 0 by (rewrite Rabs_right; lra).
  replace (Rabs (0 - 1 / 10)) with (1 / 10) by (rewrite Rabs_left; lra).
  replace (Rabs (0 - 1)) with 1 by (rewrite Rabs_left; lra).
  replace (Rabs (1 / 10 - 0)) with (1 / 10) by (rewrite Rabs_right; lra).
  replace (Rabs (1 / 10 - 1 / 10)) with 0 by (rewrite Rabs_right; lra).
  replace (Rabs (1 / 10 - 1)) with (9 / 10) by (rewrite Rabs_left; lra).
  replace (Rabs (1 - 0)) with 1 by (rewrite Rabs_right; lra).
  replace (Rabs (1 - 1 / 10)) with (9 / 10) by (rewrite Rabs_right; lra).
  replace (Rabs (1 - 1)) with 0 by (rewrite Rabs_right; lra).
  replace (0 + (1 / 10 + (1 + 0))) with (11 / 10) by lra.
  replace (1 / 10 + (0 + (9 / 10 + 0))) with 1 by lra.
  replace (1 + (9 / 10 + (0 + 0))) with (19 / 10) by lra.
  reflexivity.
Qed.

(** The quality mosaic keeps the image with the greatest sum. *)
Lemma triple_mosaic :
  qualityMosaic ICSamples.drawn
    [ICSamples.scored 0 (11 / 10); ICSamples.scored (1 / 10) 1;
     ICSamples.scored 1 (19 / 10)]
  = ICSamples.scored 1 (19 / 10).
Proof.
  unfold qualityMosaic. simpl foldl. unfold better at 3.
  change (quality ICSamples.drawn (ICSamples.scored 0 (11 / 10))) with (Some (11 / 10)).
  unfold better at 2.
  change (quality ICSamples.drawn (ICSamples.scored (1 / 10) 1)) with (Some 1).
  cbv iota beta.
  destruct (Rlt_dec (11 / 10) 1) as [H|_]; [exfalso; lra|].
  unfold better.
  change (quality ICSamples.drawn (ICSamples.scored 1 (19 / 10))) with (Some (19 / 10)).
  cbv iota beta.
  destruct (Rlt_dec (11 / 10) (19 / 10)) as [_|H]; [|exfalso; lra].
  reflexivity.
Qed.

End Medoid.

(** C1, on three images whose pixel holds 0, 1 and 10.  Normalized, the
    values are 0, 1/10 and 1, and the sums of distances 11/10, 1 and
    19/10.  The medoid is the second image, the code returns the third:
    the quality mosaic is keyed on the sum itself, which it maximizes.
    The band names are the original ones. *)
Theorem medoid_returns_greatest_sum :
  mapM (ImageCollection.normalizeBands ["B1"%string]
          (ImageCollection.reduce_minMax ICSamples.triple)) ICSamples.triple
  = Some [ICSamples.norm1 0; ICSamples.norm1 (1 / 10); ICSamples.norm1 1] /\
  mapM (ImageCollection.computeSumDistance ICSamples.drawn
          [ICSamples.norm1 0; ICSamples.norm1 (1 / 10); ICSamples.norm1 1])
       [ICSamples.norm1 0; ICSamples.norm1 (1 / 10); ICSamples.norm1 1]
  = Some [ICSamples.scored 0 (11 / 10); ICSamples.scored (1 / 10) 1;
          ICSamples.scored 1 (19 / 10)] /\
  ImageCollection.medoid ICSamples.drawn ICSamples.triple = Some (ICSamples.norm1 1) /\
  ImageCollection.medoid ICSamples.drawn ICSamples.triple
  <> Some (ICSamples.norm1 (1 / 10)).
Proof.
  assert (Hm : ImageCollection.medoid ICSamples.drawn ICSamples.triple
               = Some (ICSamples.norm1 1)).
  { unfold ImageCollection.medoid.
    change (ImageCollection.first ICSamples.triple) with (Some (ICSamples.pix 0 0)).
    cbn [mbind option_bind].
    change (ImageCollection.bandNames (ICSamples.pix 0 0)) with ["B1"%string].
    cbv zeta. rewrite triple_normalized. cbn [mbind option_bind].
    rewrite triple_scored. cbn [mbind option_bind].
    rewrite triple_mosaic. reflexivity. }
  split; [exact triple_normalized|]. split; [exact triple_scored|].
  split; [exact Hm|].
  rewrite Hm. intros H. injection H as H. lra.
Qed.

(** On every collection the mosaic keeps a greatest value of the quality
    band: no image has a greater one than the image kept. *)
Lemma better_increases (name : string) (ic : list (ImageCollection.Image (option R)))
    (qb q : R) (ib i : ImageCollection.Image (option R)) :
  foldl (ImageCollection.better name) (Some (qb, ib)) ic = Some (q, i) ->
  (qb <= q)%R.
Proof.
  revert qb ib. induction ic as [|j ic IH]; intros qb ib H; simpl in H.
  - injection H as <- _. lra.
  - unfold ImageCollection.better at 2 in H.
    destruct (ImageCollection.quality name j) as [qj|]; [|eapply IH; exact H].
    destruct (Rlt_dec qb qj) as [Hlt|Hge].
    + apply IH in H. lra.
    + eapply IH; exact H.
Qed.

Lemma qualityMosaic_greatest (name : string)
    (ic : list (ImageCollection.Image (option R)))
    (best : option (R * ImageCollection.Image (option R)))
    (q : R) (i : ImageCollection.Image (option R)) :
  foldl (ImageCollection.better name) best ic = Some (q, i) ->
  forall j qj, In j ic -> ImageCollection.quality name j = Some qj -> (qj <= q)%R.
Proof.
  revert best. induction ic as [|k ic IH]; intros best H j qj Hj Hq; [destruct Hj|].
  simpl in H. destruct Hj as [->|Hj]; [|eapply IH; eassumption].
  unfold ImageCollection.better at 2 in H. rewrite Hq in H.
  destruct best as [[qb ib]|].
  - destruct (Rlt_dec qb qj) as [Hlt|Hge]; apply better_increases in H; lra.
  - apply better_increases in H. exact H.
Qed.

(** ** ImageCollection.doyByBands *)

Section DoyByBandsFacts.
Import ImageCollection.
Context {P : Type}.
Variables (getRel : Z -> Z) (timeRed : list P -> P) (timeRedName : string -> string).
Variables (doy_metadata dateProperty : string).

Lemma rename_mismatch (names : list string) (i : Image P) :
  length names <> length (bandNames i) -> rename names i = None.
Proof.
  intros H. unfold rename. unfold bandNames in H. rewrite length_fmap in H.
  destruct (Nat.eqb _ _) eqn:E; [|reflexivity].
  apply Nat.eqb_eq in E. contradiction.
Qed.

End DoyByBandsFacts.

(** With the default arguments the reduction goes through; with one band
    out of two it fails on the renaming; with the two bands in another
    order the labels land on the wrong bands. *)
Example doyByBands_samples :
  let run := ImageCollection.doyByBands ICSamples.day_of_year ICSamples.sumRed
               (ImageCollection.suffix "sum") (fun x : Z => x) "doy"
               "system:time_start" in
  let obj := [ICSamples.scene 0 1 2; ICSamples.scene ICSamples.day_ms 3 4;
              ICSamples.scene (365 * ICSamples.day_ms) 10 20] in
  run [] [] obj
  = Some [("B1"%string, [("0"%string, 11); ("1"%string, 3)]);
          ("B2"%string, [("0"%string, 22); ("1"%string, 4)])] /\
  run ["B1"%string] ["b1"%string] obj = None /\
  run ["B2"%string; "B1"%string] ["b2"%string; "b1"%string] obj
  = Some [("b1"%string, [("0"%string, 22); ("1"%string, 4)]);
          ("b2"%string, [("0"%string, 11); ("1"%string, 3)])].
Proof. repeat split; vm_compute; reflexivity. Qed.

(** ** ImageCollection.reduceRegion *)

Lemma prefix_app (p x : string) : String.prefix p (p +:+ x) = true.
Proof.
  induction p as [|c p IH]; simpl; [destruct x; reflexivity|].
  destruct (Ascii.ascii_dec c c) as [_|H]; [exact IH | contradiction].
Qed.

Lemma String_drop_app (p x : string) :
  ImageCollection.String_drop (String.length p) (p +:+ x) = x.
Proof. induction p as [|c p IH]; simpl; [reflexivity | exact IH]. Qed.

Lemma String_replace_unfold (p r s : string) :
  ImageCollection.String_replace p r s
  = if String.prefix p s
    then (r +:+ ImageCollection.String_drop (String.length p) s)%string
    else match s with
         | EmptyString => EmptyString
         | String c s' => String c (ImageCollection.String_replace p r s')
         end.
Proof. destruct s; reflexivity. Qed.

(** One synthetic name splits back: without the key and the separator,
    what is left of [<key>_<band>] is the band, whatever characters the
    key and the band are made of. *)
Lemma unstack_stacked_name (key band : string) :
  ImageCollection.stringStartsWith key (key +:+ "_" +:+ band) = true /\
  ImageCollection.String_slice1
    (ImageCollection.String_replace key "" (key +:+ "_" +:+ band)) = band.
Proof.
  split; [apply prefix_app|].
  rewrite String_replace_unfold, prefix_app, String_drop_app. reflexivity.
Qed.

(** The filter of the unstacking half has no separator: the names of a
    longer key pass it too. *)
Lemma startsWith_longer_key (key more band : string) :
  ImageCollection.stringStartsWith key ((key +:+ more) +:+ "_" +:+ band) = true.
Proof.
  unfold ImageCollection.stringStartsWith.
  induction key as [|c key IH]; simpl.
  - match goal with |- String.prefix _ ?s = true => destruct s; reflexivity end.
  - destruct (Ascii.ascii_dec c c) as [_|H]; [exact IH | contradiction].
Qed.

(** C2, on two images of one band whose identifiers are ["tile1"] and
    ["tile10"] (or the numbers 1 and 10): the dictionary under ["tile1"]
    also holds the value of ["tile10"], under the key ["_B1"]. *)
Theorem reduceRegion_prefix_keys
    (Number_format Date_format : string -> Z -> string) :
  ImageCollection.reduceRegion (fun _ => true) ICSamples.firstRed
    (ImageCollection.suffix "first") (fun x : Z => x) Number_format Date_format
    "tile" ImageCollection.ee_String "YYYY-MM-dd'T'HH-mm-ss" "%s"
    [ICSamples.tile "tile1" 5; ICSamples.tile "tile10" 7]
  = Some [("tile1"%string, [("B1"%string, 5); ("_B1"%string, 7)]);
          ("tile10"%string, [("B1"%string, 7)])] /\
  ImageCollection.reduceRegion (fun _ => true) ICSamples.firstRed
    (ImageCollection.suffix "first") (fun x : Z => x) (fun _ z => pretty z) Date_format
    "n" ImageCollection.ee_Number "YYYY-MM-dd'T'HH-mm-ss" "%s"
    [ImageCollection.mkImage [("B1"%string, 5)] {[ "n"%string := ImageCollection.PNum 1 ]};
     ImageCollection.mkImage [("B1"%string, 7)] {[ "n"%string := ImageCollection.PNum 10 ]}]
  = Some [("1"%string, [("B1"%string, 5); ("_B1"%string, 7)]);
          ("10"%string, [("B1"%string, 7)])].
Proof. split; vm_compute; reflexivity. Qed.

(** Identifiers none of which starts another come back as they went in,
    underscores, digits and capitals included. *)
Example reduceRegion_distinct_keys
    (Number_format Date_format : string -> Z -> string) :
  ImageCollection.reduceRegion (fun _ => true) ICSamples.firstRed
    (ImageCollection.suffix "first") (fun x : Z => x) Number_format Date_format
    "tile" ImageCollection.ee_String "YYYY-MM-dd'T'HH-mm-ss" "%s"
    [ICSamples.tile "a_b" 5; ICSamples.tile "X9" 7; ICSamples.tile "a_b" 6]
  = Some [("X9"%string, [("B1"%string, 7)]); ("a_b"%string, [("B1"%string, 5)])].
Proof. vm_compute. reflexivity. Qed.

(** * Further properties *)

(** ** Array.set: bounds, shape, composition *)

Lemma List_pos_out_of_range {A} (l : list A) (i : Z) :
  i < - Z.of_nat (length l) \/ Z.of_nat (length l) <= i -> EE.List_pos l i = None.
Proof.
  intros H. unfold EE.List_pos.
  destruct (0 <=? i) eqn:E0, (i <? Z.of_nat (length l)) eqn:E1,
           (- Z.of_nat (length l) <=? i) eqn:E2, (i <? 0) eqn:E3; simpl;
    try reflexivity;
    rewrite ?Z.leb_le, ?Z.ltb_lt, ?Z.leb_gt, ?Z.ltb_ge in *; lia.
Qed.

Lemma List_pos_Some {A} (l : list A) (i : Z) (p : nat) :
  EE.List_pos l i = Some p ->
  (p < length l)%nat /\
  (0 <= i /\ Z.of_nat p = i \/ i < 0 /\ Z.of_nat p = Z.of_nat (length l) + i).
Proof.
  unfold EE.List_pos.
  destruct (0 <=? i) eqn:E0, (i <? Z.of_nat (length l)) eqn:E1,
           (- Z.of_nat (length l) <=? i) eqn:E2, (i <? 0) eqn:E3; simpl;
    intros H; try discriminate; injection H as <-;
    rewrite ?Z.leb_le, ?Z.ltb_lt, ?Z.leb_gt, ?Z.ltb_ge in *; lia.
Qed.

Lemma List_pos_length {A B} (l : list A) (l' : list B) (i : Z) :
  length l = length l' -> EE.List_pos l i = EE.List_pos l' i.
Proof. intros H. unfold EE.List_pos. rewrite H. reflexivity. Qed.

Lemma List_pos_negative {A} (l : list A) (i : nat) :
  (i < length l)%nat ->
  EE.List_pos l (Z.of_nat i - Z.of_nat (length l)) = Some i.
Proof.
  intros H. unfold EE.List_pos.
  replace (0 <=? Z.of_nat i - Z.of_nat (length l)) with false
    by (symmetry; apply Z.leb_gt; lia).
  simpl.
  replace (- Z.of_nat (length l) <=? Z.of_nat i - Z.of_nat (length l)) with true
    by (symmetry; apply Z.leb_le; lia).
  replace (Z.of_nat i - Z.of_nat (length l) <? 0) with true
    by (symmetry; apply Z.ltb_lt; lia).
  simpl. f_equal. lia.
Qed.

Lemma rectangular_lengths {A} (l l' : list (list A)) :
  List.map length l = List.map length l' -> EE.rectangular l = EE.rectangular l'.
Proof.
  intros H.
  assert (G : forall m : list (list A),
             EE.rectangular m
             = match List.map length m with
               | [] => true
               | n :: ns => forallb (fun k => Nat.eqb k n) ns
               end).
  { intros [|r rs]; [reflexivity|]. simpl.
    induction rs as [|s rs IH]; [reflexivity|]. simpl. rewrite IH. reflexivity. }
  rewrite (G l), (G l'), H. reflexivity.
Qed.

Lemma lengths_insert_row {A} (l : list (list A)) (p : nat) (r row : list A) :
  l !! p = Some r -> length row = length r ->
  List.map length (<[p := row]> l) = List.map length l.
Proof.
  intros Hp Hlen. revert p Hp.
  induction l as [|s l IH]; intros [|p] Hp; simpl in *; try discriminate.
  - injection Hp as ->. rewrite Hlen. reflexivity.
  - f_equal. apply IH. exact Hp.
Qed.

(** X1.  An index outside of the array makes [set] fail: the row index
    when it is not within [-height, height), the column index when it is
    not within [-width, width) of the row. *)
Theorem Array_set_out_of_range (obj : list (list Q)) (x y value : Q) :
  (EE.toInt y < - Z.of_nat (length obj) \/ Z.of_nat (length obj) <= EE.toInt y ->
   Array.set obj x y value = None) /\
  (forall row, EE.List_get obj (EE.toInt y) = Some row ->
     EE.toInt x < - Z.of_nat (length row) \/ Z.of_nat (length row) <= EE.toInt x ->
     Array.set obj x y value = None).
Proof.
  split.
  - intros H. unfold Array.set, Array.toList, EE.List_get.
    rewrite List_pos_out_of_range by exact H. reflexivity.
  - intros row Hrow H. unfold Array.set, Array.toList. rewrite Hrow. simpl.
    unfold EE.List_set. rewrite (List_pos_out_of_range row (EE.toInt x) H).
    reflexivity.
Qed.

Lemma Array_set_out_of_range_witness :
  Array.set [[1; 2]; [3; 4]]%Q 0 2 9 = None /\
  Array.set [[1; 2]; [3; 4]]%Q (-3) 0 9 = None.
Proof.
  split.
  - apply (Array_set_out_of_range [[1; 2]; [3; 4]]%Q 0 2 9). right.
    apply Z.leb_le. reflexivity.
  - apply (proj2 (Array_set_out_of_range [[1; 2]; [3; 4]]%Q (-3) 0 9) [1; 2]%Q).
    + reflexivity.
    + left. apply Z.ltb_lt. reflexivity.
Defined.

(** X2.  A negative index counts from the end: [set(j - width, i -
    height, v)] writes the cell that [set(j, i, v)] writes. *)
Theorem Array_set_negative_index (obj : list (list Q)) (i j : nat)
    (row : list Q) (value : Q) :
  obj !! i = Some row -> (j < length row)%nat ->
  Z.of_nat (length obj) <= EE.int32_max -> Z.of_nat (length row) <= EE.int32_max ->
  Array.set obj (inject_Z (Z.of_nat j - Z.of_nat (length row)))
                (inject_Z (Z.of_nat i - Z.of_nat (length obj))) value
  = Array.set obj (inject_Z (Z.of_nat j)) (inject_Z (Z.of_nat i)) value.
Proof.
  intros Hi Hj Bh Bw.
  assert (Hil : (i < length obj)%nat) by (eapply lookup_lt_Some; eauto).
  unfold Array.set, Array.toList, EE.List_get, EE.List_set.
  rewrite !toInt_inject_Z by (unfold EE.int32_min, EE.int32_max in *; lia).
  rewrite (List_pos_negative obj i Hil), (List_pos_in_range obj i Hil).
  simpl. rewrite Hi. simpl.
  rewrite (List_pos_negative row j Hj), (List_pos_in_range row j Hj).
  reflexivity.
Qed.

Lemma Array_set_negative_index_witness :
  Array.set [[1; 2]; [3; 4]]%Q
            (inject_Z (Z.of_nat 1 - Z.of_nat (length [3; 4]%Q)))
            (inject_Z (Z.of_nat 1 - Z.of_nat (length [[1; 2]; [3; 4]]%Q))) 9
  = Array.set [[1; 2]; [3; 4]]%Q (inject_Z (Z.of_nat 1)) (inject_Z (Z.of_nat 1)) 9.
Proof.
  apply (Array_set_negative_index [[1; 2]; [3; 4]]%Q 1 1 [3; 4]%Q 9).
  - reflexivity.
  - simpl; lia.
  - apply Z.leb_le; reflexivity.
  - apply Z.leb_le; reflexivity.
Defined.

(** X3.  [set] keeps the shape of the array: the rows of the result
    have the lengths of the rows of the input. *)
Theorem Array_set_shape (obj arr : list (list Q)) (x y value : Q) :
  Array.set obj x y value = Some arr ->
  List.map length arr = List.map length obj.
Proof.
  unfold Array.set, Array.toList, EE.List_get, EE.List_set, EE.Array_of.
  destruct (EE.List_pos obj (EE.toInt y)) as [p|] eqn:Ep; [|discriminate].
  simpl. destruct (obj !! p) as [r|] eqn:Er; [|discriminate]. simpl.
  destruct (EE.List_pos r (EE.toInt x)) as [q|] eqn:Eq; [|discriminate]. simpl.
  destruct (EE.rectangular _); [|discriminate].
  intros H. injection H as <-.
  apply (lengths_insert_row obj p r); [exact Er | apply length_insert].
Qed.

Lemma Array_set_shape_witness :
  List.map length [[1; 2]; [9; 4]]%Q = List.map length [[1; 2]; [3; 4]]%Q.
Proof.
  apply (Array_set_shape [[1; 2]; [3; 4]]%Q [[1; 2]; [9; 4]]%Q 0 1 9).
  reflexivity.
Defined.

(** X4.  Writing a cell twice keeps the second value only: [set(x, y,
    v)] followed by [set(x, y, w)] is [set(x, y, w)], failures
    included. *)
Theorem Array_set_overwrite (obj : list (list Q)) (x y v w : Q) :
  (a ← Array.set obj x y v; Array.set a x y w) = Array.set obj x y w.
Proof.
  unfold Array.set, Array.toList, EE.List_get, EE.List_set, EE.Array_of.
  destruct (EE.List_pos obj (EE.toInt y)) as [p|] eqn:Ep; [|reflexivity].
  simpl. destruct (obj !! p) as [r|] eqn:Er; [|reflexivity]. simpl.
  destruct (EE.List_pos r (EE.toInt x)) as [q|] eqn:Eq; [|reflexivity]. simpl.
  destruct (List_pos_Some _ _ _ Ep) as [Hp _].
  destruct (List_pos_Some _ _ _ Eq) as [Hq _].
  assert (Hrect : EE.rectangular (<[p := <[q := v]> r]> obj)
                  = EE.rectangular (<[p := <[q := w]> r]> obj)).
  { apply rectangular_lengths.
    rewrite !(lengths_insert_row obj p r) by (try exact Er; apply length_insert).
    reflexivity. }
  rewrite Hrect.
  destruct (EE.rectangular (<[p := <[q := w]> r]> obj)) eqn:E; [|reflexivity].
  simpl.
  rewrite (List_pos_length (<[p := <[q := v]> r]> obj) obj)
    by apply length_insert.
  rewrite Ep. simpl. rewrite list_lookup_insert_eq by exact Hp. simpl.
  rewrite (List_pos_length (<[q := v]> r) r) by apply length_insert.
  rewrite Eq. simpl.
  rewrite list_insert_insert_eq. rewrite list_insert_insert_eq.
  rewrite E. reflexivity.
Qed.

(** ** User: the credential files after create, delete, rename *)

Lemma Path_parent_div (d : list string) (n : string) :
  User.Path_parent (User.Path_div d n) = d.
Proof. apply removelast_last. Qed.

Lemma Path_name_div (d : list string) (n : string) :
  User.Path_name (User.Path_div d n) = n.
Proof. apply last_last. Qed.

Lemma Path_div_parent_name (p : list string) :
  p <> [] -> User.Path_div (User.Path_parent p) (User.Path_name p) = p.
Proof. intros H. symmetry. apply app_removelast_last. exact H. Qed.

Lemma Path_parent_neq (p : list string) : p <> [] -> User.Path_parent p <> p.
Proof.
  intros H E. apply (f_equal (@length string)) in E.
  rewrite <- (Path_div_parent_name p H) in E at 2.
  unfold User.Path_div in E. rewrite length_app in E. simpl in E. lia.
Qed.

Lemma parent_error_dir (fs : User.FS) (p : list string) :
  User.Path_parent p = [] \/ User.nodes fs !! User.Path_parent p = Some User.Dir ->
  User.parent_error fs p = None.
Proof.
  unfold User.parent_error. intros [->|H]; [reflexivity|].
  destruct (User.Path_parent p); [reflexivity|]. rewrite H. reflexivity.
Qed.

Lemma parent_error_same (fs fs' : User.FS) (p : list string) :
  User.nodes fs' !! User.Path_parent p = User.nodes fs !! User.Path_parent p ->
  User.parent_error fs' p = User.parent_error fs p.
Proof.
  unfold User.parent_error. destruct (User.Path_parent p); [reflexivity|].
  intros ->. reflexivity.
Qed.

(** Moving a regular file onto a path that is no directory. *)
Lemma shutil_move_file (fs : User.FS) (src dst : list string) (c : string) :
  User.nodes fs !! src = Some (User.File c) ->
  User.parent_error fs src = None -> User.parent_error fs dst = None ->
  User.locked fs src = false -> User.locked fs dst = false ->
  dst <> [] -> User.nodes fs !! dst <> Some User.Dir ->
  User.shutil_move src dst fs
  = (User.Ok dst,
     if bool_decide (src = dst) then fs
     else User.mkFS (<[dst := User.File c]> (delete src (User.nodes fs)))
                    (User.readonly fs)).
Proof.
  intros Hsrc Hps Hpd Hls Hld Hne Hnd.
  unfold User.shutil_move.
  assert (Hdir : User.isdir fs dst = false).
  { unfold User.isdir. destruct dst; [contradiction|].
    destruct (User.nodes fs !! (s :: dst)) as [[?|]|]; try reflexivity.
    contradiction. }
  rewrite Hdir. simpl.
  unfold User.bind, User.os_rename, User.ret.
  rewrite Hps, Hsrc, Hpd, Hls, Hld. simpl.
  destruct (bool_decide (src = dst)); [reflexivity|].
  destruct (User.nodes fs !! dst) as [[?|]|]; try reflexivity.
  contradiction.
Qed.

Lemma remove_tree_lookup (d k : list string) (m : gmap (list string) User.Node) :
  User.remove_tree d m !! k = if User.under d k then None else m !! k.
Proof.
  unfold User.remove_tree.
  destruct (User.under d k) eqn:E.
  - apply map_lookup_filter_None. right. intros x _. simpl. rewrite E. discriminate.
  - destruct (m !! k) as [x|] eqn:Ek.
    + apply map_lookup_filter_Some. split; [exact Ek | exact E].
    + apply map_lookup_filter_None. left. exact Ek.
Qed.

Lemma under_div (d : list string) (n : string) : User.under d (User.Path_div d n) = true.
Proof.
  unfold User.under, User.Path_div. apply bool_decide_eq_true.
  apply prefix_app_r. reflexivity.
Qed.

Lemma under_self (d : list string) : User.under d d = true.
Proof. unfold User.under. apply bool_decide_eq_true. reflexivity. Qed.

Lemma under_div_inv (d t : list string) (n : string) :
  User.under d (User.Path_div t n) = true -> User.under d t = true \/ d = User.Path_div t n.
Proof.
  unfold User.under, User.Path_div. rewrite !bool_decide_eq_true.
  intros [k Hk].
  destruct k as [|x k _] using rev_ind.
  - right. rewrite app_nil_r in Hk. congruence.
  - left. rewrite app_assoc in Hk. apply app_inj_tail in Hk. destruct Hk as [-> _].
    exists k. reflexivity.
Qed.

Lemma vacant_lookup (fs : User.FS) (d p : list string) :
  User.vacant fs d = true -> User.under d p = true -> User.nodes fs !! p = None.
Proof.
  unfold User.vacant. rewrite forallb_forall. intros H Hu.
  destruct (User.nodes fs !! p) as [n|] eqn:E; [|reflexivity].
  assert (Hin : In p (map_to_list (User.nodes fs)).*1).
  { apply list_elem_of_In. apply list_elem_of_fmap. exists (p, n). split; [reflexivity|].
    apply elem_of_map_to_list. exact E. }
  apply H in Hin. rewrite Hu in Hin. discriminate Hin.
Qed.

Lemma parent_error_None_inv (fs : User.FS) (p : list string) :
  User.parent_error fs p = None ->
  User.Path_parent p = [] \/ User.nodes fs !! User.Path_parent p = Some User.Dir.
Proof.
  unfold User.parent_error. destruct (User.Path_parent p) as [|a d]; [left; reflexivity|].
  destruct (User.nodes fs !! (a :: d)) as [[c|]|]; try discriminate. right. reflexivity.
Qed.

Lemma parent_error_insert (m : gmap (list string) User.Node) ro ro'
    (k : list string) (v : User.Node) (p : list string) :
  User.Path_parent p <> k ->
  User.parent_error (User.mkFS (<[k := v]> m) ro) p = User.parent_error (User.mkFS m ro') p.
Proof.
  intros H. apply parent_error_same. simpl. apply lookup_insert_ne. congruence.
Qed.

Lemma parent_error_delete (m : gmap (list string) User.Node) ro ro'
    (k : list string) (p : list string) :
  User.Path_parent p <> k ->
  User.parent_error (User.mkFS (delete k m) ro) p = User.parent_error (User.mkFS m ro') p.
Proof.
  intros H. apply parent_error_same. simpl. apply lookup_delete_ne. congruence.
Qed.

Ltac map_lookup :=
  repeat first
    [ rewrite lookup_insert_eq
    | rewrite lookup_delete_eq
    | rewrite lookup_insert_ne by congruence
    | rewrite lookup_delete_ne by congruence ].

(** X5. [create] on a machine whose default credential file holds [old],
    with an authorization flow that writes [new] as the default
    credential file, for a user whose file name is a single component
    the system takes: the call returns, the file of the new user holds
    [new], the default file holds [old] again, and no other path of the
    file system changes; the temporary directory is gone. *)
Theorem create_swaps_credentials
    (default : list string) (Authenticate : User.M unit)
    (mkdtemp : User.FS -> list string)
    (name : string) (credential_pathname : list string)
    (fs : User.FS) (old new : string) :
  let target :=
    User.Path_div (User.Path_parent (User.or_default default credential_pathname))
                  ("credentials" +:+ name) in
  let saved := User.Path_div (mkdtemp fs) (User.Path_name default) in
  default <> [] ->
  User.portable target = true ->
  User.nodes fs !! default = Some (User.File old) ->
  User.parent_error fs default = None ->
  User.parent_error fs target = None ->
  User.locked fs default = false ->
  User.locked fs target = false ->
  User.locked fs saved = false ->
  User.vacant fs (mkdtemp fs) = true ->
  User.nodes fs !! target <> Some User.Dir ->
  target <> default ->
  target <> mkdtemp fs ->
  (forall fs0,
      Authenticate fs0
      = (User.Ok tt,
         User.mkFS (<[default := User.File new]> (User.nodes fs0)) (User.readonly fs0))) ->
  exists fs',
    User.create default Authenticate mkdtemp name credential_pathname fs = (User.Ok tt, fs') /\
    User.nodes fs' !! default = Some (User.File old) /\
    User.nodes fs' !! target = Some (User.File new) /\
    (forall p, p <> default -> p <> target -> User.nodes fs' !! p = User.nodes fs !! p) /\
    User.readonly fs' = User.readonly fs.
Proof.
  intros target saved Hne _ Hdef Hpd Hpt Hld Hlt Hls Hvac Hnd Htd Htdir Hauth.
  set (dir := mkdtemp fs) in *.
  assert (Hfresh : forall p, User.under dir p = true -> User.nodes fs !! p = None)
    by (intros p; apply vacant_lookup; exact Hvac).
  assert (Hsu : User.under dir saved = true) by apply under_div.
  assert (Hdu : User.under dir default = false).
  { destruct (User.under dir default) eqn:E; [|reflexivity].
    apply Hfresh in E. congruence. }
  assert (Hdirne : dir <> []).
  { intros E. rewrite E in Hdu. unfold User.under in Hdu.
    apply bool_decide_eq_false in Hdu. apply Hdu. apply prefix_nil. }
  assert (Hparent : forall d, d = [] \/ User.nodes fs !! d = Some User.Dir ->
            d <> dir /\ d <> saved /\ d <> default /\ d <> target).
  { intros d [->|Hd].
    - repeat split; try congruence; unfold saved, target, User.Path_div;
        intros E; symmetry in E; apply app_eq_nil in E; destruct E; discriminate.
    - repeat split; intros ->; try congruence.
      + rewrite (Hfresh dir (under_self dir)) in Hd. discriminate.
      + rewrite (Hfresh saved Hsu) in Hd. discriminate. }
  destruct (Hparent _ (parent_error_None_inv _ _ Hpd)) as (Hd1 & Hd2 & Hd3 & Hd4).
  destruct (Hparent _ (parent_error_None_inv _ _ Hpt)) as (Ht1 & Ht2 & Ht3 & Ht4).
  assert (Htu : User.under dir target = false).
  { destruct (User.under dir target) eqn:E; [|reflexivity].
    apply under_div_inv in E. destruct E as [E|E]; [|exfalso; apply Htdir; symmetry; exact E].
    destruct (parent_error_None_inv _ _ Hpt) as [Hp|Hp].
    - unfold target in Hp. rewrite Path_parent_div in Hp. rewrite Hp in E.
      unfold User.under in E. apply bool_decide_eq_true in E.
      apply prefix_nil_inv in E. congruence.
    - unfold target in Hp. rewrite Path_parent_div in Hp.
      rewrite (Hfresh _ E) in Hp. discriminate. }
  assert (Hds : default <> saved) by (intros E; rewrite E in Hdu; congruence).
  assert (Hdd : default <> dir)
    by (intros E; rewrite E in Hdu; rewrite under_self in Hdu; discriminate).
  assert (Hts : target <> saved) by (intros E; rewrite E in Htu; congruence).
  assert (Hps : User.Path_parent saved = dir) by apply Path_parent_div.
  assert (Hsne : saved <> []).
  { unfold saved, User.Path_div. intros E. apply app_eq_nil in E. destruct E; discriminate. }
  assert (Htne : target <> []).
  { unfold target, User.Path_div. intros E. apply app_eq_nil in E. destruct E; discriminate. }
  assert (Hsd : dir <> saved).
  { rewrite <- Hps at 1. apply Path_parent_neq. exact Hsne. }
  unfold User.create, User.with_TemporaryDirectory.
  fold dir. fold target. fold saved.
  set (n0 := User.nodes fs) in *. set (ro := User.readonly fs) in *.
  unfold User.bind, User.suppress_call, User.ret.
  (* the default file is put aside *)
  rewrite (shutil_move_file _ default saved old).
  2:{ cbn [User.nodes]. map_lookup. exact Hdef. }
  2:{ rewrite (parent_error_insert _ _ ro) by exact Hd1. destruct fs; exact Hpd. }
  2:{ apply parent_error_dir. right. rewrite Hps. cbn [User.nodes]. map_lookup. reflexivity. }
  2:{ exact Hld. }
  2:{ exact Hls. }
  2:{ exact Hsne. }
  2:{ cbn [User.nodes]. map_lookup. rewrite (Hfresh saved Hsu). discriminate. }
  rewrite (bool_decide_eq_false_2 _ Hds). cbn [User.nodes User.readonly].
  (* the authorization flow writes the new default file *)
  rewrite Hauth. cbn [User.nodes User.readonly].
  (* which is moved to the name of the new user *)
  rewrite (shutil_move_file _ default target new).
  2:{ cbn [User.nodes]. map_lookup. reflexivity. }
  2:{ rewrite (parent_error_insert _ _ ro) by exact Hd3.
      rewrite (parent_error_insert _ _ ro) by exact Hd2.
      rewrite (parent_error_delete _ _ ro) by exact Hd3.
      rewrite (parent_error_insert _ _ ro) by exact Hd1. destruct fs; exact Hpd. }
  2:{ rewrite (parent_error_insert _ _ ro) by exact Ht3.
      rewrite (parent_error_insert _ _ ro) by exact Ht2.
      rewrite (parent_error_delete _ _ ro) by exact Ht3.
      rewrite (parent_error_insert _ _ ro) by exact Ht1. destruct fs; exact Hpt. }
  2:{ exact Hld. }
  2:{ exact Hlt. }
  2:{ exact Htne. }
  2:{ cbn [User.nodes]. map_lookup. exact Hnd. }
  rewrite (bool_decide_eq_false_2 (default = target)) by congruence.
  cbn [User.nodes User.readonly].
  (* and the file put aside comes back *)
  rewrite (shutil_move_file _ saved default old).
  2:{ cbn [User.nodes]. map_lookup. reflexivity. }
  2:{ apply parent_error_dir. right. rewrite Hps. cbn [User.nodes]. map_lookup. reflexivity. }
  2:{ rewrite (parent_error_insert _ _ ro) by exact Hd4.
      rewrite (parent_error_delete _ _ ro) by exact Hd3.
      rewrite (parent_error_insert _ _ ro) by exact Hd3.
      rewrite (parent_error_insert _ _ ro) by exact Hd2.
      rewrite (parent_error_delete _ _ ro) by exact Hd3.
      rewrite (parent_error_insert _ _ ro) by exact Hd1. destruct fs; exact Hpd. }
  2:{ exact Hls. }
  2:{ exact Hld. }
  2:{ exact Hne. }
  2:{ cbn [User.nodes]. map_lookup. discriminate. }
  rewrite (bool_decide_eq_false_2 (saved = default)) by congruence.
  cbn [User.nodes User.readonly].
  eexists. split; [reflexivity|]. cbn [User.nodes User.readonly].
  split; [|split; [|split; [|reflexivity]]].
  - rewrite remove_tree_lookup, Hdu. map_lookup. reflexivity.
  - rewrite remove_tree_lookup, Htu. map_lookup. reflexivity.
  - intros p Hp1 Hp2. rewrite remove_tree_lookup.
    destruct (User.under dir p) eqn:E; [symmetry; apply Hfresh; exact E|].
    assert (p <> saved) by (intros ->; congruence).
    assert (p <> dir) by (intros ->; rewrite under_self in E; discriminate).
    map_lookup. reflexivity.
Qed.

Lemma create_swaps_credentials_witness :
  exists fs',
    User.create ee_default (authorize "new token") tmp_name "secondary" [] fs_default
    = (User.Ok tt, fs') /\
    User.nodes fs' !! ee_default = Some (User.File "old token") /\
    User.nodes fs' !! (ee_dir ++ ["credentialssecondary"%string])
    = Some (User.File "new token") /\
    (forall p, p <> ee_default -> p <> ee_dir ++ ["credentialssecondary"%string] ->
               User.nodes fs' !! p = User.nodes fs_default !! p) /\
    User.readonly fs' = User.readonly fs_default.
Proof.
  apply (create_swaps_credentials ee_default (authorize "new token") tmp_name
           "secondary" [] fs_default "old token" "new token").
  - discriminate.
  - reflexivity.
  - reflexivity.
  - reflexivity.
  - reflexivity.
  - reflexivity.
  - reflexivity.
  - reflexivity.
  - vm_compute. reflexivity.
  - vm_compute. discriminate.
  - vm_compute. discriminate.
  - vm_compute. discriminate.
  - intros fs0. reflexivity.
Defined.

(** X6. [create] without a name, where the default credential file is
    called [credentials]: the file written by the authorization flow is
    moved onto itself and then overwritten by the copy put aside, so the
    call returns with the file system as it was before; the new token is
    lost. *)
Theorem create_default_keeps_old
    (default : list string) (Authenticate : User.M unit)
    (mkdtemp : User.FS -> list string) (fs : User.FS) (old new : string) :
  let saved := User.Path_div (mkdtemp fs) (User.Path_name default) in
  default <> [] ->
  User.Path_name default = "credentials"%string ->
  User.nodes fs !! default = Some (User.File old) ->
  User.parent_error fs default = None ->
  User.locked fs default = false ->
  User.locked fs saved = false ->
  User.vacant fs (mkdtemp fs) = true ->
  (forall fs0,
      Authenticate fs0
      = (User.Ok tt,
         User.mkFS (<[default := User.File new]> (User.nodes fs0)) (User.readonly fs0))) ->
  exists fs',
    User.create default Authenticate mkdtemp "" [] fs = (User.Ok tt, fs') /\
    (forall p, User.nodes fs' !! p = User.nodes fs !! p) /\
    User.readonly fs' = User.readonly fs.
Proof.
  intros saved Hne Hname Hdef Hpd Hld Hls Hvac Hauth.
  set (dir := mkdtemp fs) in *.
  assert (Hfresh : forall p, User.under dir p = true -> User.nodes fs !! p = None)
    by (intros p; apply vacant_lookup; exact Hvac).
  assert (Hsu : User.under dir saved = true) by apply under_div.
  assert (Hdu : User.under dir default = false).
  { destruct (User.under dir default) eqn:E; [|reflexivity].
    apply Hfresh in E. congruence. }
  assert (Hds : default <> saved) by (intros E; rewrite E in Hdu; congruence).
  assert (Hdd : default <> dir)
    by (intros E; rewrite E in Hdu; rewrite under_self in Hdu; discriminate).
  assert (Hps : User.Path_parent saved = dir) by apply Path_parent_div.
  assert (Hsne : saved <> []).
  { unfold saved, User.Path_div. intros E. apply app_eq_nil in E. destruct E; discriminate. }
  assert (Hsd : dir <> saved).
  { rewrite <- Hps at 1. apply Path_parent_neq. exact Hsne. }
  assert (Hd1 : User.Path_parent default <> dir /\ User.Path_parent default <> saved
                /\ User.Path_parent default <> default).
  { split; [|split]; [| |apply Path_parent_neq; exact Hne];
      destruct (parent_error_None_inv _ _ Hpd) as [E|E]; intros E'; rewrite E' in E.
    - rewrite E in Hdu. unfold User.under in Hdu.
      apply bool_decide_eq_false in Hdu. apply Hdu. apply prefix_nil.
    - rewrite (Hfresh dir (under_self dir)) in E. discriminate.
    - exact (Hsne E).
    - rewrite (Hfresh saved Hsu) in E. discriminate. }
  destruct Hd1 as (Hd1 & Hd2 & Hd3).
  assert (Htarget : User.Path_div (User.Path_parent default) "credentials" = default).
  { rewrite <- Hname. apply Path_div_parent_name. exact Hne. }
  unfold User.create, User.with_TemporaryDirectory, User.or_default.
  change ("credentials" +:+ "")%string with "credentials"%string.
  rewrite Htarget. fold dir. fold saved.
  set (n0 := User.nodes fs) in *. set (ro := User.readonly fs) in *.
  unfold User.bind, User.suppress_call, User.ret.
  rewrite (shutil_move_file _ default saved old).
  2:{ cbn [User.nodes]. map_lookup. exact Hdef. }
  2:{ rewrite (parent_error_insert _ _ ro) by exact Hd1. destruct fs; exact Hpd. }
  2:{ apply parent_error_dir. right. rewrite Hps. cbn [User.nodes]. map_lookup. reflexivity. }
  2:{ exact Hld. }
  2:{ exact Hls. }
  2:{ exact Hsne. }
  2:{ cbn [User.nodes]. map_lookup. rewrite (Hfresh saved Hsu). discriminate. }
  rewrite (bool_decide_eq_false_2 _ Hds). cbn [User.nodes User.readonly].
  rewrite Hauth. cbn [User.nodes User.readonly].
  assert (Hpd3 : User.parent_error
            (User.mkFS (<[default:=User.File new]>
                          (<[saved:=User.File old]> (delete default (<[dir:=User.Dir]> n0)))) ro)
            default = None).
  { rewrite (parent_error_insert _ _ ro) by exact Hd3.
    rewrite (parent_error_insert _ _ ro) by exact Hd2.
    rewrite (parent_error_delete _ _ ro) by exact Hd3.
    rewrite (parent_error_insert _ _ ro) by exact Hd1. destruct fs; exact Hpd. }
  (* the new file is moved onto itself *)
  rewrite (shutil_move_file _ default default new).
  2:{ cbn [User.nodes]. map_lookup. reflexivity. }
  2:{ exact Hpd3. }
  2:{ exact Hpd3. }
  2:{ exact Hld. }
  2:{ exact Hld. }
  2:{ exact Hne. }
  2:{ cbn [User.nodes]. map_lookup. discriminate. }
  rewrite (bool_decide_eq_true_2 (default = default)) by reflexivity.
  (* and the file put aside replaces it *)
  rewrite (shutil_move_file _ saved default old).
  2:{ cbn [User.nodes]. map_lookup. reflexivity. }
  2:{ apply parent_error_dir. right. rewrite Hps. cbn [User.nodes]. map_lookup. reflexivity. }
  2:{ exact Hpd3. }
  2:{ exact Hls. }
  2:{ exact Hld. }
  2:{ exact Hne. }
  2:{ cbn [User.nodes]. map_lookup. discriminate. }
  rewrite (bool_decide_eq_false_2 (saved = default)) by congruence.
  cbn [User.nodes User.readonly].
  eexists. split; [reflexivity|]. cbn [User.nodes User.readonly].
  split; [|reflexivity].
  intros p. rewrite remove_tree_lookup.
  destruct (User.under dir p) eqn:E; [symmetry; apply Hfresh; exact E|].
  assert (p <> saved) by (intros ->; congruence).
  assert (p <> dir) by (intros ->; rewrite under_self in E; discriminate).
  destruct (decide (p = default)) as [->|Hp]; map_lookup; [symmetry; exact Hdef | reflexivity].
Qed.

Lemma create_default_keeps_old_witness :
  exists fs',
    User.create ee_default (authorize "new token") tmp_name "" [] fs_default
    = (User.Ok tt, fs') /\
    (forall p, User.nodes fs' !! p = User.nodes fs_default !! p) /\
    User.readonly fs' = User.readonly fs_default.
Proof.
  apply (create_default_keeps_old ee_default (authorize "new token") tmp_name
           fs_default "old token" "new token").
  - discriminate.
  - reflexivity.
  - reflexivity.
  - reflexivity.
  - reflexivity.
  - reflexivity.
  - vm_compute. reflexivity.
  - intros fs0. reflexivity.
Defined.

(** X7. After a [delete] that returns, [set] for the same user raises
    [EEException], whether the credential file existed or not. *)
Theorem delete_then_set_raises {J : Type}
    (default : list string) (json_loads : string -> option (gmap string J))
    (name : string) (credential_pathname : list string) (fs fs' : User.FS) :
  User.delete default name credential_pathname fs = (User.Ok tt, fs') ->
  User.set default json_loads name credential_pathname fs' = User.EEException.
Proof.
  unfold User.delete, User.set, User.with_suppress, User.os_unlink, User.read_text.
  set (target := User.Path_div _ _).
  destruct (User.parent_error fs target) as [e|] eqn:Hp.
  - destruct (User.issubclass e User.FileNotFoundError); intros H; inversion H; subst.
    rewrite Hp. reflexivity.
  - destruct (User.nodes fs !! target) as [[c|]|] eqn:Hn.
    + destruct (User.locked fs target); simpl; intros H; inversion H; subst.
      rewrite (parent_error_delete _ _ (User.readonly fs)).
      * replace (User.mkFS (User.nodes fs) (User.readonly fs)) with fs by (destruct fs; reflexivity).
        rewrite Hp. cbn [User.nodes]. rewrite lookup_delete_eq. reflexivity.
      * apply Path_parent_neq. unfold target, User.Path_div. intros E.
        apply app_eq_nil in E. destruct E; discriminate.
    + simpl. intros H; inversion H.
    + simpl. intros H; inversion H; subst. rewrite Hp, Hn. reflexivity.
Qed.

Lemma delete_then_set_raises_witness :
  User.set ee_default loads "" []
    (User.mkFS (delete ee_default (User.nodes fs_default)) ∅)
  = User.EEException.
Proof.
  apply (delete_then_set_raises ee_default loads "" [] fs_default).
  vm_compute. reflexivity.
Defined.

(** X8. [rename] of a user that [set] accepts, the two file names being
    different single components the system takes: once the call has
    returned, [set] reaches [Initialize] with the same tokens under the
    new name and raises [EEException] under the old one. *)
Theorem rename_moves_account {J : Type}
    (default : list string) (json_loads : string -> option (gmap string J))
    (new old : string) (credential_pathname : list string) (fs fs' : User.FS)
    (refresh_token client_id client_secret : J) :
  let folder := User.Path_parent (User.or_default default credential_pathname) in
  User.portable (User.Path_div folder ("credentials" +:+ new)) = true ->
  User.portable (User.Path_div folder ("credentials" +:+ old)) = true ->
  new <> old ->
  User.set default json_loads old credential_pathname fs
  = User.Initialize refresh_token client_id client_secret ->
  User.rename default new old credential_pathname fs = (User.Ok tt, fs') ->
  User.set default json_loads new credential_pathname fs'
  = User.Initialize refresh_token client_id client_secret /\
  User.set default json_loads old credential_pathname fs' = User.EEException.
Proof.
  intros folder _ _ Hne. subst folder.
  unfold User.rename, User.set, User.with_suppress, User.os_rename, User.read_text.
  set (dir := User.Path_parent _).
  set (src := User.Path_div dir ("credentials" +:+ old)).
  set (dst := User.Path_div dir ("credentials" +:+ new)).
  assert (Hsd : src <> dst).
  { unfold src, dst, User.Path_div. intros E. apply app_inj_tail in E.
    destruct E as [_ E]. cbv beta iota fix delta [String.append] in E.
    apply Hne. congruence. }
  assert (Hpp : User.parent_error fs dst = User.parent_error fs src).
  { unfold User.parent_error, src, dst. rewrite !Path_parent_div. reflexivity. }
  assert (Hds : User.Path_parent dst <> src /\ User.Path_parent dst <> dst
                /\ User.Path_parent src <> src /\ User.Path_parent src <> dst).
  { unfold src, dst. rewrite !Path_parent_div. unfold User.Path_div.
    repeat split; intros E; apply (f_equal (@length string)) in E;
      rewrite length_app in E; simpl in E; lia. }
  destruct Hds as (Hd1 & Hd2 & Hd3 & Hd4).
  destruct (User.parent_error fs src) as [e|] eqn:Hp; [discriminate|].
  destruct (User.nodes fs !! src) as [[c|]|] eqn:Hn; try discriminate.
  intros Hset. rewrite Hpp.
  destruct (User.locked fs src || User.locked fs dst); [simpl; discriminate|].
  rewrite (bool_decide_eq_false_2 _ Hsd).
  destruct (User.nodes fs !! dst) as [[c'|]|] eqn:Hd; simpl; intros H; inversion H; subst;
    (rewrite (parent_error_insert _ _ (User.readonly fs)) by exact Hd2;
     rewrite (parent_error_delete _ _ (User.readonly fs)) by exact Hd1;
     rewrite (parent_error_insert _ _ (User.readonly fs)) by exact Hd4;
     rewrite (parent_error_delete _ _ (User.readonly fs)) by exact Hd3;
     replace (User.mkFS (User.nodes fs) (User.readonly fs)) with fs by (destruct fs; reflexivity);
     rewrite Hpp, Hp; cbn [User.nodes]; map_lookup; split; [exact Hset | reflexivity]).
Qed.

Lemma rename_moves_account_witness :
  User.set ee_default loads "main" []
    (User.mkFS (<[ee_dir ++ ["credentialsmain"%string] := User.File "old token"]>
                  (delete ee_default (User.nodes fs_default))) ∅)
  = User.Initialize "old token"%string "id"%string "secret"%string /\
  User.set ee_default loads "" []
    (User.mkFS (<[ee_dir ++ ["credentialsmain"%string] := User.File "old token"]>
                  (delete ee_default (User.nodes fs_default))) ∅)
  = User.EEException.
Proof.
  apply (rename_moves_account ee_default loads "main" "" [] fs_default).
  - reflexivity.
  - reflexivity.
  - discriminate.
  - vm_compute. reflexivity.
  - vm_compute. reflexivity.
Defined.

(** ** User.list *)

Lemma prefix_inv (p s : string) :
  String.prefix p s = true -> exists r, s = (p +:+ r)%string.
Proof.
  revert s. induction p as [|c p IH]; intros s H.
  - exists s. reflexivity.
  - destruct s as [|d s]; simpl in H; [discriminate|].
    destruct (Ascii.ascii_dec c d) as [->|]; [|discriminate].
    destruct (IH s H) as [r ->]. exists r. reflexivity.
Qed.

Lemma string_length_append (a b : string) :
  String.length (a +:+ b) = (String.length a + String.length b)%nat.
Proof. induction a as [|c a IH]; simpl; [reflexivity | rewrite IH; reflexivity]. Qed.

(** A name shorter than the word holds no occurrence of it. *)
Lemma short_name_free (p name : string) :
  (String.length name < String.length p)%nat ->
  forall a b, name <> (a +:+ p +:+ b)%string.
Proof.
  intros H a b E. apply (f_equal String.length) in E.
  rewrite !string_length_append in E. lia.
Qed.

Lemma str_remove_none (p s : string) :
  (forall a b, s <> (a +:+ p +:+ b)%string) -> User.str_remove p 0 s = s.
Proof.
  induction s as [|c s IH]; intros H; [reflexivity|].
  cbn [User.str_remove]. destruct (String.prefix p (String c s)) eqn:E.
  - apply prefix_inv in E. destruct E as [r E]. exfalso. apply (H ""%string r). exact E.
  - f_equal. apply IH. intros a b ->. apply (H (String c a) b). reflexivity.
Qed.

Lemma str_remove_skip (p q s : string) :
  User.str_remove p (String.length q) (q +:+ s) = User.str_remove p 0 s.
Proof. induction q as [|d q IH]; [reflexivity | exact IH]. Qed.

(** A leading occurrence is removed. *)
Lemma str_remove_leading (c : ascii) (p s : string) :
  User.str_remove (String c p) 0 (String c p +:+ s) = User.str_remove (String c p) 0 s.
Proof.
  change (String c p +:+ s)%string with (String c (p +:+ s)).
  cbn [User.str_remove].
  change (String c (p +:+ s)) with (String c p +:+ s)%string.
  rewrite prefix_app.
  replace (String.length (String c p) - 1)%nat with (String.length p) by (simpl; lia).
  apply str_remove_skip.
Qed.

Lemma user_name_credentials (name : string) :
  (forall a b, name <> (a +:+ "credentials" +:+ b)%string) ->
  User.user_name ("credentials" +:+ name)
  = if String.eqb name "" then "default"%string else name.
Proof.
  intros H. unfold User.user_name.
  rewrite str_remove_leading, (str_remove_none _ _ H). reflexivity.
Qed.

Lemma user_name_nonempty (f : string) : User.user_name f <> ""%string.
Proof.
  unfold User.user_name.
  destruct (String.eqb (User.str_remove "credentials" 0 f) "") eqn:E; [discriminate|].
  apply String.eqb_neq. exact E.
Qed.

Lemma glob_spec (fs : User.FS) (dir : list string) (prefix : string) (p : list string) :
  In p (User.glob fs dir prefix)
  <-> (exists n, User.nodes fs !! p = Some n) /\ p <> [] /\ User.Path_parent p = dir
      /\ String.prefix prefix (User.Path_name p) = true.
Proof.
  unfold User.glob. rewrite filter_In, !andb_true_iff, negb_true_iff,
    bool_decide_eq_false, bool_decide_eq_true.
  rewrite <- list_elem_of_In, list_elem_of_fmap.
  split.
  - intros [[[q n] [-> Hin]] [[H1 H2] H3]]. apply elem_of_map_to_list in Hin.
    repeat split; try assumption. exists n. exact Hin.
  - intros [[n Hn] [H1 [H2 H3]]]. repeat split; try assumption.
    exists (p, n). split; [reflexivity|]. apply elem_of_map_to_list. exact Hn.
Qed.

(** X9. Round trip between the credential files and [list]: a regular
    file [credentials<name>] of the credential directory is listed, as
    [default] when the name is empty and as the name itself otherwise,
    provided the name holds no occurrence of the word [credentials]. *)
Theorem list_shows_user
    (default : list string) (credential_pathname : list string) (fs : User.FS)
    (name content : string) :
  let dir := User.Path_parent (User.or_default default credential_pathname) in
  User.nodes fs !! User.Path_div dir ("credentials" +:+ name) = Some (User.File content) ->
  (forall a b, name <> (a +:+ "credentials" +:+ b)%string) ->
  In (if String.eqb name "" then "default"%string else name)
     (User.list default credential_pathname fs).
Proof.
  intros dir Hfile Hfree. unfold User.list. fold dir.
  apply list_elem_of_In, list_elem_of_fmap.
  exists (User.Path_div dir ("credentials" +:+ name)). split.
  - rewrite Path_name_div. symmetry. apply user_name_credentials. exact Hfree.
  - apply list_elem_of_In, filter_In. split.
    + apply glob_spec. split; [eexists; exact Hfile|]. split; [|split].
      * unfold User.Path_div. intros E. apply app_eq_nil in E. destruct E; discriminate.
      * apply Path_parent_div.
      * rewrite Path_name_div. apply prefix_app.
    + unfold User.is_file. rewrite Hfile. reflexivity.
Qed.

Lemma list_shows_user_witness :
  In "default"%string (User.list ee_default [] fs_default) /\
  In "main"%string
     (User.list ee_default []
        (User.mkFS (<[ee_dir ++ ["credentialsmain"%string] := User.File "token"]> fs_dirs) ∅)).
Proof.
  split.
  - apply (list_shows_user ee_default [] fs_default "" "old token").
    + reflexivity.
    + apply short_name_free. simpl. lia.
  - apply (list_shows_user ee_default []
             (User.mkFS (<[ee_dir ++ ["credentialsmain"%string] := User.File "token"]> fs_dirs) ∅)
             "main" "token").
    + reflexivity.
    + apply short_name_free. simpl. lia.
Defined.

(** X10. [list] reports nothing else: every listed name is the shown
    name of a regular file of the credential directory whose name starts
    with [credentials], and no listed name is empty. *)
Theorem list_only_credential_files
    (default : list string) (credential_pathname : list string) (fs : User.FS)
    (n : string) :
  let dir := User.Path_parent (User.or_default default credential_pathname) in
  In n (User.list default credential_pathname fs) ->
  n <> ""%string /\
  exists f content,
    String.prefix "credentials" f = true /\
    User.nodes fs !! User.Path_div dir f = Some (User.File content) /\
    n = User.user_name f.
Proof.
  intros dir. unfold User.list. fold dir.
  rewrite <- list_elem_of_In, list_elem_of_fmap.
  intros [p [-> Hp]]. apply list_elem_of_In, filter_In in Hp.
  destruct Hp as [Hg Hf]. apply glob_spec in Hg.
  destruct Hg as (_ & Hne & Hpar & Hpre).
  split; [apply user_name_nonempty|].
  unfold User.is_file in Hf.
  destruct (User.nodes fs !! p) as [[c|]|] eqn:E; try discriminate.
  exists (User.Path_name p), c. split; [exact Hpre|]. split; [|reflexivity].
  rewrite <- Hpar, (Path_div_parent_name p Hne). exact E.
Qed.

Lemma list_only_credential_files_witness :
  "default"%string <> ""%string /\
  exists f content,
    String.prefix "credentials" f = true /\
    User.nodes fs_default !! User.Path_div ee_dir f = Some (User.File content) /\
    "default"%string = User.user_name f.
Proof.
  apply (list_only_credential_files ee_default [] fs_default "default").
  vm_compute. left. reflexivity.
Defined.

(** ** ImageCollection: masks and counts of valid pixels *)

Section Masks.
Import ImageCollection.
Local Open Scope R_scope.

Lemma lookup_band_fmap {P Q} (g : P -> Q) (n : string) (bs : list (string * P)) ps qs :
  lookup_band n (mkImage ((fun b : string * P => (b.1, g b.2)) <$> bs) ps)
  = g <$> lookup_band n (mkImage bs qs).
Proof.
  unfold lookup_band. simpl.
  induction bs as [|[m v] bs IH]; [reflexivity|]. simpl.
  destruct (String.eqb m n); [reflexivity | exact IH].
Qed.

Lemma total_flags {A} (f : A -> bool) (l : list A) :
  total ((fun a => if f a then 1 else 0) <$> l) = INR (length (List.filter f l)).
Proof.
  induction l as [|a l IH]; [reflexivity|].
  cbn [fmap list_fmap total foldr List.filter]. fold (total ((fun a => if f a then 1 else 0) <$> l)).
  rewrite IH. destruct (f a); [|lra].
  cbn [length]. rewrite S_INR. lra.
Qed.

Lemma existsb_filter {A} (f : A -> bool) (l : list A) :
  existsb f l = negb (Nat.eqb (length (List.filter f l)) 0).
Proof.
  induction l as [|a l IH]; [reflexivity|]. simpl.
  destruct (f a); [reflexivity | exact IH].
Qed.

Lemma lookup_band_mask (n : string) (i : Image (option R)) :
  lookup_band n (mask i)
  = (fun v : option R => Some (match v with Some _ => 1 | None => 0 end))
      <$> lookup_band n i.
Proof.
  destruct i as [bs ps].
  exact (lookup_band_fmap
           (fun v : option R => Some (match v with Some _ => 1 | None => 0 end))
           n bs ps ps).
Qed.

Lemma mask_total (n : string) (obj : list (Image (option R))) :
  total (valid (band_stack n (mask <$> obj)))
  = INR (length (List.filter (valid_at n) obj)).
Proof.
  unfold band_stack, valid.
  induction obj as [|i obj IH]; [reflexivity|].
  cbn [fmap list_fmap omap List.filter list_omap].
  rewrite lookup_band_mask. unfold valid_at at 1.
  destruct (lookup_band n i) as [[x|]|]; cbn [fmap option_fmap option_map omap list_omap].
  - cbn [total foldr length]. fold (total (omap (fun v : option R => v)
                                               (omap (lookup_band n) (mask <$> obj)))).
    rewrite IH, S_INR. lra.
  - cbn [total foldr]. fold (total (omap (fun v : option R => v)
                                        (omap (lookup_band n) (mask <$> obj)))).
    rewrite IH. lra.
  - exact IH.
Qed.

Lemma bandNames_mask (i : Image (option R)) : bandNames (mask i) = bandNames i.
Proof.
  unfold bandNames, mask. simpl. rewrite <- list_fmap_compose. reflexivity.
Qed.

End Masks.

(** X11. [collectionMask] of a collection that is not empty has the
    bands of the first image; a band is 1 where an image of the
    collection holds a valid pixel for it and 0 elsewhere, and is itself
    masked nowhere. *)
Theorem collectionMask_spec (first : ImageCollection.Image (option R))
    (rest : list (ImageCollection.Image (option R))) :
  ImageCollection.collectionMask (first :: rest)
  = ImageCollection.bandwise (ImageCollection.bandNames first) (fun n => n)
      (fun n => Some (if existsb (ImageCollection.valid_at n) (first :: rest)
                      then 1 else 0)%R) ∅.
Proof.
  unfold ImageCollection.collectionMask, ImageCollection.collection_sum,
    ImageCollection.gt.
  set (obj := first :: rest).
  change (ImageCollection.reduce ImageCollection.Reducer_sum (fun n => n)
            (ImageCollection.mask <$> obj))
    with (ImageCollection.bandwise
            (ImageCollection.bandNames (ImageCollection.mask first)) (fun n => n)
            (fun n => ImageCollection.Reducer_sum
                        (ImageCollection.band_stack n (ImageCollection.mask <$> obj))) ∅).
  rewrite binop_bandwise_constant, bandNames_mask.
  apply bandwise_ext. intros n _.
  unfold ImageCollection.Reducer_sum, ImageCollection.lift2.
  rewrite mask_total, existsb_filter. f_equal.
  destruct (length (List.filter (ImageCollection.valid_at n) obj)) as [|k] eqn:E.
  - simpl. destruct (Rgt_dec 0 0) as [H|H]; [lra | reflexivity].
  - simpl negb. destruct (Rgt_dec (INR (S k)) 0) as [H|H]; [reflexivity|].
    exfalso. apply H. apply lt_0_INR. lia.
Qed.

Section ValidPixel.
Import ImageCollection.
Local Open Scope R_scope.

(** The image [validPixel] sums: the band alone, 1 where the pixel of
    the image is valid and 0 where it is masked. *)
Lemma validPixel_flag (band : string) (i : Image (option R)) :
  is_Some (lookup_band band i) ->
  Image_eq (mask (bandwise [band] (fun n => n) (pixel i) (props i))) (constant 1)
  = mkImage [(band, Some (if valid_at band i then 1 else 0))] ∅.
Proof.
  intros [v Hv]. unfold Image_eq, binop, mask, bandwise, constant, pixel, valid_at.
  cbn [fmap list_fmap bands props fst snd]. rewrite Hv. simpl. do 3 f_equal.
  destruct v as [x|]; simpl; f_equal.
  - destruct (Req_dec_T 1 1) as [_|H]; [reflexivity | contradiction].
  - destruct (Req_dec_T 0 1) as [H|_]; [lra | reflexivity].
Qed.

Lemma flags_stack (band : string) (f : Image (option R) -> bool)
    (obj : list (Image (option R))) :
  valid (band_stack band
           ((fun i => mkImage [(band, Some (if f i then 1 else 0))] ∅) <$> obj))
  = (fun i => if f i then 1 else 0) <$> obj.
Proof.
  unfold valid, band_stack.
  induction obj as [|i obj IH]; [reflexivity|].
  cbn [fmap list_fmap omap list_omap]. unfold lookup_band at 1.
  cbn [bands List.find fst]. rewrite String.eqb_refl.
  cbn [fmap option_fmap option_map snd omap list_omap]. f_equal. exact IH.
Qed.

Lemma filter_length_le {A} (f : A -> bool) (l : list A) :
  (length (List.filter f l) <= length l)%nat.
Proof.
  induction l as [|a l IH]; [reflexivity|]. simpl.
  destruct (f a); simpl; lia.
Qed.

End ValidPixel.

(** X12. [validPixel] on a collection that is not empty and whose images
    all have the band: inside the geometry of the collection the band
    [valid] is the number of images whose pixel is valid and [pct_valid]
    is that number over the size of the collection, times 100, which
    lies between 0 and 100; outside both bands are masked. *)
Theorem validPixel_counts (band : string) (inside : bool)
    (first : ImageCollection.Image (option R))
    (rest : list (ImageCollection.Image (option R))) :
  let obj := first :: rest in
  let c := INR (length (List.filter (ImageCollection.valid_at band) obj)) in
  let pct := (c / INR (length obj) * 100)%R in
  band <> ""%string ->
  (forall i, In i obj -> is_Some (ImageCollection.lookup_band band i)) ->
  ImageCollection.validPixel band inside obj
  = Some (ImageCollection.mkImage
            [("valid"%string, if inside then Some c else None);
             ("pct_valid"%string, if inside then Some pct else None)] ∅)
  /\ (0 <= pct <= 100)%R.
Proof.
  intros obj c pct Hband Hall. split.
  - unfold ImageCollection.validPixel.
    apply String.eqb_neq in Hband. rewrite Hband. cbn [mbind option_bind].
    rewrite (mapM_fmap_Some _
               (fun i => ImageCollection.bandwise [band] (fun n => n)
                           (ImageCollection.pixel i) (ImageCollection.props i))).
    2:{ intros i Hi. apply select_present. intros n [<-|[]]. apply Hall. exact Hi. }
    cbn [mbind option_bind]. rewrite <- list_fmap_compose.
    rewrite (list_fmap_ext _
               (fun i => ImageCollection.mkImage
                           [(band, Some (if ImageCollection.valid_at band i then 1 else 0)%R)] ∅)
               obj).
    2:{ intros k i Hi. apply validPixel_flag. apply Hall.
        apply list_elem_of_In. eapply list_elem_of_lookup_2. exact Hi. }
    unfold ImageCollection.collection_sum.
    change (ImageCollection.reduce ImageCollection.Reducer_sum (fun n => n) _)
      with (ImageCollection.mkImage
              [(band, ImageCollection.Reducer_sum
                        (ImageCollection.band_stack band
                           ((fun i => ImageCollection.mkImage
                               [(band, Some (if ImageCollection.valid_at band i then 1 else 0)%R)] ∅)
                              <$> obj)))] ∅).
    unfold ImageCollection.Reducer_sum. rewrite flags_stack, total_flags. fold c.
    destruct inside; reflexivity.
  - assert (Hlen : (0 < INR (length obj))%R) by (apply lt_0_INR; simpl; lia).
    assert (Hc : (0 <= c <= INR (length obj))%R).
    { split; [apply pos_INR | apply le_INR, filter_length_le]. }
    unfold pct. split.
    + apply Rmult_le_pos; [|lra]. apply Rmult_le_pos; [lra|].
      apply Rlt_le, Rinv_0_lt_compat. exact Hlen.
    + assert (c / INR (length obj) <= 1)%R; [|lra].
      apply (Rmult_le_reg_r (INR (length obj))); [exact Hlen|].
      unfold Rdiv. rewrite Rmult_assoc, Rinv_l by lra. lra.
Qed.

Lemma validPixel_counts_witness :
  ImageCollection.validPixel "B1" true ICSamples.gappy
  = Some (ImageCollection.mkImage
            [("valid"%string,
              Some (INR (length (List.filter (ImageCollection.valid_at "B1") ICSamples.gappy))));
             ("pct_valid"%string,
              Some (INR (length (List.filter (ImageCollection.valid_at "B1") ICSamples.gappy))
                    / INR (length ICSamples.gappy) * 100)%R)] ∅)
  /\ (0 <= INR (length (List.filter (ImageCollection.valid_at "B1") ICSamples.gappy))
            / INR (length ICSamples.gappy) * 100 <= 100)%R.
Proof.
  apply (validPixel_counts "B1" true (ICSamples.pix 0 1)
           [ICSamples.masked_pix 1; ICSamples.pix 2 3]).
  - discriminate.
  - intros i [<-|[<-|[<-|[]]]]; eexists; reflexivity.
Defined.

(** ** ImageCollection: containsBandNames *)

Section ContainsBandNames.
Import ImageCollection.
Local Open Scope R_scope.

(** The blank multiplication keeps the bands and drops the properties. *)
Lemma multiply_one (i : Image (option R)) :
  multiply i (constant 1) = mkImage (bands i) ∅.
Proof.
  unfold multiply, binop, constant. cbn [bands]. f_equal.
  assert (H : (fun a : string * option R => (a.1, lift2 Rmult a.2 (Some 1))) <$> bands i
              = bands i).
  { induction (bands i) as [|[n v] bs IH]; [reflexivity|].
    cbn [fmap list_fmap fst snd]. rewrite IH. do 2 f_equal.
    destruct v as [x|]; [|reflexivity]. simpl. f_equal. lra. }
  destruct (bands i) as [|[n x] [|b bs]]; exact H.
Qed.

Lemma copyProperties_exclude_fresh (i : Image (option R)) (band_name : string) :
  props i !! band_name = None ->
  copyProperties_exclude (multiply i (constant 1)) i band_name
  = mkImage (bands i) (user_properties (props i)).
Proof.
  intros H. rewrite multiply_one. unfold copyProperties_exclude. cbn [bands props].
  rewrite delete_id by exact H. rewrite (right_id ∅ (∪)). reflexivity.
Qed.

Lemma filter_tagged {A B C} (tag : A -> B) (keep : B -> bool) (out : A * B -> C)
    (l : list A) :
  out <$> List.filter (fun t : A * B => keep t.2) ((fun a => (a, tag a)) <$> l)
  = (fun a => out (a, tag a)) <$> List.filter (fun a => keep (tag a)) l.
Proof.
  induction l as [|a l IH]; [reflexivity|].
  cbn [fmap list_fmap List.filter snd]. destruct (keep (tag a)); cbn [fmap list_fmap];
    rewrite <- IH; reflexivity.
Qed.

Lemma forallb_fmap {A} (f : A -> bool) (l : list A) :
  forallb (fun b : bool => b) (f <$> l) = forallb f l.
Proof. induction l as [|a l IH]; [reflexivity|]. simpl. rewrite <- IH. reflexivity. Qed.

Lemma existsb_fmap {A} (f : A -> bool) (l : list A) :
  existsb (fun b : bool => b) (f <$> l) = existsb f l.
Proof. induction l as [|a l IH]; [reflexivity|]. simpl. rewrite <- IH. reflexivity. Qed.

Lemma filter_ext_fmap {A B} (f g : A -> bool) (h k : A -> B) (l : list A) :
  (forall a, In a l -> f a = g a) -> (forall a, In a l -> h a = k a) ->
  h <$> List.filter f l = k <$> List.filter g l.
Proof.
  intros Hf Hh. induction l as [|a l IH]; [reflexivity|].
  cbn [List.filter]. rewrite <- (Hf a) by (left; reflexivity).
  assert (IH' : h <$> List.filter f l = k <$> List.filter g l).
  { apply IH; intros b Hb; [apply Hf | apply Hh]; right; exact Hb. }
  destruct (f a); [|exact IH'].
  cbn [fmap list_fmap]. rewrite (Hh a) by (left; reflexivity). f_equal. exact IH'.
Qed.

Lemma filter_sublist {A} (f g : A -> bool) (l : list A) :
  (forall a, f a = true -> g a = true) ->
  List.filter f l `sublist_of` List.filter g l.
Proof.
  intros H. induction l as [|a l IH]; [constructor|].
  cbn [List.filter]. destruct (f a) eqn:E.
  - rewrite (H a E). constructor. exact IH.
  - destruct (g a); [constructor|]; exact IH.
Qed.

End ContainsBandNames.

(** What the two filters return in the model: the images that pass, each
    with its bands and the properties that are not the engine's own. *)
Lemma containsBandNames_filtered (band_name : string) (bandNames_ : list string)
    (obj : list (ImageCollection.Image (option R))) :
  let kept (i : ImageCollection.Image (option R)) :=
    ImageCollection.mkImage (ImageCollection.bands i)
      (ImageCollection.user_properties (ImageCollection.props i)) in
  (forall i, In i obj -> ImageCollection.props i !! band_name = None) ->
  ImageCollection.containsAllBands band_name bandNames_ obj
  = Some (kept <$> List.filter
            (fun i => forallb (fun b => bool_decide (b ∈ ImageCollection.bandNames i))
                              bandNames_) obj)
  /\ ImageCollection.containsAnyBands band_name bandNames_ obj
     = Some (kept <$> List.filter
               (fun i => existsb (fun b => bool_decide (b ∈ ImageCollection.bandNames i))
                                 bandNames_) obj).
Proof.
  intros kept Hfresh.
  unfold ImageCollection.containsAllBands, ImageCollection.containsAnyBands,
    ImageCollection.containsBandNames.
  cbn [String.eqb Ascii.eqb Bool.eqb mbind option_bind].
  split; f_equal.
  - etrans;
      [exact (filter_tagged ImageCollection.bandNames
                (fun names => forallb (fun b : bool => b)
                                ((fun b => bool_decide (b ∈ names)) <$> bandNames_))
                (fun t => ImageCollection.copyProperties_exclude
                            (ImageCollection.multiply t.1 (ImageCollection.constant 1))
                            t.1 band_name) obj)|].
    cbn [fst snd].
    apply (filter_ext_fmap _
             (fun i => forallb (fun b => bool_decide (b ∈ ImageCollection.bandNames i))
                               bandNames_)
             _ kept).
    + intros i _. apply forallb_fmap.
    + intros i Hi. apply copyProperties_exclude_fresh, Hfresh, Hi.
  - etrans;
      [exact (filter_tagged ImageCollection.bandNames
                (fun names => existsb (fun b : bool => b)
                                ((fun b => bool_decide (b ∈ names)) <$> bandNames_))
                (fun t => ImageCollection.copyProperties_exclude
                            (ImageCollection.multiply t.1 (ImageCollection.constant 1))
                            t.1 band_name) obj)|].
    cbn [fst snd].
    apply (filter_ext_fmap _
             (fun i => existsb (fun b => bool_decide (b ∈ ImageCollection.bandNames i))
                               bandNames_)
             _ kept).
    + intros i _. apply existsb_fmap.
    + intros i Hi. apply copyProperties_exclude_fresh, Hfresh, Hi.
Qed.

Lemma Forall2_fmap_self {A B} (Q : A -> B -> Prop) (g : A -> B) (l : list A) :
  (forall a, Q a (g a)) -> Forall2 Q l (g <$> l).
Proof. intros H. induction l as [|a l IH]; constructor; [apply H | exact IH]. Qed.

Lemma user_properties_keep (i : ImageCollection.Image (option R)) :
  ImageCollection.keeps_user_content i
    (ImageCollection.mkImage (ImageCollection.bands i)
       (ImageCollection.user_properties (ImageCollection.props i))).
Proof.
  unfold ImageCollection.keeps_user_content, ImageCollection.user_properties.
  cbn [ImageCollection.bands ImageCollection.props].
  split; [reflexivity|]. split.
  - apply map_lookup_filter_None. right. intros x _. cbn [fst]. discriminate.
  - intros p Hp. destruct (ImageCollection.props i !! p) as [x|] eqn:E.
    + apply map_lookup_filter_Some. split; [exact E | exact Hp].
    + apply map_lookup_filter_None. left. exact E.
Qed.

(** X13. [containsAllBands] and [containsAnyBands], for a temporary
    property name that no image of the collection uses and a list of
    names that is not empty: the result has one image for each image of
    the collection that has all, respectively one, of the names among
    its bands, in their order; this image has the bands and the pixels
    of the original and its properties other than the engine's own, and
    it has no [system:time_start]: the blank multiplication drops the
    properties and [copyProperties] brings back only those that are not
    the engine's. *)
Theorem containsBandNames_keeps (band_name : string) (bandNames_ : list string)
    (obj : list (ImageCollection.Image (option R))) :
  bandNames_ <> [] ->
  (forall i, In i obj -> ImageCollection.props i !! band_name = None) ->
  exists all any,
    ImageCollection.containsAllBands band_name bandNames_ obj = Some all /\
    ImageCollection.containsAnyBands band_name bandNames_ obj = Some any /\
    Forall2 ImageCollection.keeps_user_content
      (List.filter
         (fun i => forallb (fun b => bool_decide (b ∈ ImageCollection.bandNames i))
                           bandNames_) obj)
      all /\
    Forall2 ImageCollection.keeps_user_content
      (List.filter
         (fun i => existsb (fun b => bool_decide (b ∈ ImageCollection.bandNames i))
                           bandNames_) obj)
      any.
Proof.
  intros _ Hfresh.
  destruct (containsBandNames_filtered band_name bandNames_ obj Hfresh) as [Hall Hany].
  eexists _, _. split; [exact Hall|]. split; [exact Hany|].
  split; apply Forall2_fmap_self; intros i; apply user_properties_keep.
Qed.

Lemma containsBandNames_keeps_witness :
  exists all any,
    ImageCollection.containsAllBands "tmp" ["B1"%string; ICSamples.drawn]
      [ICSamples.pix 0 1; ICSamples.scored 1 2] = Some all /\
    ImageCollection.containsAnyBands "tmp" ["B1"%string; ICSamples.drawn]
      [ICSamples.pix 0 1; ICSamples.scored 1 2] = Some any /\
    Forall2 ImageCollection.keeps_user_content [ICSamples.scored 1 2] all /\
    Forall2 ImageCollection.keeps_user_content
      [ICSamples.pix 0 1; ICSamples.scored 1 2] any.
Proof.
  apply (containsBandNames_keeps "tmp" ["B1"%string; ICSamples.drawn]
           [ICSamples.pix 0 1; ICSamples.scored 1 2]).
  - discriminate.
  - intros i [<-|[<-|[]]]; reflexivity.
Defined.

(** X14. Whatever the temporary property name, the images kept by
    [containsAllBands] are kept by [containsAnyBands], in the same order,
    when the list of names is not empty. *)
Theorem containsAllBands_within_any (band_name : string) (bandNames_ : list string)
    (obj : list (ImageCollection.Image (option R))) :
  bandNames_ <> [] ->
  exists all any,
    ImageCollection.containsAllBands band_name bandNames_ obj = Some all /\
    ImageCollection.containsAnyBands band_name bandNames_ obj = Some any /\
    all `sublist_of` any.
Proof.
  intros Hne.
  unfold ImageCollection.containsAllBands, ImageCollection.containsAnyBands,
    ImageCollection.containsBandNames.
  cbn [String.eqb Ascii.eqb Bool.eqb mbind option_bind].
  eexists _, _. split; [reflexivity|]. split; [reflexivity|].
  apply fmap_sublist, filter_sublist.
  intros [i names]. cbn [snd]. rewrite forallb_fmap, existsb_fmap.
  destruct bandNames_ as [|b l]; [contradiction|].
  simpl. intros H. apply andb_true_iff in H. destruct H as [-> _]. reflexivity.
Qed.

Lemma containsAllBands_within_any_witness :
  exists all any,
    ImageCollection.containsAllBands "tmp" ["B1"%string; ICSamples.drawn]
      [ICSamples.pix 0 1; ICSamples.scored 1 2] = Some all /\
    ImageCollection.containsAnyBands "tmp" ["B1"%string; ICSamples.drawn]
      [ICSamples.pix 0 1; ICSamples.scored 1 2] = Some any /\
    all `sublist_of` any.
Proof.
  apply (containsAllBands_within_any "tmp" ["B1"%string; ICSamples.drawn]
           [ICSamples.pix 0 1; ICSamples.scored 1 2]).
  discriminate.
Defined.

(** ** ImageCollection: aggregateArray *)

Section Dictionaries.
Import ImageCollection.
Context {V : Type}.

Lemma compare_refl_Eq (k : string) : String.compare k k = Eq.
Proof.
  pose proof (String.compare_antisym k k) as H.
  destruct (String.compare k k); simpl in H; [reflexivity | discriminate H | discriminate H].
Qed.

Lemma Dictionary_get_set (k : string) (v : V) (d : list (string * V)) (k' : string) :
  Dictionary_get (Dictionary_set k v d) k'
  = if String.eqb k k' then Some v else Dictionary_get d k'.
Proof.
  unfold Dictionary_get.
  induction d as [|[k0 v0] d IH]; simpl.
  - destruct (String.eqb k k'); reflexivity.
  - destruct (String.compare k k0) eqn:C; simpl.
    + apply String.compare_eq_iff in C. subst k0.
      destruct (String.eqb k k'); reflexivity.
    + destruct (String.eqb k k'); reflexivity.
    + destruct (String.eqb k0 k') eqn:E0.
      * apply String.eqb_eq in E0. subst k0.
        destruct (String.eqb k k') eqn:E; [|reflexivity].
        apply String.eqb_eq in E. subst k'. rewrite compare_refl_Eq in C. discriminate.
      * exact IH.
Qed.

Lemma Dictionary_get_fold (f : string -> V) (keys : list string)
    (d : list (string * V)) (k : string) :
  Dictionary_get
    (foldl (fun d (kv : string * V) => Dictionary_set kv.1 kv.2 d) d
           (zip keys (f <$> keys))) k
  = if bool_decide (k ∈ keys) then Some (f k) else Dictionary_get d k.
Proof.
  revert d. induction keys as [|a keys IH]; intros d; [reflexivity|].
  cbn [fmap list_fmap zip zip_with foldl fst snd]. rewrite IH.
  destruct (bool_decide (k ∈ keys)) eqn:E.
  - apply bool_decide_eq_true in E. rewrite bool_decide_eq_true_2; [reflexivity|].
    right. exact E.
  - apply bool_decide_eq_false in E. rewrite Dictionary_get_set.
    destruct (String.eqb a k) eqn:Ea.
    + apply String.eqb_eq in Ea. subst a.
      rewrite bool_decide_eq_true_2; [reflexivity | left].
    + apply String.eqb_neq in Ea. rewrite bool_decide_eq_false_2; [reflexivity|].
      intros H. apply elem_of_cons in H. destruct H as [H|H]; [congruence | exact (E H)].
Qed.

Lemma Dictionary_get_fromLists (f : string -> V) (keys : list string) (k : string) :
  Dictionary_get (Dictionary_fromLists keys (f <$> keys)) k
  = if bool_decide (k ∈ keys) then Some (f k) else None.
Proof. unfold Dictionary_fromLists. apply Dictionary_get_fold. Qed.

End Dictionaries.

(** X15. [aggregateArray]: under a key of the list asked for, the
    dictionary holds the values the images have for that property, in
    the order of the collection and skipping the images that lack it; it
    has no other key.  Without a list the keys are the properties of the
    first image, and an empty collection is an error. *)
Theorem aggregateArray_get {P} (obj : list (ImageCollection.Image P)) (k : string) :
  (forall keys, exists d,
      ImageCollection.aggregateArray (Some keys) obj = Some d /\
      ImageCollection.Dictionary_get d k
      = if bool_decide (k ∈ keys)
        then Some (ImageCollection.aggregate_values obj k) else None) /\
  (forall first rest, obj = first :: rest -> exists d,
      ImageCollection.aggregateArray None obj = Some d /\
      ImageCollection.Dictionary_get d k
      = match ImageCollection.props first !! k with
        | Some _ => Some (ImageCollection.aggregate_values obj k)
        | None => None
        end) /\
  (obj = [] -> ImageCollection.aggregateArray None obj = None).
Proof.
  split; [|split].
  - intros keys. eexists. split; [reflexivity|].
    apply (Dictionary_get_fromLists (fun p => ImageCollection.aggregate_values obj p)).
  - intros first rest ->. eexists. split; [reflexivity|].
    rewrite (Dictionary_get_fromLists
               (fun p => ImageCollection.aggregate_values (first :: rest) p)).
    unfold ImageCollection.propertyNames.
    destruct (ImageCollection.props first !! k) as [v|] eqn:E.
    + rewrite bool_decide_eq_true_2; [reflexivity|].
      apply list_elem_of_fmap. exists (k, v). split; [reflexivity|].
      apply elem_of_map_to_list. exact E.
    + rewrite bool_decide_eq_false_2; [reflexivity|].
      intros H. apply list_elem_of_fmap in H. destruct H as [[k' v] [-> H]].
      apply elem_of_map_to_list in H. simpl in E. congruence.
  - intros ->. reflexivity.
Qed.

Lemma aggregateArray_get_witness :
  exists d,
    ImageCollection.aggregateArray None [ICSamples.timed 5; ICSamples.timed 7] = Some d /\
    ImageCollection.Dictionary_get d "system:time_start"
    = Some [ImageCollection.PNum 5; ImageCollection.PNum 7].
Proof.
  destruct (aggregateArray_get [ICSamples.timed 5; ICSamples.timed 7] "system:time_start")
    as (_ & H & _).
  destruct (H (ICSamples.timed 5) [ICSamples.timed 7] eq_refl) as [d [Hd Hg]].
  exists d. split; [exact Hd | exact Hg].
Defined.

(** ** ImageCollection: reduceInterval *)

Section ReduceIntervalFacts.
Import ImageCollection.
Context {P : Type}.
Variable red : list P -> P.
Variable redName : string -> string.

Lemma rename_reduced (names : list string) (x : string -> P) ps :
  rename names (mkImage ((fun n => (redName n, x n)) <$> names) ps)
  = Some (mkImage ((fun n => (n, x n)) <$> names) ps).
Proof.
  unfold rename. cbn [bands props]. rewrite length_fmap, Nat.eqb_refl.
  do 2 f_equal.
  induction names as [|n names IH]; [reflexivity|].
  cbn [fmap list_fmap zip zip_with snd]. f_equal. exact IH.
Qed.

Lemma mapM_None_In {A B} (f : A -> option B) (l : list A) (a : A) :
  In a l -> f a = None -> mapM f l = None.
Proof.
  intros Hin Hf. destruct (mapM f l) as [r|] eqn:E; [|reflexivity].
  assert (H : is_Some (mapM f l)) by (rewrite E; eexists; reflexivity).
  apply mapM_is_Some in H. rewrite List.Forall_forall in H.
  specialize (H a Hin). simpl in H. rewrite Hf in H. destruct H as [? H]. discriminate H.
Qed.

End ReduceIntervalFacts.

(** X16. [reduceInterval] fails as soon as one interval of
    [groupInterval] holds no image: the reduction of an empty interval
    asks for the first element of an empty list of times. *)
Theorem reduceInterval_empty_interval {P} (red : list P -> P) (redName : string -> string)
    (unit : string) (duration : Z) (obj : list (ImageCollection.Image P))
    (intervals : list (list (ImageCollection.Image P))) :
  ImageCollection.groupInterval unit duration obj = Some intervals ->
  In [] intervals ->
  ImageCollection.reduceInterval red redName unit duration obj = None.
Proof.
  intros Hg Hin. unfold ImageCollection.reduceInterval. rewrite Hg.
  cbn [mbind option_bind].
  apply (mapM_None_In _ _ [] Hin). reflexivity.
Qed.

Lemma reduceInterval_empty_interval_witness :
  ImageCollection.reduceInterval (fun _ : list unit => tt) (fun n => n) "second" 1
    [ICSamples.timed 2000; ICSamples.timed 0] = None.
Proof.
  apply (reduceInterval_empty_interval _ _ "second" 1
           [ICSamples.timed 2000; ICSamples.timed 0] [[ICSamples.timed 0]; []]).
  - vm_compute. reflexivity.
  - right. left. reflexivity.
Defined.

(** X17. The image [reduceInterval] makes of an interval that is not
    empty and whose images all have a time: each band of the first image
    of the interval, under its own name, holds the reducer's output for
    the band; the properties are [system:time_start], the time of the
    first image, and [system:time_end], the time of the last one, and
    nothing else. *)
Theorem reduceInterval_reduce_image {P} (red : list P -> P) (redName : string -> string)
    (first : ImageCollection.Image P) (rest : list (ImageCollection.Image P)) :
  let ic := first :: rest in
  (forall i, In i ic ->
     exists t, ImageCollection.get_num i "system:time_start" = Some t) ->
  ImageCollection.reduceInterval_reduce red redName ic
  = Some (ImageCollection.mkImage
            ((fun n => (n, red (ImageCollection.band_stack n ic)))
               <$> ImageCollection.bandNames first)
            (<["system:time_end"%string :=
                 ImageCollection.PNum (ImageCollection.time_of (List.last ic first))]>
               (<["system:time_start"%string :=
                    ImageCollection.PNum (ImageCollection.time_of first)]> ∅))).
Proof.
  intros ic Htimed. unfold ImageCollection.reduceInterval_reduce.
  rewrite (aggregate_array_timed ic Htimed).
  assert (H0 : EE.List_get (List.map ImageCollection.time_of ic) 0
               = Some (ImageCollection.time_of first)) by apply List_get_first.
  assert (H1 : EE.List_get (List.map ImageCollection.time_of ic) (-1)
               = Some (ImageCollection.time_of (List.last ic first))).
  { rewrite (app_removelast_last first (l := ic)) at 1 by discriminate.
    rewrite List.map_app. apply List_get_last. }
  rewrite H0, H1. cbn [mbind option_bind fmap option_fmap option_map ImageCollection.first head].
  change (ImageCollection.reduce red redName ic)
    with (ImageCollection.mkImage
            ((fun n => (redName n, red (ImageCollection.band_stack n ic)))
               <$> ImageCollection.bandNames first) ∅).
  change (ImageCollection.first ic) with (Some first).
  cbn [mbind option_bind fmap option_fmap option_map].
  rewrite (rename_reduced redName (ImageCollection.bandNames first)
             (fun n => red (ImageCollection.band_stack n ic))).
  reflexivity.
Qed.

Lemma reduceInterval_reduce_image_witness :
  ImageCollection.reduceInterval_reduce ICSamples.sumRed (ImageCollection.suffix "sum")
    [ICSamples.scene 10 1 2; ICSamples.scene 20 3 4]
  = Some (ImageCollection.mkImage
            ((fun n => (n, ICSamples.sumRed
                             (ImageCollection.band_stack n
                                [ICSamples.scene 10 1 2; ICSamples.scene 20 3 4])))
               <$> ImageCollection.bandNames (ICSamples.scene 10 1 2))
            (<["system:time_end"%string :=
                 ImageCollection.PNum
                   (ImageCollection.time_of
                      (List.last [ICSamples.scene 10 1 2; ICSamples.scene 20 3 4]
                                 (ICSamples.scene 10 1 2)))]>
               (<["system:time_start"%string :=
                    ImageCollection.PNum
                      (ImageCollection.time_of (ICSamples.scene 10 1 2))]> ∅))).
Proof.
  apply (reduceInterval_reduce_image ICSamples.sumRed (ImageCollection.suffix "sum")
           (ICSamples.scene 10 1 2) [ICSamples.scene 20 3 4]).
  intros i [<-|[<-|[]]]; eexists; reflexivity.
Defined.

(** ** ImageCollection: closestDate *)

Section ClosestDate.
Import ImageCollection.

Lemma insert_number_In (x y : Z) (l : list Z) :
  In y (insert_number x l) <-> y = x \/ In y l.
Proof.
  induction l as [|z l IH]; simpl; [intuition congruence|].
  destruct (x <=? z); simpl; [intuition congruence|].
  rewrite IH. intuition congruence.
Qed.

Lemma List_sort_In (y : Z) (l : list Z) : In y (List_sort l) <-> In y l.
Proof.
  unfold List_sort. induction l as [|x l IH]; simpl; [reflexivity|].
  rewrite insert_number_In, IH. intuition congruence.
Qed.

Lemma last_valid_fold (acc : option R) (l : list (option R)) :
  foldl (fun acc v => match v with Some x => Some x | None => acc end) acc l = None
  <-> acc = None /\ forall v, In v l -> v = None.
Proof.
  revert acc. induction l as [|w l IH]; intros acc; simpl.
  - intuition.
  - rewrite IH. destruct w as [x|].
    + split; [intros [H _]; discriminate H|].
      intros [_ H]. specialize (H (Some x) (or_introl eq_refl)). discriminate H.
    + split; intros [Ha H]; (split; [exact Ha|]).
      * intros v [<-|Hv]; [reflexivity | apply H, Hv].
      * intros v Hv. apply H. right. exact Hv.
Qed.

Lemma last_valid_None (l : list (option R)) :
  last_valid l = None <-> forall v, In v l -> v = None.
Proof. unfold last_valid. rewrite last_valid_fold. intuition. Qed.

Lemma band_stack_masked (n : string) (ic : list (Image (option R))) :
  (forall v, In v (band_stack n ic) -> v = None)
  <-> forall i, In i ic -> valid_at n i = false.
Proof.
  unfold band_stack, valid_at. split.
  - intros H i Hi. destruct (lookup_band n i) as [[x|]|] eqn:E; try reflexivity.
    assert (Hin : In (Some x) (omap (lookup_band n) ic)).
    { apply list_elem_of_In, list_elem_of_omap. exists i.
      split; [apply list_elem_of_In, Hi | exact E]. }
    apply H in Hin. discriminate Hin.
  - intros H v Hv. apply list_elem_of_In in Hv. apply list_elem_of_omap in Hv.
    destruct Hv as (i & Hi & E). apply list_elem_of_In in Hi.
    specialize (H i Hi). rewrite E in H. destruct v; [discriminate H | reflexivity].
Qed.

Lemma until_In {P} (date : Z) (obj : list (Image P)) (i : Image P) :
  In i (until date obj)
  <-> In i obj /\ exists t, get_num i "system:time_start" = Some t /\ t <= date.
Proof.
  unfold until. rewrite filter_In. split; intros [Hi H]; (split; [exact Hi|]).
  - destruct (get_num i "system:time_start") as [t|]; [|discriminate H].
    exists t. split; [reflexivity | apply Z.leb_le, H].
  - destruct H as (t & -> & Ht). apply Z.leb_le, Ht.
Qed.

End ClosestDate.

(** X18. Every image of [closestDate] is the mosaic of the images up to
    one of the times of the collection; it has the bands of the first of
    them, and the pixel of a band is masked exactly when no image of the
    collection up to that time holds a valid pixel for the band: pixels
    that nothing fills stay masked. *)
Theorem closestDate_fill (obj : list (ImageCollection.Image (option R)))
    (img : ImageCollection.Image (option R)) :
  In img (ImageCollection.closestDate obj) ->
  exists date first rest,
    In date (ImageCollection.aggregate_array obj "system:time_start") /\
    ImageCollection.until date obj = first :: rest /\
    ImageCollection.bandNames img = ImageCollection.bandNames first /\
    forall n, In n (ImageCollection.bandNames first) ->
      (ImageCollection.pixel img n = None <->
       forall i t, In i obj ->
         ImageCollection.get_num i "system:time_start" = Some t -> t <= date ->
         ImageCollection.valid_at n i = false).
Proof.
  unfold ImageCollection.closestDate. intros Himg.
  apply list_elem_of_In in Himg. apply list_elem_of_fmap in Himg.
  destruct Himg as (date & -> & Hd).
  apply list_elem_of_In in Hd. apply (proj1 (List_sort_In _ _)) in Hd.
  assert (Hne : exists first rest, ImageCollection.until date obj = first :: rest).
  { pose proof Hd as Hd'. unfold ImageCollection.aggregate_array in Hd'.
    apply list_elem_of_In in Hd'. apply list_elem_of_omap in Hd'.
    destruct Hd' as (i & Hi & Ht).
    assert (Hin : In i (ImageCollection.until date obj)).
    { apply until_In. split; [apply list_elem_of_In, Hi|]. exists date. split; [exact Ht | lia]. }
    destruct (ImageCollection.until date obj) as [|f r]; [destruct Hin | eauto]. }
  destruct Hne as (first & rest & Hu).
  exists date, first, rest. split; [exact Hd|]. split; [exact Hu|].
  assert (Hm : ImageCollection.mosaic (ImageCollection.until date obj)
               = ImageCollection.bandwise (ImageCollection.bandNames first) (fun n => n)
                   (fun n => ImageCollection.last_valid
                               (ImageCollection.band_stack n (ImageCollection.until date obj)))
                   ∅).
  { rewrite Hu. reflexivity. }
  rewrite Hm. split; [rewrite bandNames_bandwise; apply list_fmap_id|].
  intros n Hn. unfold ImageCollection.pixel, ImageCollection.lookup_band,
    ImageCollection.bandwise. cbn [ImageCollection.bands].
  rewrite (find_fmap_key _ _ n Hn).
  match goal with
  | |- (_ = None <-> ?b) =>
    change (ImageCollection.last_valid
              (ImageCollection.band_stack n (ImageCollection.until date obj)) = None <-> b)
  end.
  rewrite last_valid_None, band_stack_masked. split.
  - intros H i t Hi Ht Hle. apply H. apply until_In. split; [exact Hi|].
    exists t. split; [exact Ht | exact Hle].
  - intros H i Hi. apply until_In in Hi. destruct Hi as (Hi & t & Ht & Hle).
    exact (H i t Hi Ht Hle).
Qed.

Lemma closestDate_fill_witness :
  exists date first rest,
    In date (ImageCollection.aggregate_array ICSamples.gappy "system:time_start") /\
    ImageCollection.until date ICSamples.gappy = first :: rest /\
    ImageCollection.bandNames
      (ImageCollection.mosaic (ImageCollection.until 1 ICSamples.gappy))
    = ImageCollection.bandNames first /\
    forall n, In n (ImageCollection.bandNames first) ->
      (ImageCollection.pixel
         (ImageCollection.mosaic (ImageCollection.until 1 ICSamples.gappy)) n = None <->
       forall i t, In i ICSamples.gappy ->
         ImageCollection.get_num i "system:time_start" = Some t -> t <= date ->
         ImageCollection.valid_at n i = false).
Proof.
  apply (closestDate_fill ICSamples.gappy
           (ImageCollection.mosaic (ImageCollection.until 1 ICSamples.gappy))).
  right. left. reflexivity.
Defined.

(** ** ImageCollection: append and iloc *)

Lemma List_pos_nonneg {A} (l : list A) (k : Z) :
  0 <= k < Z.of_nat (length l) -> EE.List_pos l k = Some (Z.to_nat k).
Proof.
  intros H. unfold EE.List_pos.
  replace (0 <=? k) with true by (symmetry; apply Z.leb_le; lia).
  replace (k <? Z.of_nat (length l)) with true by (symmetry; apply Z.ltb_lt; lia).
  reflexivity.
Qed.

Lemma merge_index_same {P} (prefix : string) (i : ImageCollection.Image P) :
  ImageCollection.same_but_index (ImageCollection.merge_index prefix i) i.
Proof.
  unfold ImageCollection.merge_index, ImageCollection.same_but_index.
  destruct (ImageCollection.props i !! "system:index"%string) as [[z|s]|];
    try (split; reflexivity).
  split; [reflexivity|]. intros p Hp. cbn [ImageCollection.set_prop ImageCollection.props].
  apply lookup_insert_ne. congruence.
Qed.

Lemma same_but_index_trans {P} (a b c : ImageCollection.Image P) :
  ImageCollection.same_but_index a b -> ImageCollection.same_but_index b c ->
  ImageCollection.same_but_index a c.
Proof.
  intros [Hb1 Hp1] [Hb2 Hp2]. split; [congruence|].
  intros p Hp. rewrite Hp1, Hp2 by exact Hp. reflexivity.
Qed.

(** X19. [iloc] after [append]: the image found at index -1, and at the
    index that is the former size, is the appended image, up to its
    [system:index]; at an index of the collection is the image that was
    there before, up to its [system:index] ([merge] marks the elements of
    its two collections with the prefixes [1_] and [2_]); an index
    further out is an error. *)
Theorem append_iloc {P} (obj : list (ImageCollection.Image P))
    (image : ImageCollection.Image P) :
  (exists r,
     ImageCollection.iloc (ImageCollection.append obj image) (-1) = Some r /\
     ImageCollection.iloc (ImageCollection.append obj image) (Z.of_nat (length obj))
     = Some r /\
     ImageCollection.same_but_index r image) /\
  (forall k i, 0 <= k < Z.of_nat (length obj) ->
     ImageCollection.iloc obj k = Some i ->
     exists r,
       ImageCollection.iloc (ImageCollection.append obj image) k = Some r /\
       ImageCollection.same_but_index r i) /\
  (forall k, Z.of_nat (length obj) < k \/ k < - Z.of_nat (length obj) - 1 ->
     ImageCollection.iloc (ImageCollection.append obj image) k = None).
Proof.
  unfold ImageCollection.iloc, ImageCollection.append, ImageCollection.merge,
    ImageCollection.fromImages.
  cbn [imap fmap list_fmap].
  set (last := ImageCollection.merge_index "2_"
                 (ImageCollection.set_prop image "system:index"
                    (ImageCollection.PStr (pretty 0%nat)))).
  assert (Hlen : length (ImageCollection.merge_index "1_" <$> obj) = length obj)
    by apply length_fmap.
  split; [|split].
  - exists last. split; [apply List_get_last|]. split.
    + unfold EE.List_get.
      rewrite List_pos_nonneg by (rewrite length_app, Hlen; simpl; lia).
      cbn [mbind option_bind]. rewrite Nat2Z.id.
      rewrite lookup_app_r by (rewrite Hlen; lia).
      rewrite Hlen, Nat.sub_diag. reflexivity.
    + apply (same_but_index_trans _ _ _ (merge_index_same "2_" _)).
      split; [reflexivity|]. intros p Hp.
      cbn [ImageCollection.set_prop ImageCollection.props].
      apply lookup_insert_ne. congruence.
  - intros k i Hk Hi. exists (ImageCollection.merge_index "1_" i).
    split; [|apply merge_index_same].
    revert Hi. unfold EE.List_get.
    rewrite !List_pos_nonneg by (rewrite ?length_app, ?Hlen; simpl; lia).
    cbn [mbind option_bind]. intros Hi.
    rewrite lookup_app_l by (rewrite Hlen; lia).
    rewrite list_lookup_fmap, Hi. reflexivity.
  - intros k Hk. unfold EE.List_get.
    rewrite List_pos_out_of_range by (rewrite length_app, Hlen; simpl; lia). reflexivity.
Qed.

Lemma append_iloc_witness :
  (exists r,
     ImageCollection.iloc
       (ImageCollection.append [ICSamples.timed 1; ICSamples.timed 2] (ICSamples.timed 3)) 1
     = Some r /\
     ImageCollection.same_but_index r (ICSamples.timed 2)) /\
  ImageCollection.iloc
    (ImageCollection.append [ICSamples.timed 1; ICSamples.timed 2] (ICSamples.timed 3)) 3
  = None.
Proof.
  destruct (append_iloc [ICSamples.timed 1; ICSamples.timed 2] (ICSamples.timed 3))
    as (_ & Hin & Hout).
  split; [apply Hin; [simpl; lia | reflexivity] | apply Hout; simpl; lia].
Defined.

(** ** ImageCollection: integral over a masked sample *)

Section IntegralMasked.
Import ImageCollection.
Variables (band time : string) (u : R).

Lemma select_band (i : Image (option R)) (v : option R) :
  lookup_band band i = Some v ->
  select [band] i = Some (mkImage [(band, v)] (props i)).
Proof. intros H. unfold select. simpl. rewrite H. reflexivity. Qed.

Lemma computeIntegral_step_any n oa ps m ov pl t (i : Image (option R)) t' ox :
  get_num (mkImage [(m, ov)] pl) time = Some t ->
  get_num i time = Some t' ->
  lookup_band band i = Some ox ->
  computeIntegral band time u i
    (mkIntegral (mkImage [(n, oa)] ps) (mkImage [(m, ov)] pl))
  = Some (mkIntegral
            (mkImage
               [(n, lift2 Rplus oa
                      (lift2 Rdiv
                         (lift2 Rmult (lift2 Rplus ov ox)
                                (Some ((IZR t' - IZR t) / u)%R))
                         (Some 2%R)))] ∅)
            (mkImage [(band, ox)] (props i))).
Proof.
  intros Ht Ht' Hb. unfold computeIntegral. rewrite (select_band i ox Hb).
  cbn [mbind option_bind last]. rewrite Ht. cbn [mbind option_bind].
  replace (get_num (mkImage [(band, ox)] (props i)) time) with (Some t')
    by (symmetry; exact Ht').
  reflexivity.
Qed.

Lemma lift2_None_l f (o : option R) : lift2 f None o = None.
Proof. reflexivity. Qed.

Lemma lift2_None_r f (o : option R) : lift2 f o None = None.
Proof. destruct o; reflexivity. Qed.

Lemma iterate_masked (ic : list (Image (option R))) :
  (forall i, In i ic -> is_Some (get_num i time) /\ is_Some (lookup_band band i)) ->
  forall n oa ps m ov pl t,
    get_num (mkImage [(m, ov)] pl) time = Some t ->
    exists r o,
      iterate (computeIntegral band time u) ic
        (mkIntegral (mkImage [(n, oa)] ps) (mkImage [(m, ov)] pl)) = Some r /\
      bands (sum r) = [(n, o)] /\
      (oa = None \/ (exists i, In i ic /\ lookup_band band i = Some None) -> o = None).
Proof.
  unfold iterate.
  induction ic as [|i ic IH]; intros Hall n oa ps m ov pl t Ht.
  - exists (mkIntegral (mkImage [(n, oa)] ps) (mkImage [(m, ov)] pl)), oa.
    split; [reflexivity|]. split; [reflexivity|].
    intros [H|(i & [] & _)]. exact H.
  - destruct (Hall i (or_introl eq_refl)) as [[t' Ht'] [ox Hox]].
    cbn [foldl mbind option_bind].
    rewrite (computeIntegral_step_any n oa ps m ov pl t i t' ox Ht Ht' Hox).
    destruct (IH (fun j Hj => Hall j (or_intror Hj)) n
                 (lift2 Rplus oa
                    (lift2 Rdiv
                       (lift2 Rmult (lift2 Rplus ov ox) (Some ((IZR t' - IZR t) / u)%R))
                       (Some 2%R)))
                 ∅ band ox (props i) t' Ht') as (r & o & Hr & Hb & Hnone).
    exists r, o. split; [exact Hr|]. split; [exact Hb|].
    intros H. apply Hnone.
    destruct H as [->|(j & [<-|Hj] & Hm)].
    + left. reflexivity.
    + left. rewrite Hox in Hm. injection Hm as ->.
      rewrite lift2_None_r. cbn [lift2]. apply lift2_None_r.
    + right. exists j. split; [exact Hj | exact Hm].
Qed.

End IntegralMasked.

(** X20. [integral] over a collection whose images all have the band
    and the time, for a unit it knows: when the pixel of the band is
    masked in one image, the integral is masked; no sample is skipped. *)
Theorem integral_masked_sample (band time unit : string)
    (first : ImageCollection.Image (option R))
    (rest : list (ImageCollection.Image (option R))) (u : R) :
  let ic := first :: rest in
  (forall i, In i ic ->
     is_Some (ImageCollection.get_num i time) /\
     is_Some (ImageCollection.lookup_band band i)) ->
  ImageCollection.intervals unit (ImageCollection.aggregate_min ic time)
                            (ImageCollection.aggregate_max ic time) = Some u ->
  (exists i, In i ic /\ ImageCollection.lookup_band band i = Some None) ->
  exists img,
    ImageCollection.integral band time unit ic = Some img /\
    ImageCollection.bands img = [("integral"%string, None)].
Proof.
  intros ic Hall Hu Hmasked.
  unfold ImageCollection.integral. rewrite Hu. cbn [mbind option_bind].
  unfold ImageCollection.integral_start, ImageCollection.copyProperties,
    ImageCollection.rename.
  cbn [ImageCollection.first head ic mbind option_bind ImageCollection.bands
       ImageCollection.props ImageCollection.constant length Nat.eqb
       fmap list_fmap zip zip_with snd].
  destruct (Hall first (or_introl eq_refl)) as [[t0 Ht0] _].
  destruct (iterate_masked band time u ic Hall "integral"%string (Some 0%R)
              (ImageCollection.props first ∪ ∅) "constant"%string (Some 0%R)
              (ImageCollection.props first ∪ ∅) t0) as (r & o & Hr & Hb & Hnone).
  { unfold ImageCollection.get_num. cbn [ImageCollection.props].
    rewrite (right_id_L ∅ (∪)). exact Ht0. }
  fold ic. rewrite Hr. cbn [mbind option_bind].
  exists (ImageCollection.sum r). split; [reflexivity|].
  rewrite Hb, (Hnone (or_intror Hmasked)). reflexivity.
Qed.

Lemma integral_masked_sample_witness :
  exists img,
    ImageCollection.integral "B1" "system:time_start" "second" ICSamples.gappy = Some img /\
    ImageCollection.bands img = [("integral"%string, None)].
Proof.
  apply (integral_masked_sample "B1" "system:time_start" "second"
           (ICSamples.pix 0 1) [ICSamples.masked_pix 1; ICSamples.pix 2 3] (IZR 1000)).
  - intros i [<-|[<-|[<-|[]]]]; split; eexists; reflexivity.
  - reflexivity.
  - exists (ICSamples.masked_pix 1). split; [right; left; reflexivity | reflexivity].
Defined.

(** ** ImageCollection: medoid on every collection *)

Lemma better_In (name : string) (ic : list (ImageCollection.Image (option R)))
    (best : option (R * ImageCollection.Image (option R)))
    (q : R) (i : ImageCollection.Image (option R)) :
  foldl (ImageCollection.better name) best ic = Some (q, i) ->
  best = Some (q, i) \/ In i ic /\ ImageCollection.quality name i = Some q.
Proof.
  revert best. induction ic as [|k ic IH]; intros best H; [left; exact H|].
  simpl in H. apply IH in H. destruct H as [H|[H Hq]]; [|right; split; [right; exact H | exact Hq]].
  unfold ImageCollection.better in H.
  destruct (ImageCollection.quality name k) as [qk|] eqn:E; [|left; exact H].
  destruct best as [[qb ib]|].
  - destruct (Rlt_dec qb qk); [|left; exact H].
    injection H as <- <-. right. split; [left; reflexivity | exact E].
  - injection H as <- <-. right. split; [left; reflexivity | exact E].
Qed.

(** X21. Whenever [medoid] returns an image and some pixel of the band
    of sums is valid, the image returned is made of the bands of a
    normalized image whose sum of distances to the others is the
    greatest of the collection: no image has a greater sum than the one
    kept. *)
Theorem medoid_keeps_greatest_sum (sumOfDistancesName : string)
    (first : ImageCollection.Image (option R))
    (rest : list (ImageCollection.Image (option R)))
    (img : ImageCollection.Image (option R)) :
  let obj := first :: rest in
  ImageCollection.medoid sumOfDistancesName obj = Some img ->
  exists normalized scored,
    mapM (ImageCollection.normalizeBands (ImageCollection.bandNames first)
            (ImageCollection.reduce_minMax obj)) obj = Some normalized /\
    mapM (ImageCollection.computeSumDistance sumOfDistancesName normalized) normalized
    = Some scored /\
    forall q best,
      foldl (ImageCollection.better sumOfDistancesName) None scored = Some (q, best) ->
      In best scored /\
      ImageCollection.quality sumOfDistancesName best = Some q /\
      ImageCollection.select (ImageCollection.bandNames first)
        (ImageCollection.mkImage (ImageCollection.bands best) ∅) = Some img /\
      forall j qj, In j scored ->
        ImageCollection.quality sumOfDistancesName j = Some qj -> (qj <= q)%R.
Proof.
  intros obj. unfold ImageCollection.medoid.
  change (ImageCollection.first obj) with (Some first). cbn [mbind option_bind].
  destruct (mapM (ImageCollection.normalizeBands (ImageCollection.bandNames first)
                    (ImageCollection.reduce_minMax obj)) obj) as [normalized|] eqn:En;
    [|discriminate].
  cbn [mbind option_bind].
  destruct (mapM (ImageCollection.computeSumDistance sumOfDistancesName normalized)
                 normalized) as [scored|] eqn:Es; [|discriminate].
  cbn [mbind option_bind]. intros Hsel.
  exists normalized, scored. split; [reflexivity|]. split; [exact Es|].
  intros q best Hbest.
  destruct (better_In _ _ _ _ _ Hbest) as [H|[Hin Hq]]; [discriminate H|].
  split; [exact Hin|]. split; [exact Hq|]. split.
  - unfold ImageCollection.qualityMosaic in Hsel. rewrite Hbest in Hsel. exact Hsel.
  - intros j qj Hj Hqj. eapply qualityMosaic_greatest; eassumption.
Qed.

Lemma medoid_keeps_greatest_sum_witness :
  exists normalized scored,
    mapM (ImageCollection.normalizeBands (ImageCollection.bandNames (ICSamples.pix 0 0))
            (ImageCollection.reduce_minMax ICSamples.triple)) ICSamples.triple
    = Some normalized /\
    mapM (ImageCollection.computeSumDistance ICSamples.drawn normalized) normalized
    = Some scored /\
    forall q best,
      foldl (ImageCollection.better ICSamples.drawn) None scored = Some (q, best) ->
      In best scored /\
      ImageCollection.quality ICSamples.drawn best = Some q /\
      ImageCollection.select (ImageCollection.bandNames (ICSamples.pix 0 0))
        (ImageCollection.mkImage (ImageCollection.bands best) ∅)
      = Some (ICSamples.norm1 1) /\
      forall j qj, In j scored ->
        ImageCollection.quality ICSamples.drawn j = Some qj -> (qj <= q)%R.
Proof.
  apply (medoid_keeps_greatest_sum ICSamples.drawn (ICSamples.pix 0 0)
           [ICSamples.pix 1 1; ICSamples.pix 2 10] (ICSamples.norm1 1)).
  unfold ImageCollection.medoid.
  change (ImageCollection.first [ICSamples.pix 0 0; ICSamples.pix 1 1; ICSamples.pix 2 10])
    with (Some (ICSamples.pix 0 0)).
  cbn [mbind option_bind].
  change (ImageCollection.bandNames (ICSamples.pix 0 0)) with ["B1"%string].
  cbv zeta. fold ICSamples.triple.
  rewrite triple_normalized. cbn [mbind option_bind].
  rewrite triple_scored. cbn [mbind option_bind].
  rewrite triple_mosaic. reflexivity.
Defined.

(** ** ImageCollection: the intervals of groupInterval *)

Lemma StronglySorted_filter {A} (R : A -> A -> Prop) (f : A -> bool) (l : list A) :
  StronglySorted R l -> StronglySorted R (List.filter f l).
Proof.
  induction 1 as [|a l Hs IH Ha]; simpl; [constructor|].
  destruct (f a); [|exact IH]. constructor; [exact IH|].
  rewrite List.Forall_forall in *. intros x Hx. apply filter_In in Hx.
  apply Ha. exact (proj1 Hx).
Qed.

(** X22. [groupInterval] on an empty collection is an error.  When it
    returns, every interval is sorted by time and holds images of the
    collection only, each with a time. *)
Theorem groupInterval_intervals {P} (unit : string) (duration : Z)
    (obj : list (ImageCollection.Image P))
    (intervals : list (list (ImageCollection.Image P))) :
  ImageCollection.groupInterval unit duration obj = Some intervals ->
  obj <> [] /\
  forall b, In b intervals ->
    StronglySorted (ImageCollection.key_le "system:time_start") b /\
    forall i, In i b ->
      In i obj /\ is_Some (ImageCollection.get_num i "system:time_start").
Proof.
  intros H. split.
  - intros ->. discriminate H.
  - unfold ImageCollection.groupInterval in H.
    destruct (EE.List_get _ 0) as [start|]; [|discriminate H].
    cbn [mbind option_bind] in H.
    destruct (EE.List_get _ (-1)) as [end_|]; [|discriminate H].
    cbn [mbind option_bind] in H.
    destruct (ImageCollection.DateRange_split start end_ duration unit) as [ranges|];
      [|discriminate H].
    cbn [mbind option_bind] in H. injection H as <-.
    intros b Hb. apply in_map_iff in Hb. destruct Hb as (dr & <- & _). split.
    + apply StronglySorted_filter, sort_sorted.
    + intros i Hi. unfold ImageCollection.filterDate in Hi. apply filter_In in Hi.
      destruct Hi as [Hi Ht]. split; [apply (sort_In "system:time_start"), Hi|].
      destruct (ImageCollection.get_num i "system:time_start") as [t|];
        [eexists; reflexivity | discriminate Ht].
Qed.

Lemma groupInterval_intervals_witness :
  [ICSamples.timed 2000; ICSamples.timed 0] <> [] /\
  forall b, In b [[ICSamples.timed 0]; []] ->
    StronglySorted (ImageCollection.key_le "system:time_start") b /\
    forall i, In i b ->
      In i [ICSamples.timed 2000; ICSamples.timed 0] /\
      is_Some (ImageCollection.get_num i "system:time_start").
Proof.
  apply (groupInterval_intervals "second" 1 [ICSamples.timed 2000; ICSamples.timed 0]
           [[ICSamples.timed 0]; []]).
  vm_compute. reflexivity.
Defined.

(** ** ImageCollection: datesByBands *)

Section DatesByBandsFacts.
Import ImageCollection.
Context {P V : Type}.
Variable spatial : P -> V.
Variable Date_format : Z -> string.

Lemma omap_lookup_total {A B} (f : A -> option B) (l : list A) (j : nat) :
  (forall x, In x l -> is_Some (f x)) -> omap f l !! j = l !! j ≫= f.
Proof.
  revert j. induction l as [|a l IH]; intros j H; [reflexivity|].
  destruct (H a (or_introl eq_refl)) as [b Hb].
  cbn [omap list_omap]. rewrite Hb.
  destruct j as [|j]; [symmetry; exact Hb|].
  apply IH. intros x Hx. apply H. right. exact Hx.
Qed.

Lemma omap_length_total {A B} (f : A -> option B) (l : list A) :
  (forall x, In x l -> is_Some (f x)) -> length (omap f l) = length l.
Proof.
  induction l as [|a l IH]; intros H; [reflexivity|].
  destruct (H a (or_introl eq_refl)) as [b Hb].
  cbn [omap list_omap]. rewrite Hb. simpl. f_equal.
  apply IH. intros x Hx. apply H. right. exact Hx.
Qed.

Lemma find_zip_NoDup {W} (ls : list string) (vs : list W) (k : nat) (l : string) (v : W) :
  NoDup ls -> ls !! k = Some l -> vs !! k = Some v ->
  List.find (fun b : string * W => String.eqb b.1 l) (zip ls vs) = Some (l, v).
Proof.
  revert vs k. induction ls as [|a ls IH]; intros vs k Hnd Hl Hv;
    [rewrite lookup_nil in Hl; discriminate Hl|].
  destruct vs as [|w vs]; [rewrite lookup_nil in Hv; discriminate Hv|].
  apply NoDup_cons in Hnd. destruct Hnd as [Hnotin Hnd].
  destruct k as [|k]; simpl in Hl, Hv.
  - injection Hl as ->. injection Hv as ->. simpl. rewrite String.eqb_refl. reflexivity.
  - simpl. destruct (String.eqb a l) eqn:E.
    + apply String.eqb_eq in E. subst a. exfalso. apply Hnotin.
      eapply list_elem_of_lookup_2. exact Hl.
    + eapply IH; eassumption.
Qed.

Lemma Dictionary_get_fold_notin {W} (keys : list string) (values : list W)
    (d : list (string * W)) (key : string) :
  key ∉ keys ->
  Dictionary_get
    (foldl (fun d (kv : string * W) => Dictionary_set kv.1 kv.2 d) d (zip keys values)) key
  = Dictionary_get d key.
Proof.
  revert values d. induction keys as [|a keys IH]; intros values d H; [reflexivity|].
  destruct values as [|w values]; [reflexivity|].
  cbn [zip zip_with foldl fst snd]. rewrite IH by (intros Hk; apply H; right; exact Hk).
  rewrite Dictionary_get_set.
  destruct (String.eqb a key) eqn:E; [|reflexivity].
  apply String.eqb_eq in E. subst a. exfalso. apply H. left.
Qed.

Lemma Dictionary_get_fromLists_NoDup {W} (keys : list string) (values : list W)
    (k : nat) (key : string) (v : W) :
  NoDup keys -> keys !! k = Some key -> values !! k = Some v ->
  Dictionary_get (Dictionary_fromLists keys values) key = Some v.
Proof.
  unfold Dictionary_fromLists. generalize (@nil (string * W)) as d.
  revert values k. induction keys as [|a keys IH]; intros values k d Hnd Hk Hv;
    [rewrite lookup_nil in Hk; discriminate Hk|].
  destruct values as [|w values]; [rewrite lookup_nil in Hv; discriminate Hv|].
  apply NoDup_cons in Hnd. destruct Hnd as [Hnotin Hnd].
  cbn [zip zip_with foldl fst snd].
  destruct k as [|k]; simpl in Hk, Hv.
  - injection Hk as ->. injection Hv as ->.
    rewrite Dictionary_get_fold_notin by exact Hnotin.
    rewrite Dictionary_get_set, String.eqb_refl. reflexivity.
  - eapply IH; eassumption.
Qed.

(** The image of the collection restricted to [bs] and renamed to [ls]. *)
Lemma select_rename (bs ls : list string) (i : Image P) :
  length bs = length ls ->
  (forall b, In b bs -> is_Some (lookup_band b i)) ->
  select bs i ≫= rename ls
  = Some (mkImage (zip ls (omap (fun b => lookup_band b i) bs)) (props i)).
Proof.
  intros Hlen Hall. unfold select.
  assert (Hm : mapM (fun n => pair n <$> lookup_band n i) bs
               = Some (zip bs (omap (fun b => lookup_band b i) bs))).
  { clear Hlen. induction bs as [|b bs IH]; [reflexivity|].
    destruct (Hall b (or_introl eq_refl)) as [v Hv].
    cbn [mapM omap list_omap]. rewrite Hv. cbn [fmap option_fmap option_map mbind option_bind].
    rewrite IH by (intros c Hc; apply Hall; right; exact Hc). reflexivity. }
  rewrite Hm. cbn [mbind option_bind]. unfold rename. cbn [bands props].
  assert (Hl : length (omap (fun b => lookup_band b i) bs) = length bs)
    by (apply omap_length_total; exact Hall).
  rewrite length_zip, Hl, Nat.min_id, <- Hlen, Nat.eqb_refl.
  rewrite snd_zip by lia. reflexivity.
Qed.

Lemma lookup_band_zip (ls : list string) (vs : list P) ps (k : nat) (l : string) (v : P) :
  NoDup ls -> ls !! k = Some l -> vs !! k = Some v ->
  lookup_band l (mkImage (zip ls vs) ps) = Some v.
Proof.
  intros Hnd Hl Hv. unfold lookup_band. cbn [bands].
  rewrite (find_zip_NoDup ls vs k l v Hnd Hl Hv). reflexivity.
Qed.

Lemma select_single (l : string) (c : Image P) :
  is_Some (lookup_band l c) ->
  select [l] c = Some (mkImage (pair l <$> option_list (lookup_band l c)) (props c)).
Proof. intros [v Hv]. unfold select. cbn [mapM]. rewrite Hv. reflexivity. Qed.

Lemma toBands_values (g : nat -> string -> string) (sel : list (Image P)) :
  (mjoin (imap (fun k i => (fun b : string * P => (g k b.1, b.2)) <$> bands i) sel)).*2
  = mjoin ((fun i => (bands i).*2) <$> sel).
Proof.
  revert g. induction sel as [|i sel IH]; intros g; [reflexivity|].
  cbn [imap fmap list_fmap mjoin list_join]. rewrite fmap_app. f_equal.
  - rewrite <- list_fmap_compose. reflexivity.
  - apply (IH (fun k => g (S k))).
Qed.

Lemma single_values (l : string) (ic : list (Image P)) :
  mjoin ((fun i : Image P => (bands i).*2)
           <$> ((fun c => mkImage (pair l <$> option_list (lookup_band l c)) (props c))
                  <$> ic))
  = band_stack l ic.
Proof.
  rewrite <- list_fmap_compose. unfold band_stack.
  induction ic as [|c ic IH]; [reflexivity|].
  rewrite fmap_cons.
  match goal with
  | |- mjoin (?x :: ?r) = _ => change (mjoin (x :: r)) with (x ++ mjoin r)
  end.
  rewrite IH. cbn [compose bands omap list_omap].
  destruct (lookup_band l c); reflexivity.
Qed.

Lemma rename_values (names : list string) (img : Image P) :
  length names = length (bands img) ->
  rename names img = Some (mkImage (zip names (bands img).*2) (props img)).
Proof. intros H. unfold rename. rewrite H, Nat.eqb_refl. reflexivity. Qed.

End DatesByBandsFacts.

Section DatesByBandsValue.
Import ImageCollection.
Context {P V : Type}.
Variable spatial : P -> V.
Variable Date_format : Z -> string.
Variables (dateProperty : string) (bs ls : list string) (obj : list (Image P)).
Hypothesis Hlen : length bs = length ls.
Hypothesis Hnd : NoDup ls.
Hypothesis Hbands : forall i b, In i obj -> In b bs -> is_Some (lookup_band b i).
Hypothesis Hdates : forall i, In i obj -> is_Some (get_num i dateProperty).

(** The collection restricted to [bs] and renamed to [ls]. *)
Lemma relabelled_band (i : Image P) (k : nat) (b l : string) (v : P) :
  In i obj -> bs !! k = Some b -> ls !! k = Some l -> lookup_band b i = Some v ->
  lookup_band l (mkImage (zip ls (omap (fun b => lookup_band b i) bs)) (props i))
  = Some v.
Proof.
  intros Hi Hb Hl Hv. apply (lookup_band_zip ls _ _ k l v Hnd Hl).
  rewrite omap_lookup_total by (intros x Hx; apply Hbands; assumption).
  rewrite Hb. exact Hv.
Qed.

Lemma relabelled_present (i : Image P) (l : string) :
  In i obj -> In l ls ->
  is_Some (lookup_band l
             (mkImage (zip ls (omap (fun b => lookup_band b i) bs)) (props i))).
Proof.
  intros Hi Hl. apply list_elem_of_In, list_elem_of_lookup_1 in Hl.
  destruct Hl as [k Hk].
  assert (Hb : is_Some (bs !! k)).
  { apply lookup_lt_is_Some. rewrite Hlen. eapply lookup_lt_Some. exact Hk. }
  destruct Hb as [b Hb].
  destruct (Hbands i b Hi) as [v Hv].
  { apply list_elem_of_In. eapply list_elem_of_lookup_2. exact Hb. }
  exists v. eapply relabelled_band; eassumption.
Qed.

Lemma aggregate_array_relabelled (f : Image P -> Image P) (p : string)
    (l0 : list (Image P)) :
  (forall i, props (f i) = props i) ->
  aggregate_array (f <$> l0) p = aggregate_array l0 p.
Proof.
  intros H. unfold aggregate_array.
  induction l0 as [|i l IH]; [reflexivity|].
  rewrite fmap_cons. cbn [omap list_omap]. rewrite IH.
  unfold get_num. rewrite H. reflexivity.
Qed.

End DatesByBandsValue.

(** X23. [datesByBands] with bands and labels of the same length, the
    labels distinct, on a collection whose images all have the bands and
    the date property, the formatted dates being distinct: the
    dictionary holds, under the label of a band and then under the
    formatted date of an image, the reduction of that band of that
    image. *)
Theorem datesByBands_value {P V} (spatial : P -> V) (Date_format : Z -> string)
    (dateProperty : string) (bs ls : list string)
    (obj : list (ImageCollection.Image P)) :
  bs <> [] -> ls <> [] -> length bs = length ls -> NoDup ls ->
  (forall i b, In i obj -> In b bs -> is_Some (ImageCollection.lookup_band b i)) ->
  (forall i, In i obj -> is_Some (ImageCollection.get_num i dateProperty)) ->
  NoDup (Date_format <$> ImageCollection.aggregate_array obj dateProperty) ->
  exists d,
    ImageCollection.datesByBands spatial Date_format dateProperty bs ls obj = Some d /\
    forall k b l j i t v,
      bs !! k = Some b -> ls !! k = Some l -> obj !! j = Some i ->
      ImageCollection.get_num i dateProperty = Some t ->
      ImageCollection.lookup_band b i = Some v ->
      exists dl,
        ImageCollection.Dictionary_get d l = Some dl /\
        ImageCollection.Dictionary_get dl (Date_format t) = Some (spatial v).
Proof.
  intros Hbs Hls Hlen Hnd Hbands Hdates Hndd.
  unfold ImageCollection.datesByBands.
  replace (match bs with [] => ImageCollection.bandNames <$> ImageCollection.first obj
                    | _ :: _ => Some bs end)
    with (Some bs) by (destruct bs; [contradiction | reflexivity]).
  cbn [mbind option_bind].
  replace (match ls with [] => bs | _ :: _ => ls end)
    with ls by (destruct ls; [contradiction | reflexivity]).
  set (relabel := fun i : ImageCollection.Image P =>
         ImageCollection.mkImage
           (zip ls (omap (fun b => ImageCollection.lookup_band b i) bs))
           (ImageCollection.props i)).
  rewrite (mapM_fmap_Some _ relabel)
    by (intros i Hi; apply select_rename; [exact Hlen | intros b Hb; apply Hbands; assumption]).
  cbn [mbind option_bind].
  rewrite (aggregate_array_relabelled relabel dateProperty obj) by reflexivity.
  set (ic := relabel <$> obj).
  set (dateList := Date_format <$> ImageCollection.aggregate_array obj dateProperty).
  assert (Hdl : length dateList = length obj).
  { unfold dateList, ImageCollection.aggregate_array.
    rewrite length_fmap. apply omap_length_total. exact Hdates. }
  assert (Hpresent : forall l c, In l ls -> In c ic ->
            is_Some (ImageCollection.lookup_band l c)).
  { intros l c Hl Hc. unfold ic in Hc.
    apply list_elem_of_In in Hc. apply list_elem_of_fmap in Hc.
    destruct Hc as (i & -> & Hi). apply list_elem_of_In in Hi.
    apply (relabelled_present bs ls obj Hlen Hnd Hbands i l Hi Hl). }
  assert (Hstack : forall l, In l ls ->
            length (ImageCollection.band_stack l ic) = length obj).
  { intros l Hl. unfold ImageCollection.band_stack.
    rewrite omap_length_total by (intros c Hc; apply Hpresent; assumption).
    unfold ic. apply length_fmap. }
  set (dict := fun l : string =>
         ImageCollection.Dictionary_fromLists dateList
           (spatial <$> ImageCollection.band_stack l ic)).
  rewrite (mapM_fmap_Some _ dict).
  2:{ intros l Hl.
      rewrite (mapM_fmap_Some _
                 (fun c => ImageCollection.mkImage
                             (pair l <$> option_list (ImageCollection.lookup_band l c))
                             (ImageCollection.props c)))
        by (intros c Hc; apply select_single, Hpresent; assumption).
      cbn [mbind option_bind].
      assert (Hvals : (ImageCollection.bands
                         (ImageCollection.toBands
                            ((fun c => ImageCollection.mkImage
                                (pair l <$> option_list (ImageCollection.lookup_band l c))
                                (ImageCollection.props c)) <$> ic))).*2
                      = ImageCollection.band_stack l ic).
      { unfold ImageCollection.toBands. cbn [ImageCollection.bands].
        rewrite (toBands_values (fun k n => (pretty k +:+ "_" +:+ n)%string)).
        apply single_values. }
      rewrite rename_values
        by (rewrite <- (length_fmap snd), Hvals, Hstack by exact Hl; exact Hdl).
      cbn [mbind option_bind]. rewrite Hvals.
      unfold ImageCollection.Image_reduceRegion, ImageCollection.bandNames, dict.
      cbn [ImageCollection.bands].
      rewrite fst_zip by (rewrite Hstack by exact Hl; lia).
      rewrite snd_zip by (rewrite Hstack by exact Hl; lia).
      reflexivity. }
  cbn [mbind option_bind].
  eexists. split; [reflexivity|].
  intros k b l j i t v Hb Hl Hj Ht Hv.
  assert (Hi : In i obj) by (apply list_elem_of_In; eapply list_elem_of_lookup_2; exact Hj).
  assert (Hlin : In l ls) by (apply list_elem_of_In; eapply list_elem_of_lookup_2; exact Hl).
  exists (dict l). split.
  - rewrite (Dictionary_get_fromLists dict ls l).
    rewrite bool_decide_eq_true_2; [reflexivity|]. apply list_elem_of_In. exact Hlin.
  - unfold dict. apply (Dictionary_get_fromLists_NoDup dateList _ j).
    + exact Hndd.
    + unfold dateList, ImageCollection.aggregate_array.
      rewrite list_lookup_fmap, omap_lookup_total by exact Hdates.
      rewrite Hj. cbn [mbind option_bind]. rewrite Ht. reflexivity.
    + rewrite list_lookup_fmap. unfold ImageCollection.band_stack.
      rewrite omap_lookup_total by (intros c Hc; apply Hpresent; assumption).
      unfold ic. rewrite list_lookup_fmap, Hj. cbn [fmap option_fmap option_map mbind option_bind].
      unfold relabel.
      rewrite (relabelled_band bs ls obj Hnd Hbands i k b l v Hi Hb Hl Hv). reflexivity.
Qed.

Lemma datesByBands_value_witness :
  exists d,
    ImageCollection.datesByBands (fun x : Z => x) (fun t : Z => pretty t)
      "system:time_start" ["B1"; "B2"]%string ["b1"; "b2"]%string
      [ICSamples.scene 0 1 2; ICSamples.scene ICSamples.day_ms 3 4] = Some d /\
    forall k b l j i t v,
      ["B1"; "B2"]%string !! k = Some b -> ["b1"; "b2"]%string !! k = Some l ->
      [ICSamples.scene 0 1 2; ICSamples.scene ICSamples.day_ms 3 4] !! j = Some i ->
      ImageCollection.get_num i "system:time_start" = Some t ->
      ImageCollection.lookup_band b i = Some v ->
      exists dl,
        ImageCollection.Dictionary_get d l = Some dl /\
        ImageCollection.Dictionary_get dl (pretty t) = Some v.
Proof.
  apply (datesByBands_value (fun x : Z => x) (fun t : Z => pretty t)
           "system:time_start" ["B1"; "B2"]%string ["b1"; "b2"]%string
           [ICSamples.scene 0 1 2; ICSamples.scene ICSamples.day_ms 3 4]).
  - discriminate.
  - discriminate.
  - reflexivity.
  - apply (bool_decide_unpack _). vm_compute. exact I.
  - intros i b [<-|[<-|[]]] [<-|[<-|[]]]; eexists; reflexivity.
  - intros i [<-|[<-|[]]]; eexists; reflexivity.
  - apply (bool_decide_unpack _). vm_compute. exact I.
Defined.

(** ** ImageCollection: outliers with drop *)

Section OutliersDrop.
Import ImageCollection.
Local Open Scope R_scope.

Lemma lookup_band_app_l {P} (n : string) (a b : list (string * P)) ps qs :
  is_Some (lookup_band n (mkImage a ps)) ->
  lookup_band n (mkImage (a ++ b) qs) = lookup_band n (mkImage a ps).
Proof.
  unfold lookup_band. cbn [bands]. intros [v Hv].
  induction a as [|[m w] a IH]; [discriminate Hv|].
  simpl in *. destruct (String.eqb m n); [reflexivity | exact (IH Hv)].
Qed.

Lemma lookup_band_app_r {P} (n : string) (a b : list (string * P)) ps qs :
  n ∉ a.*1 ->
  lookup_band n (mkImage (a ++ b) qs) = lookup_band n (mkImage b ps).
Proof.
  unfold lookup_band. cbn [bands]. intros H.
  induction a as [|[m w] a IH]; [reflexivity|].
  simpl. destruct (String.eqb m n) eqn:E.
  - apply String.eqb_eq in E. subst m. exfalso. apply H. left.
  - apply IH. intros Hn. apply H. right. exact Hn.
Qed.

Lemma lookup_band_absent {P} (n : string) (i : Image P) :
  n ∉ bandNames i -> lookup_band n i = None.
Proof.
  unfold lookup_band, bandNames. intros H.
  induction (bands i) as [|[m w] a IH]; [reflexivity|].
  simpl. destruct (String.eqb m n) eqn:E.
  - apply String.eqb_eq in E. subst m. exfalso. apply H. left.
  - apply IH. intros Hn. apply H. right. exact Hn.
Qed.

Lemma find_fmap_inj {P} (g : string -> string) (v : string -> P)
    (names : list string) (n : string) :
  (forall m, g m = g n -> m = n) -> In n names ->
  List.find (fun b : string * P => String.eqb b.1 (g n)) ((fun m => (g m, v m)) <$> names)
  = Some (g n, v n).
Proof.
  intros Hinj. induction names as [|m names IH]; intros H; [destruct H|].
  simpl. destruct (String.eqb (g m) (g n)) eqn:E.
  - apply String.eqb_eq in E. apply Hinj in E. subst m. reflexivity.
  - destruct H as [->|H]; [rewrite String.eqb_refl in E; discriminate E|].
    apply IH. exact H.
Qed.

Lemma mapM_fmap_fmap_Some {A B C} (f : B -> option C) (g : A -> B) (h : A -> C)
    (l : list A) :
  (forall x, In x l -> f (g x) = Some (h x)) -> mapM f (g <$> l) = Some (h <$> l).
Proof.
  induction l as [|x l IH]; intros H; [reflexivity|].
  rewrite !fmap_cons. cbn [mapM]. rewrite (H x) by (left; reflexivity).
  cbn [mbind option_bind].
  rewrite IH by (intros y Hy; apply H; right; exact Hy). reflexivity.
Qed.

Lemma outlier_name_inj (m n : string) :
  (m +:+ "_outlier")%string = (n +:+ "_outlier")%string -> m = n.
Proof.
  revert n. induction m as [|c m IH]; intros [|d n] H.
  - reflexivity.
  - apply (f_equal String.length) in H. rewrite !string_length_append in H.
    simpl in H. lia.
  - apply (f_equal String.length) in H. rewrite !string_length_append in H.
    simpl in H. lia.
  - cbn [String.append] in H. injection H as -> H. f_equal. apply IH. exact H.
Qed.

Lemma unop_bandwise f {A} (l : list A) g x ps :
  unop f (bandwise l g x ps) = bandwise l g (fun n => f <$> x n) ∅.
Proof.
  unfold unop, bandwise. cbn [bands]. rewrite <- list_fmap_compose. reflexivity.
Qed.

Lemma lookup_band_overwritten {P} (n : string) (a src : Image P) (v0 : P) :
  lookup_band n a = Some v0 ->
  lookup_band n (addBands_overwrite a src)
  = Some (match lookup_band n src with Some v => v | None => v0 end).
Proof.
  intros H. unfold addBands_overwrite.
  rewrite (lookup_band_app_l n _ _ (props a)).
  - unfold lookup_band in H |- *. cbn [bands].
    induction (bands a) as [|[m w] bs IH]; [discriminate H|].
    cbn [fmap list_fmap fst snd]. simpl in H.
    destruct (String.eqb m n) eqn:E.
    + apply String.eqb_eq in E. subst m. injection H as ->.
      fold (lookup_band n src).
      destruct (lookup_band n src) as [v|]; simpl; rewrite String.eqb_refl; reflexivity.
    + fold (lookup_band m src).
      destruct (lookup_band m src) as [v|]; simpl; rewrite E; exact (IH H).
  - unfold lookup_band in H |- *. cbn [bands].
    induction (bands a) as [|[m w] bs IH]; [discriminate H|].
    cbn [fmap list_fmap fst snd]. simpl in H.
    destruct (String.eqb m n) eqn:E.
    + fold (lookup_band m src).
      destruct (lookup_band m src) as [v|]; simpl; rewrite E; eexists; reflexivity.
    + fold (lookup_band m src).
      destruct (lookup_band m src) as [v|]; simpl; rewrite E; exact (IH H).
Qed.

Variables (names : list string) (sigma : R).
Variables (first0 : Image (option R)) (rest : list (Image (option R))).
Hypothesis Hnames : names <> [].
Hypothesis Hpresent :
  forall i n, In i (first0 :: rest) -> In n names -> is_Some (lookup_band n i).
Hypothesis Hinit :
  forall i n, In i (first0 :: rest) -> In n (bandNames first0) ->
              is_Some (lookup_band n i).
Hypothesis Hfresh :
  forall i n, In i (first0 :: rest) -> In n names ->
              (n +:+ "_outlier")%string ∉ bandNames i.

(** [maskOutliers] on an image that carries its flags. *)
Lemma maskOutliers_flagged (i : Image (option R)) (flag : string -> option R) :
  In i (first0 :: rest) ->
  maskOutliers (bandNames first0) names ((fun b => (b +:+ "_outlier")%string) <$> names)
    (mkImage (bands i ++ ((fun n => ((n +:+ "_outlier")%string, flag n)) <$> names))
             (props i))
  = Some (bandwise (bandNames first0) (fun n => n)
            (fun n => if bool_decide (n ∈ names)
                      then drop_flagged (pixel i n) (flag n)
                      else pixel i n)
            (props i)).
Proof.
  intros Hi.
  set (flags := (fun n => ((n +:+ "_outlier")%string, flag n)) <$> names).
  set (img := mkImage (bands i ++ flags) (props i)).
  assert (Hold : forall n, is_Some (lookup_band n i) ->
            lookup_band n img = Some (pixel i n)).
  { intros n [v Hv]. unfold img.
    rewrite (lookup_band_app_l n (bands i) flags (props i))
      by (rewrite <- image_eta; eexists; exact Hv).
    rewrite <- image_eta. unfold pixel. rewrite Hv. reflexivity. }
  assert (Hflag : forall n, In n names ->
            lookup_band (n +:+ "_outlier")%string img = Some (flag n)).
  { intros n Hn. unfold img.
    rewrite (lookup_band_app_r _ (bands i) flags ∅) by (apply Hfresh; assumption).
    unfold lookup_band, flags. cbn [bands].
    rewrite (find_fmap_inj (fun m => (m +:+ "_outlier")%string) flag names n);
      [reflexivity | intros m; apply outlier_name_inj | exact Hn]. }
  assert (Hstat : select names img = Some (bandwise names (fun n => n) (pixel i) (props i))).
  { unfold select, bandwise.
    rewrite (mapM_fmap_Some _ (fun n => (n, pixel i n)))
      by (intros n Hn; rewrite Hold by (apply Hpresent; assumption); reflexivity).
    reflexivity. }
  assert (Hout : select ((fun b => (b +:+ "_outlier")%string) <$> names) img
                 = Some (bandwise names (fun n => (n +:+ "_outlier")%string) flag (props i))).
  { unfold select, bandwise.
    rewrite (mapM_fmap_fmap_Some _ _ (fun n => ((n +:+ "_outlier")%string, flag n)))
      by (intros n Hn; rewrite Hflag by exact Hn; reflexivity).
    reflexivity. }
  unfold maskOutliers. rewrite Hstat. cbn [mbind option_bind].
  rewrite Hout. cbn [mbind option_bind].
  unfold Not, updateMask. rewrite unop_bandwise, binop_bandwise.
  set (kept := fun n : string => drop_flagged (pixel i n) (flag n)).
  change (bandwise names (fun n => n)
            (fun n => match pixel i n,
                            (fun x => if Req_dec_T x 0 then 1 else 0) <$> flag n with
                      | Some x, Some k => if Req_dec_T k 0 then None else Some x
                      | _, _ => None
                      end) ∅)
    with (bandwise names (fun n => n) kept ∅).
  unfold select.
  rewrite (mapM_fmap_Some _
             (fun n => (n, if bool_decide (n ∈ names) then kept n else pixel i n))).
  - reflexivity.
  - intros n Hn.
    rewrite (lookup_band_overwritten n img _ (pixel i n))
      by (apply Hold, Hinit; assumption).
    destruct (bool_decide (n ∈ names)) eqn:E.
    + apply bool_decide_eq_true in E. apply list_elem_of_In in E.
      unfold lookup_band, bandwise. cbn [bands].
      rewrite (find_fmap_key kept names n E). reflexivity.
    + apply bool_decide_eq_false in E.
      rewrite lookup_band_absent
        by (rewrite bandNames_bandwise, list_fmap_id; exact E).
      reflexivity.
Qed.

Lemma outliers_drops_flagged :
  outliers names sigma true (first0 :: rest)
  = Some ((fun i =>
             bandwise (bandNames first0) (fun n => n)
               (fun n => if bool_decide (n ∈ names)
                         then drop_flagged (pixel i n)
                                (outlier_flag sigma (band_stack n (first0 :: rest))
                                              (pixel i n))
                         else pixel i n)
               (props i)) <$> (first0 :: rest)).
Proof.
  unfold outliers. cbn [first head mbind option_bind].
  replace (match names with [] => bandNames first0 | _ :: _ => names end)
    with names by (destruct names; [contradiction | reflexivity]).
  rewrite (mapM_fmap_Some _ (fun i => bandwise names (fun m => m) (pixel i) (props i)))
    by (intros i Hi; apply select_present; intros n Hn; apply Hpresent; assumption).
  cbn [mbind option_bind].
  rewrite (mapM_fmap_Some _
    (fun i => mkImage
       (bands i ++
        ((fun n => ((n +:+ "_outlier")%string,
                    outlier_flag sigma (band_stack n (first0 :: rest)) (pixel i n)))
           <$> names))
       (props i)))
    by (intros i Hi; apply computeOutlierBands_selected; assumption).
  cbn [mbind option_bind].
  apply mapM_fmap_fmap_Some. intros i Hi.
  apply (maskOutliers_flagged i
           (fun n => outlier_flag sigma (band_stack n (first0 :: rest)) (pixel i n))).
  exact Hi.
Qed.

(** Where the pixel is valid, it is dropped exactly when it is an
    outlier. *)
Lemma drop_flagged_spec (stack : list (option R)) (v : R) :
  In (Some v) stack ->
  (is_outlier sigma stack v ->
   drop_flagged (Some v) (outlier_flag sigma stack (Some v)) = None) /\
  (~ is_outlier sigma stack v ->
   drop_flagged (Some v) (outlier_flag sigma stack (Some v)) = Some v).
Proof.
  intros Hin. destruct (outlier_flag_spec sigma stack v Hin) as (f & Hf & H01 & Hiff).
  rewrite Hf. unfold drop_flagged. cbn [fmap option_fmap option_map].
  split; intros H.
  - apply Hiff in H. subst f.
    destruct (Req_dec_T 1 0) as [E|_]; [lra|].
    destruct (Req_dec_T 0 0) as [_|E]; [reflexivity | contradiction].
  - destruct H01 as [-> | ->]; [exfalso; apply H, Hiff; reflexivity|].
    destruct (Req_dec_T 0 0) as [_|E]; [|contradiction].
    destruct (Req_dec_T 1 0) as [E|_]; [lra | reflexivity].
Qed.

End OutliersDrop.

(** X24. [outliers] with [drop]: every image comes back with the bands
    of the first image of the collection and its own properties, the
    outlier bands being gone; a band that was not evaluated keeps its
    pixel, and an evaluated band keeps a valid pixel exactly when the
    value is no outlier and is masked otherwise.  The names with the
    suffix [_outlier] are taken to be free in every image. *)
Theorem outliers_drop_spec (names : list string) (sigma : R)
    (first0 : ImageCollection.Image (option R))
    (rest : list (ImageCollection.Image (option R))) :
  let obj := first0 :: rest in
  names <> [] ->
  (forall i n, In i obj -> In n names -> is_Some (ImageCollection.lookup_band n i)) ->
  (forall i n, In i obj -> In n (ImageCollection.bandNames first0) ->
               is_Some (ImageCollection.lookup_band n i)) ->
  (forall i n, In i obj -> In n names ->
               (n +:+ "_outlier")%string ∉ ImageCollection.bandNames i) ->
  ImageCollection.outliers names sigma true obj
  = Some ((fun i =>
             ImageCollection.bandwise (ImageCollection.bandNames first0) (fun n => n)
               (fun n => if bool_decide (n ∈ names)
                         then ImageCollection.drop_flagged (ImageCollection.pixel i n)
                                (ImageCollection.outlier_flag sigma
                                   (ImageCollection.band_stack n obj)
                                   (ImageCollection.pixel i n))
                         else ImageCollection.pixel i n)
               (ImageCollection.props i)) <$> obj) /\
  (forall i n v, In i obj -> In n names -> ImageCollection.pixel i n = Some v ->
     (ImageCollection.is_outlier sigma (ImageCollection.band_stack n obj) v ->
      ImageCollection.drop_flagged (ImageCollection.pixel i n)
        (ImageCollection.outlier_flag sigma (ImageCollection.band_stack n obj)
                                      (ImageCollection.pixel i n)) = None) /\
     (~ ImageCollection.is_outlier sigma (ImageCollection.band_stack n obj) v ->
      ImageCollection.drop_flagged (ImageCollection.pixel i n)
        (ImageCollection.outlier_flag sigma (ImageCollection.band_stack n obj)
                                      (ImageCollection.pixel i n)) = Some v)).
Proof.
  intros obj Hnames Hpresent Hinit Hfresh. split.
  - apply outliers_drops_flagged; assumption.
  - intros i n v Hi Hn Hv. rewrite Hv.
    apply drop_flagged_spec. eapply pixel_in_stack; eassumption.
Qed.

Lemma outliers_drop_spec_witness :
  ImageCollection.outliers ["B1"%string] 1 true ICSamples.series
  = Some ((fun i =>
             ImageCollection.bandwise (ImageCollection.bandNames (ICSamples.pix 0 1))
               (fun n => n)
               (fun n => if bool_decide (n ∈ ["B1"%string])
                         then ImageCollection.drop_flagged (ImageCollection.pixel i n)
                                (ImageCollection.outlier_flag 1
                                   (ImageCollection.band_stack n ICSamples.series)
                                   (ImageCollection.pixel i n))
                         else ImageCollection.pixel i n)
               (ImageCollection.props i)) <$> ICSamples.series).
Proof.
  apply (outliers_drop_spec ["B1"%string] 1 (ICSamples.pix 0 1)
           [ICSamples.pix 1 5; ICSamples.pix 2 6; ICSamples.pix 3 4;
            ICSamples.pix 4 7; ICSamples.pix 5 10]).
  - discriminate.
  - intros i n Hi [<-|[]]. simpl in Hi.
    repeat (destruct Hi as [<-|Hi]; [eexists; reflexivity|]). destruct Hi.
  - intros i n Hi [<-|[]]. simpl in Hi.
    repeat (destruct Hi as [<-|Hi]; [eexists; reflexivity|]). destruct Hi.
  - intros i n Hi [<-|[]] Hin. simpl in Hi.
    repeat (destruct Hi as [<-|Hi];
            [apply list_elem_of_singleton in Hin; discriminate Hin|]).
    destruct Hi.
Defined.

(** ** User.create: what is left behind *)

(** X26. [create] when the authorization flow raises: the exception
    leaves the block of the temporary directory, which is removed with
    the default credential file that was put aside in it; the call
    raises, the default file is gone and no other path has changed. *)
Theorem create_loses_default_when_refused
    (default : list string) (Authenticate : User.M unit)
    (mkdtemp : User.FS -> list string)
    (name : string) (credential_pathname : list string)
    (fs : User.FS) (old : string) (e : User.Exn) :
  let saved := User.Path_div (mkdtemp fs) (User.Path_name default) in
  default <> [] ->
  User.nodes fs !! default = Some (User.File old) ->
  User.parent_error fs default = None ->
  User.locked fs default = false ->
  User.locked fs saved = false ->
  User.vacant fs (mkdtemp fs) = true ->
  (forall fs0, Authenticate fs0 = (User.Raise e, fs0)) ->
  exists fs',
    User.create default Authenticate mkdtemp name credential_pathname fs
    = (User.Raise e, fs') /\
    User.nodes fs' !! default = None /\
    (forall p, p <> default -> User.nodes fs' !! p = User.nodes fs !! p) /\
    User.readonly fs' = User.readonly fs.
Proof.
  intros saved Hne Hdef Hpd Hld Hls Hvac Hauth.
  set (dir := mkdtemp fs) in *.
  assert (Hfresh : forall p, User.under dir p = true -> User.nodes fs !! p = None)
    by (intros p; apply vacant_lookup; exact Hvac).
  assert (Hsu : User.under dir saved = true) by apply under_div.
  assert (Hdu : User.under dir default = false).
  { destruct (User.under dir default) eqn:E; [|reflexivity].
    apply Hfresh in E. congruence. }
  assert (Hds : default <> saved) by (intros E; rewrite E in Hdu; congruence).
  assert (Hdd : default <> dir)
    by (intros E; rewrite E in Hdu; rewrite under_self in Hdu; discriminate).
  assert (Hps : User.Path_parent saved = dir) by apply Path_parent_div.
  assert (Hsne : saved <> []).
  { unfold saved, User.Path_div. intros E. apply app_eq_nil in E. destruct E; discriminate. }
  assert (Hsd : dir <> saved).
  { rewrite <- Hps at 1. apply Path_parent_neq. exact Hsne. }
  assert (Hd1 : User.Path_parent default <> dir).
  { destruct (parent_error_None_inv _ _ Hpd) as [E|E]; intros E'; rewrite E' in E.
    - rewrite E in Hdu. unfold User.under in Hdu.
      apply bool_decide_eq_false in Hdu. apply Hdu. apply prefix_nil.
    - rewrite (Hfresh dir (under_self dir)) in E. discriminate. }
  unfold User.create, User.with_TemporaryDirectory.
  fold dir. fold saved.
  set (n0 := User.nodes fs) in *. set (ro := User.readonly fs) in *.
  unfold User.bind, User.suppress_call, User.ret.
  rewrite (shutil_move_file _ default saved old).
  2:{ cbn [User.nodes]. map_lookup. exact Hdef. }
  2:{ rewrite (parent_error_insert _ _ ro) by exact Hd1. destruct fs; exact Hpd. }
  2:{ apply parent_error_dir. right. rewrite Hps. cbn [User.nodes]. map_lookup. reflexivity. }
  2:{ exact Hld. }
  2:{ exact Hls. }
  2:{ exact Hsne. }
  2:{ cbn [User.nodes]. map_lookup. rewrite (Hfresh saved Hsu). discriminate. }
  rewrite (bool_decide_eq_false_2 _ Hds). cbn [User.nodes User.readonly].
  rewrite Hauth.
  eexists. split; [reflexivity|]. cbn [User.nodes User.readonly].
  split; [|split; [|reflexivity]].
  - rewrite remove_tree_lookup, Hdu. map_lookup. reflexivity.
  - intros p Hp. rewrite remove_tree_lookup.
    destruct (User.under dir p) eqn:E; [symmetry; apply Hfresh; exact E|].
    assert (p <> saved) by (intros ->; congruence).
    assert (p <> dir) by (intros ->; rewrite under_self in E; discriminate).
    map_lookup. reflexivity.
Qed.

Lemma create_loses_default_when_refused_witness :
  exists fs',
    User.create ee_default refuse tmp_name "secondary" [] fs_default
    = (User.Raise User.OSError, fs') /\
    User.nodes fs' !! ee_default = None /\
    (forall p, p <> ee_default -> User.nodes fs' !! p = User.nodes fs_default !! p) /\
    User.readonly fs' = User.readonly fs_default.
Proof.
  apply (create_loses_default_when_refused ee_default refuse tmp_name "secondary" []
           fs_default "old token" User.OSError).
  - discriminate.
  - reflexivity.
  - reflexivity.
  - reflexivity.
  - reflexivity.
  - vm_compute. reflexivity.
  - intros fs0. reflexivity.
Defined.

(** ** ImageCollection: doyByYears *)

Section DoyByYearsFacts.
Import ImageCollection.
Context {P V : Type}.
Variables (doy year : Z -> Z) (spatial : P -> V).
Variables (doy_metadata year_metadata band dateProperty : string).

Lemma List_distinct_In (y : Z) (l : list Z) : In y (List_distinct l) <-> In y l.
Proof.
  induction l as [|x l IH]; [reflexivity|].
  cbn [List_distinct]. split.
  - intros [->|H]; [left; reflexivity|].
    apply filter_In in H. right. apply IH. exact (proj1 H).
  - intros [->|H]; [left; reflexivity|].
    destruct (Z.eq_dec x y) as [->|Hne]; [left; reflexivity|].
    right. apply filter_In. split; [apply IH; exact H|].
    apply negb_true_iff, Z.eqb_neq. exact Hne.
Qed.

Lemma List_filter_sublist {A} (f : A -> bool) (l : list A) :
  List.filter f l `sublist_of` l.
Proof.
  induction l as [|a l IH]; [constructor|].
  cbn [List.filter]. destruct (f a); constructor; exact IH.
Qed.

Lemma List_filter_fmap {A B} (g : A -> B) (f : B -> bool) (l : list A) :
  List.filter f (g <$> l) = g <$> List.filter (fun a => f (g a)) l.
Proof.
  induction l as [|a l IH]; [reflexivity|].
  rewrite fmap_cons. cbn [List.filter]. destruct (f (g a)); rewrite IH; reflexivity.
Qed.

Lemma omap_fmap_total {A B C} (g : A -> B) (f : B -> option C) (h : A -> C)
    (l : list A) :
  (forall a, f (g a) = Some (h a)) -> omap f (g <$> l) = h <$> l.
Proof.
  intros H. induction l as [|a l IH]; [reflexivity|].
  rewrite !fmap_cons. cbn [omap list_omap]. rewrite H, IH. reflexivity.
Qed.

Lemma NoDup_fmap_transfer {A B C} (f : A -> B) (g : A -> C) (l : list A) :
  NoDup (f <$> l) ->
  (forall x x', In x l -> In x' l -> g x = g x' -> f x = f x') ->
  NoDup (g <$> l).
Proof.
  induction l as [|a l IH]; intros Hnd H; [constructor|].
  cbn [fmap list_fmap] in Hnd |- *. apply NoDup_cons in Hnd. destruct Hnd as [Hnotin Hnd].
  apply NoDup_cons. split.
  - intros Hin. apply Hnotin. apply list_elem_of_fmap in Hin.
    destruct Hin as (x & Hx & Hxl). apply list_elem_of_fmap.
    exists x. split; [|exact Hxl].
    apply H; [left; reflexivity | right; apply list_elem_of_In; exact Hxl | exact Hx].
  - apply IH; [exact Hnd|]. intros x x' Hx Hx'. apply H; right; assumption.
Qed.

Lemma Dictionary_get_fold_inj {A W} (g : A -> string) (h : A -> W)
    (ys : list A) (d : list (string * W)) (y : A) :
  (forall a b, g a = g b -> a = b) -> In y ys ->
  Dictionary_get
    (foldl (fun d (kv : string * W) => Dictionary_set kv.1 kv.2 d) d
           (zip (g <$> ys) (h <$> ys))) (g y)
  = Some (h y).
Proof.
  intros Hinj. revert d. induction ys as [|a ys IH]; intros d Hy; [destruct Hy|].
  rewrite !fmap_cons. cbn [zip zip_with foldl fst snd].
  destruct (decide (g y ∈ g <$> ys)) as [Hin|Hnotin].
  - apply IH. apply list_elem_of_fmap in Hin. destruct Hin as (x & Hx & Hxl).
    apply Hinj in Hx. subst x. apply list_elem_of_In. exact Hxl.
  - destruct Hy as [->|Hy].
    + rewrite Dictionary_get_fold_notin by exact Hnotin.
      rewrite Dictionary_get_set, String.eqb_refl. reflexivity.
    + exfalso. apply Hnotin. apply list_elem_of_fmap. exists y.
      split; [reflexivity | apply list_elem_of_In; exact Hy].
Qed.

Lemma values_of_single {Q} (l : string) (ps : Image Q -> gmap string PropVal)
    (ic : list (Image Q)) :
  mjoin ((fun i : Image Q => (bands i).*2)
           <$> ((fun c => mkImage (pair l <$> option_list (lookup_band l c)) (ps c))
                  <$> ic))
  = band_stack l ic.
Proof.
  rewrite <- list_fmap_compose. unfold band_stack.
  induction ic as [|c ic IH]; [reflexivity|].
  rewrite fmap_cons.
  match goal with
  | |- mjoin (?x :: ?r) = _ => change (mjoin (x :: r)) with (x ++ mjoin r)
  end.
  rewrite IH. cbn [compose bands omap list_omap].
  destruct (lookup_band l c); reflexivity.
Qed.

End DoyByYearsFacts.

(** X27. [doyByYears] on a collection whose images all have the band
    and the date property, no two of them falling on the same day of the
    same year, the two metadata names being different: the dictionary
    holds, under the year of an image and then under its day of the
    year, the region reduction of the band of that image. *)
Theorem doyByYears_value {P V} (doy year : Z -> Z) (spatial : P -> V)
    (doy_metadata year_metadata band dateProperty : string)
    (obj : list (ImageCollection.Image P)) :
  doy_metadata <> year_metadata ->
  (forall i, In i obj ->
     is_Some (ImageCollection.lookup_band band i) /\
     is_Some (ImageCollection.get_num i dateProperty)) ->
  (forall j j' i i' t t',
     obj !! j = Some i -> obj !! j' = Some i' ->
     ImageCollection.get_num i dateProperty = Some t ->
     ImageCollection.get_num i' dateProperty = Some t' ->
     year t = year t' -> doy t = doy t' -> j = j') ->
  exists d,
    ImageCollection.doyByYears doy year spatial doy_metadata year_metadata
      band dateProperty obj = Some d /\
    forall j i t v,
      obj !! j = Some i ->
      ImageCollection.get_num i dateProperty = Some t ->
      ImageCollection.lookup_band band i = Some v ->
      exists dl,
        ImageCollection.Dictionary_get d (pretty (year t)) = Some dl /\
        ImageCollection.Dictionary_get dl (pretty (doy t)) = Some (spatial v).
Proof.
  intros Hmd Hall Hinj.
  set (tsel := fun i : ImageCollection.Image P =>
                 default 0 (ImageCollection.get_num i dateProperty)).
  set (tag := fun i : ImageCollection.Image P =>
         ImageCollection.mkImage
           (pair band <$> option_list (ImageCollection.lookup_band band i))
           (<[year_metadata := ImageCollection.PNum (year (tsel i))]>
              (<[doy_metadata := ImageCollection.PNum (doy (tsel i))]>
                 (ImageCollection.props i)))).
  set (obj_y := fun y : Z =>
         List.filter (fun i => bool_decide (year (tsel i) = y)) obj).
  set (dict := fun y : Z =>
         ImageCollection.Dictionary_fromLists
           ((fun i => pretty (doy (tsel i))) <$> obj_y y)
           (spatial <$> ImageCollection.band_stack band (obj_y y))).
  assert (Htsel : forall i t, ImageCollection.get_num i dateProperty = Some t -> tsel i = t).
  { intros i t Ht. unfold tsel. rewrite Ht. reflexivity. }
  assert (Hy : forall i, ImageCollection.get_num (tag i) year_metadata
                         = Some (year (tsel i))).
  { intros i. unfold ImageCollection.get_num, tag. cbn [ImageCollection.props].
    rewrite lookup_insert_eq. reflexivity. }
  assert (Hd : forall i, ImageCollection.get_num (tag i) doy_metadata
                         = Some (doy (tsel i))).
  { intros i. unfold ImageCollection.get_num, tag. cbn [ImageCollection.props].
    rewrite lookup_insert_ne by congruence. rewrite lookup_insert_eq. reflexivity. }
  assert (Hsub : forall y i, In i (obj_y y) -> In i obj /\ year (tsel i) = y).
  { intros y i Hi. apply filter_In in Hi. destruct Hi as [Hi Hb].
    split; [exact Hi | apply bool_decide_eq_true in Hb; exact Hb]. }
  assert (Hlen : forall y, length (ImageCollection.band_stack band (obj_y y))
                           = length (obj_y y)).
  { intros y. apply omap_length_total. intros i Hi. apply Hall, (Hsub y i Hi). }
  unfold ImageCollection.doyByYears.
  rewrite (mapM_fmap_Some _ tag).
  2:{ intros i Hi. destruct (Hall i Hi) as [Hb [t Ht]].
      rewrite (select_single band i Hb). cbn [mbind option_bind].
      unfold ImageCollection.date_tag.
      change (ImageCollection.get_num
                (ImageCollection.mkImage
                   (pair band <$> option_list (ImageCollection.lookup_band band i))
                   (ImageCollection.props i)) dateProperty)
        with (ImageCollection.get_num i dateProperty).
      rewrite Ht. cbn [mbind option_bind].
      unfold tag, ImageCollection.set_prop. cbn [ImageCollection.bands ImageCollection.props].
      rewrite (Htsel i t Ht). reflexivity. }
  cbn [mbind option_bind].
  assert (Hyears : ImageCollection.aggregate_array (tag <$> obj) year_metadata
                   = (fun i => year (tsel i)) <$> obj)
    by exact (omap_fmap_total tag _ (fun i => year (tsel i)) obj Hy).
  rewrite Hyears.
  set (yearList := ImageCollection.List_sort
                     (ImageCollection.List_distinct ((fun i => year (tsel i)) <$> obj))).
  rewrite (mapM_fmap_Some _ dict).
  2:{ intros y _.
      assert (Hc : List.filter
                     (fun i => bool_decide
                                 (ImageCollection.get_num i year_metadata = Some y))
                     (tag <$> obj)
                   = tag <$> obj_y y).
      { rewrite List_filter_fmap. f_equal. apply filter_ext. intros i.
        rewrite Hy. apply bool_decide_ext. split; congruence. }
      rewrite Hc. unfold ImageCollection.aggregate_array.
      rewrite (omap_fmap_total tag _ (fun i => doy (tsel i)) (obj_y y) Hd).
      rewrite <- list_fmap_compose.
      assert (Hvals : (ImageCollection.bands
                         (ImageCollection.toBands (tag <$> obj_y y))).*2
                      = ImageCollection.band_stack band (obj_y y)).
      { unfold ImageCollection.toBands. cbn [ImageCollection.bands].
        rewrite (toBands_values (fun k n => (pretty k +:+ "_" +:+ n)%string)).
        exact (values_of_single band
                 (fun i => <[year_metadata := ImageCollection.PNum (year (tsel i))]>
                             (<[doy_metadata := ImageCollection.PNum (doy (tsel i))]>
                                (ImageCollection.props i)))
                 (obj_y y)). }
      rewrite rename_values
        by (rewrite <- (length_fmap snd), Hvals, Hlen, length_fmap; reflexivity).
      cbn [mbind option_bind]. rewrite Hvals.
      unfold ImageCollection.Image_reduceRegion, ImageCollection.bandNames, dict.
      cbn [ImageCollection.bands].
      rewrite fst_zip by (rewrite Hlen, length_fmap; lia).
      rewrite snd_zip by (rewrite Hlen, length_fmap; lia).
      reflexivity. }
  cbn [mbind option_bind].
  eexists. split; [reflexivity|].
  intros j i t v Hj Ht Hv.
  assert (Hi : In i obj) by (apply list_elem_of_In; eapply list_elem_of_lookup_2; exact Hj).
  pose proof (Htsel i t Ht) as Hti.
  exists (dict (year t)). split.
  - unfold ImageCollection.Dictionary_fromLists.
    apply (Dictionary_get_fold_inj (fun y : Z => pretty y) dict yearList [] (year t)).
    + intros a b E. apply (inj pretty). exact E.
    + unfold yearList. apply List_sort_In, List_distinct_In.
      apply list_elem_of_In, list_elem_of_fmap. exists i.
      split; [rewrite Hti; reflexivity | apply list_elem_of_In; exact Hi].
  - assert (Hiy : In i (obj_y (year t))).
    { apply filter_In. split; [exact Hi|]. apply bool_decide_eq_true. rewrite Hti. reflexivity. }
    apply list_elem_of_In, list_elem_of_lookup_1 in Hiy. destruct Hiy as [j' Hj'].
    unfold dict. apply (Dictionary_get_fromLists_NoDup _ _ j').
    + apply (NoDup_fmap_transfer (fun i => (year (tsel i), doy (tsel i)))).
      * eapply sublist_NoDup; [|apply fmap_sublist, List_filter_sublist].
        apply NoDup_alt. intros a b x Ha Hb.
        rewrite list_lookup_fmap in Ha, Hb.
        destruct (obj !! a) as [ia|] eqn:Ea; [|discriminate Ha].
        destruct (obj !! b) as [ib|] eqn:Eb; [|discriminate Hb].
        cbn [fmap option_fmap option_map] in Ha, Hb.
        injection Ha as Ha. subst x. injection Hb as Hyb Hdb.
        destruct (Hall ia) as [_ [ta Hta]];
          [apply list_elem_of_In; eapply list_elem_of_lookup_2; exact Ea|].
        destruct (Hall ib) as [_ [tb Htb]];
          [apply list_elem_of_In; eapply list_elem_of_lookup_2; exact Eb|].
        rewrite (Htsel ia ta Hta), (Htsel ib tb Htb) in *.
        apply (Hinj a b ia ib ta tb Ea Eb Hta Htb); congruence.
      * intros x x' Hx Hx' E. apply (inj pretty) in E.
        destruct (Hsub _ _ Hx) as [_ ->]. destruct (Hsub _ _ Hx') as [_ Hyx'].
        rewrite Hyx', E. reflexivity.
    + rewrite list_lookup_fmap, Hj'. cbn [fmap option_fmap option_map].
      rewrite Hti. reflexivity.
    + rewrite list_lookup_fmap. unfold ImageCollection.band_stack.
      rewrite omap_lookup_total
        by (intros x Hx; apply Hall, (Hsub (year t) x Hx)).
      rewrite Hj'. cbn [mbind option_bind]. rewrite Hv. reflexivity.
Qed.

Lemma doyByYears_value_witness :
  exists d,
    ImageCollection.doyByYears ICSamples.day_of_year ICSamples.year_of (fun x : Z => x)
      "doy" "year" "B1" "system:time_start"
      [ICSamples.scene 0 1 2; ICSamples.scene ICSamples.day_ms 3 4;
       ICSamples.scene (365 * ICSamples.day_ms) 10 20] = Some d /\
    forall j i t v,
      [ICSamples.scene 0 1 2; ICSamples.scene ICSamples.day_ms 3 4;
       ICSamples.scene (365 * ICSamples.day_ms) 10 20] !! j = Some i ->
      ImageCollection.get_num i "system:time_start" = Some t ->
      ImageCollection.lookup_band "B1" i = Some v ->
      exists dl,
        ImageCollection.Dictionary_get d (pretty (ICSamples.year_of t)) = Some dl /\
        ImageCollection.Dictionary_get dl (pretty (ICSamples.day_of_year t)) = Some v.
Proof.
  apply (doyByYears_value ICSamples.day_of_year ICSamples.year_of (fun x : Z => x)
           "doy" "year" "B1" "system:time_start"
           [ICSamples.scene 0 1 2; ICSamples.scene ICSamples.day_ms 3 4;
            ICSamples.scene (365 * ICSamples.day_ms) 10 20]).
  - discriminate.
  - intros i [<-|[<-|[<-|[]]]]; split; eexists; reflexivity.
  - intros j j' i i' t t' Hj Hj' Ht Ht' Hy Hd.
    destruct j as [|[|[|j]]]; destruct j' as [|[|[|j']]];
      try reflexivity; try discriminate Hj; try discriminate Hj';
      injection Hj as <-; injection Hj' as <-;
      vm_compute in Ht, Ht'; injection Ht as <-; injection Ht' as <-;
      vm_compute in Hy, Hd; first [discriminate Hy | discriminate Hd].
Defined.

(** ** ImageCollection.doyByBands: what is grouped and reduced *)

Section DoyByBandsValue.
Import ImageCollection.
Context {P V : Type}.
Variables (getRel : Z -> Z) (timeRed : list P -> P) (timeRedName : string -> string).
Variable spatialRed : P -> V.
Variables (doy_metadata dateProperty : string).

Lemma reduce_homogeneous (ic : list (Image P)) (B : list string) :
  ic <> [] -> (forall i, In i ic -> bandNames i = B) ->
  reduce timeRed timeRedName ic
  = mkImage ((fun n => (timeRedName n, timeRed (band_stack n ic))) <$> B) ∅.
Proof.
  intros Hne H. destruct ic as [|m ms]; [contradiction|].
  unfold reduce. rewrite (H m (or_introl eq_refl)). reflexivity.
Qed.

Lemma band_stack_set_prop (n : string) (v : Image P -> PropVal) (l : list (Image P)) :
  band_stack n ((fun i => set_prop i doy_metadata (v i)) <$> l) = band_stack n l.
Proof.
  unfold band_stack. induction l as [|i l IH]; [reflexivity|].
  rewrite fmap_cons. cbn [omap list_omap].
  change (lookup_band n (set_prop i doy_metadata (v i))) with (lookup_band n i).
  rewrite IH. reflexivity.
Qed.

Lemma rename_reduced_values (labels B : list string) (x : string -> P) :
  length labels = length B ->
  rename labels (mkImage ((fun n => (timeRedName n, x n)) <$> B) ∅)
  = Some (mkImage (zip labels (x <$> B)) ∅).
Proof.
  intros H. rewrite rename_values by (cbn [bands]; rewrite length_fmap; exact H).
  cbn [bands props]. rewrite <- list_fmap_compose. reflexivity.
Qed.

Lemma seqZ_filter_In (f : Z -> bool) (d : Z) :
  0 <= d < 367 -> f d = true -> In d (List.filter f (seqZ 0 367)).
Proof.
  intros Hd Hf. apply filter_In. split; [|exact Hf].
  apply list_elem_of_In, elem_of_seqZ. lia.
Qed.

End DoyByBandsValue.

(** C7.  [doyByBands] with bands and labels given: the result is the
    same whatever the bands asked for, since the collection that is
    tagged with the day of the year, grouped by day and reduced in time
    is the original one, with all its bands.  On a collection whose
    images all have the bands [B] and the date property: the image a
    day with images is reduced to has one band for each band of [B],
    reduced over all the images of that day; with a number
    of labels other than the number of bands in [B], and an image on one
    of the days 0 to 366, the renaming of the reduced image fails and so
    does the method; with as many distinct labels as bands in [B], the
    dictionary holds, under the label at a position and then under a day
    that has images, the region reduction of the time reduction of the
    band of [B] at that position over all the images of that day. *)
Theorem doyByBands_uses_all_bands {P V : Type}
    (getRel : Z -> Z) (timeRed : list P -> P) (timeRedName : string -> string)
    (spatialRed : P -> V) (doy_metadata dateProperty : string)
    (bands labels B : list string) (obj : list (ImageCollection.Image P)) :
  let run := ImageCollection.doyByBands getRel timeRed timeRedName spatialRed
               doy_metadata dateProperty in
  let day_of := fun i : ImageCollection.Image P =>
                  getRel (default 0 (ImageCollection.get_num i dateProperty)) in
  let on_day := fun d : Z => List.filter (fun i => bool_decide (day_of i = d)) obj in
  bands <> [] -> labels <> [] ->
  (forall bands', bands' <> [] -> run bands' labels obj = run bands labels obj) /\
  ((forall i, In i obj ->
      ImageCollection.bandNames i = B /\
      is_Some (ImageCollection.get_num i dateProperty)) ->
   (forall ic day,
      ImageCollection.doy_tagged getRel doy_metadata dateProperty bands labels obj
      = Some ic ->
      on_day day <> [] ->
      ImageCollection.bands
        (ImageCollection.timeReduced timeRed timeRedName
           (ImageCollection.filter_doy doy_metadata ic day))
      = (fun n => (timeRedName n,
                   timeRed (ImageCollection.band_stack n (on_day day)))) <$> B) /\
   ((exists i, In i obj /\ 0 <= day_of i < 367) ->
    length labels <> length B -> run bands labels obj = None) /\
   (length labels = length B -> NoDup labels ->
    exists d,
      run bands labels obj = Some d /\
      forall k l b day,
        labels !! k = Some l -> B !! k = Some b ->
        0 <= day < 367 -> on_day day <> [] ->
        exists dl,
          ImageCollection.Dictionary_get d l = Some dl /\
          ImageCollection.Dictionary_get dl (pretty day)
          = Some (spatialRed (timeRed (ImageCollection.band_stack b (on_day day)))))).
Proof.
  intros run day_of on_day Hbands Hlabels. split.
  { intros bands' Hb'. unfold run, ImageCollection.doyByBands, ImageCollection.doy_tagged.
    destruct bands as [|b0 bs]; [contradiction|].
    destruct bands' as [|b1 bs']; [contradiction|].
    destruct labels as [|l0 ls]; [contradiction|]. reflexivity. }
  intros Hhom.
  set (tag := fun i : ImageCollection.Image P =>
                ImageCollection.set_prop i doy_metadata (ImageCollection.PNum (day_of i))).
  set (days := List.filter (fun d => 0 <? Z.of_nat (length (on_day d))) (seqZ 0 367)).
  set (red := fun d : Z =>
                ImageCollection.mkImage
                  ((fun n => (timeRedName n,
                              timeRed (ImageCollection.band_stack n (on_day d)))) <$> B)
                  (∅ : gmap string ImageCollection.PropVal)).
  set (slot := fun d : Z =>
                 ImageCollection.mkReduced (ImageCollection.rename labels (red d))
                   (Z.of_nat (length (on_day d))) d).
  assert (Hsub : forall d i, In i (on_day d) -> In i obj /\ day_of i = d).
  { intros d i Hi. apply filter_In in Hi. destruct Hi as [Hi Hb].
    split; [exact Hi | apply bool_decide_eq_true in Hb; exact Hb]. }
  assert (Hdays : forall d, In d days -> on_day d <> []).
  { intros d Hd. apply filter_In in Hd. destruct Hd as [_ Hd].
    apply Z.ltb_lt in Hd. intros E. rewrite E in Hd. simpl in Hd. lia. }
  assert (Hday_in : forall d, 0 <= d < 367 -> on_day d <> [] -> In d days).
  { intros d Hd Hne. apply seqZ_filter_In; [exact Hd|].
    apply Z.ltb_lt. destruct (on_day d); [contradiction | simpl; lia]. }
  assert (Htagged : mapM (ImageCollection.doy_tag getRel doy_metadata dateProperty) obj
                    = Some (tag <$> obj)).
  { apply mapM_fmap_Some. intros i Hi. destruct (Hhom i Hi) as [_ [t Ht]].
    unfold ImageCollection.doy_tag, tag, day_of. rewrite Ht. reflexivity. }
  assert (Hbucket : forall d,
            List.filter
              (fun i => bool_decide (ImageCollection.get_num i doy_metadata = Some d))
              (tag <$> obj)
            = tag <$> on_day d).
  { intros d. rewrite List_filter_fmap. f_equal. apply filter_ext. intros i.
    unfold ImageCollection.get_num, tag. cbn [ImageCollection.set_prop ImageCollection.props].
    rewrite lookup_insert_eq. apply bool_decide_ext. split; congruence. }
  assert (Hreduced : forall d, on_day d <> [] ->
            ImageCollection.reduce timeRed timeRedName (tag <$> on_day d) = red d).
  { intros d Hd.
    rewrite (reduce_homogeneous timeRed timeRedName (tag <$> on_day d) B).
    - unfold red. f_equal. apply list_fmap_ext. intros j n Hn.
      unfold tag. rewrite band_stack_set_prop. reflexivity.
    - intros E. apply fmap_nil_inv in E. exact (Hd E).
    - intros c Hc. apply list_elem_of_In, list_elem_of_fmap in Hc.
      destruct Hc as (i & -> & Hi). apply list_elem_of_In in Hi.
      apply (Hhom i), (Hsub d i Hi). }
  assert (Hkept : List.filter (fun r => 0 <? ImageCollection.reduced_size r)
                    (ImageCollection.timeReduce timeRed timeRedName labels
                       <$> (ImageCollection.filter_doy doy_metadata (tag <$> obj)
                              <$> seqZ 0 367))
                  = slot <$> days).
  { rewrite <- list_fmap_compose, List_filter_fmap.
    assert (Hsize : forall d,
              ImageCollection.reduced_size
                (ImageCollection.timeReduce timeRed timeRedName labels
                   (ImageCollection.filter_doy doy_metadata (tag <$> obj) d))
              = Z.of_nat (length (on_day d))).
    { intros d. unfold ImageCollection.timeReduce, ImageCollection.filter_doy.
      cbn [ImageCollection.reduced_size ImageCollection.bucket_size].
      rewrite Hbucket, length_fmap. reflexivity. }
    rewrite (filter_ext _ (fun d => 0 <? Z.of_nat (length (on_day d))))
      by (intros d; unfold compose; rewrite Hsize; reflexivity).
    fold days. apply list_fmap_ext. intros j d Hd.
    apply list_elem_of_lookup_2, list_elem_of_In in Hd.
    unfold compose, slot, ImageCollection.timeReduce, ImageCollection.filter_doy,
      ImageCollection.timeReduced.
    cbn [ImageCollection.members ImageCollection.bucket_size ImageCollection.bucket_doy].
    rewrite Hbucket, length_fmap, (Hreduced d (Hdays d Hd)). reflexivity. }
  split.
  { intros ic day Hic Hne. unfold ImageCollection.doy_tagged in Hic.
    rewrite Htagged in Hic. injection Hic as <-.
    unfold ImageCollection.timeReduced, ImageCollection.filter_doy.
    cbn [ImageCollection.members]. rewrite Hbucket, (Hreduced day Hne). reflexivity. }
  unfold run, ImageCollection.doyByBands, ImageCollection.doy_tagged.
  replace (match bands with
           | [] => ImageCollection.bandNames <$> ImageCollection.first obj
           | _ :: _ => Some bands
           end)
    with (Some bands) by (destruct bands; [contradiction | reflexivity]).
  cbn [mbind option_bind].
  replace (match labels with [] => bands | _ :: _ => labels end)
    with labels by (destruct labels; [contradiction | reflexivity]).
  rewrite Htagged. cbn [mbind option_bind]. rewrite Hkept.
  split.
  - intros (i & Hi & Hd) Hlen.
    assert (Hin : In (day_of i) days).
    { apply Hday_in; [exact Hd|]. intros E.
      assert (Hm : In i (on_day (day_of i)))
        by (apply filter_In; split; [exact Hi | apply bool_decide_eq_true; reflexivity]).
      rewrite E in Hm. destruct Hm. }
    rewrite (mapM_None_In ImageCollection.reduced_image (slot <$> days) (slot (day_of i))).
    + reflexivity.
    + apply in_map. exact Hin.
    + unfold slot. cbn [ImageCollection.reduced_image].
      apply rename_mismatch. unfold red, ImageCollection.bandNames.
      cbn [ImageCollection.bands]. rewrite !length_fmap. exact Hlen.
  - intros Hlen Hnd.
    set (img := fun d : Z =>
                  ImageCollection.mkImage
                    (zip labels
                         ((fun n => timeRed (ImageCollection.band_stack n (on_day d))) <$> B))
                    (∅ : gmap string ImageCollection.PropVal)).
    rewrite (mapM_fmap_fmap_Some ImageCollection.reduced_image slot img)
      by (intros d _; unfold slot, red, img; cbn [ImageCollection.reduced_image];
          apply (rename_reduced_values timeRedName labels B); exact Hlen).
    cbn [mbind option_bind]. rewrite <- list_fmap_compose.
    change ((fun r => pretty (ImageCollection.reduced_doy r)) ∘ slot)
      with (fun d : Z => pretty d).
    assert (Hband : forall k l b d, labels !! k = Some l -> B !! k = Some b ->
              ImageCollection.lookup_band l (img d)
              = Some (timeRed (ImageCollection.band_stack b (on_day d)))).
    { intros k l b d Hl Hb. unfold img.
      apply (lookup_band_zip labels _ _ k l _ Hnd Hl).
      rewrite list_lookup_fmap, Hb. reflexivity. }
    assert (Hpresent : forall l c, In l labels -> In c (img <$> days) ->
              is_Some (ImageCollection.lookup_band l c)).
    { intros l c Hl Hc. apply list_elem_of_In, list_elem_of_fmap in Hc.
      destruct Hc as (d & -> & _).
      apply list_elem_of_In, list_elem_of_lookup_1 in Hl. destruct Hl as [k Hk].
      assert (Hb : is_Some (B !! k)).
      { apply lookup_lt_is_Some. rewrite <- Hlen. eapply lookup_lt_Some. exact Hk. }
      destruct Hb as [b Hb]. rewrite (Hband k l b d Hk Hb). eexists. reflexivity. }
    assert (Hstack : forall l, In l labels ->
              length (ImageCollection.band_stack l (img <$> days)) = length days).
    { intros l Hl. unfold ImageCollection.band_stack.
      rewrite omap_length_total by (intros c Hc; apply Hpresent; assumption).
      apply length_fmap. }
    set (dict := fun l : string =>
           ImageCollection.Dictionary_fromLists ((fun d : Z => pretty d) <$> days)
             (spatialRed <$> ImageCollection.band_stack l (img <$> days))).
    rewrite (mapM_fmap_Some _ dict).
    2:{ intros l Hl.
        rewrite (mapM_fmap_Some _
                   (fun c => ImageCollection.mkImage
                               (pair l <$> option_list (ImageCollection.lookup_band l c))
                               (ImageCollection.props c)))
          by (intros c Hc; apply select_single, Hpresent; assumption).
        cbn [mbind option_bind].
        assert (Hvals : (ImageCollection.bands
                           (ImageCollection.toBands
                              ((fun c => ImageCollection.mkImage
                                  (pair l <$> option_list (ImageCollection.lookup_band l c))
                                  (ImageCollection.props c)) <$> (img <$> days)))).*2
                        = ImageCollection.band_stack l (img <$> days)).
        { unfold ImageCollection.toBands. cbn [ImageCollection.bands].
          rewrite (toBands_values (fun k n => (pretty k +:+ "_" +:+ n)%string)).
          apply single_values. }
        rewrite rename_values
          by (rewrite <- (length_fmap snd), Hvals, Hstack, length_fmap by exact Hl;
              reflexivity).
        cbn [mbind option_bind]. rewrite Hvals.
        unfold ImageCollection.Image_reduceRegion, ImageCollection.bandNames, dict.
        cbn [ImageCollection.bands].
        rewrite fst_zip by (rewrite Hstack, length_fmap by exact Hl; lia).
        rewrite snd_zip by (rewrite Hstack, length_fmap by exact Hl; lia).
        reflexivity. }
    cbn [mbind option_bind].
    eexists. split; [reflexivity|].
    intros k l b day Hl Hb Hday Hne.
    assert (Hlin : In l labels)
      by (apply list_elem_of_In; eapply list_elem_of_lookup_2; exact Hl).
    exists (dict l). split.
    + rewrite (Dictionary_get_fromLists dict labels l).
      rewrite bool_decide_eq_true_2; [reflexivity|]. apply list_elem_of_In. exact Hlin.
    + unfold dict, ImageCollection.band_stack.
      rewrite (omap_fmap_total img (ImageCollection.lookup_band l)
                 (fun d => timeRed (ImageCollection.band_stack b (on_day d))) days)
        by (intros d; apply (Hband k l b d Hl Hb)).
      rewrite <- list_fmap_compose.
      unfold ImageCollection.Dictionary_fromLists.
      apply (Dictionary_get_fold_inj (fun d : Z => pretty d)
               (spatialRed ∘ (fun d => timeRed (omap (ImageCollection.lookup_band b) (on_day d))))
               days [] day).
      * intros x y E. apply (inj pretty). exact E.
      * apply Hday_in; assumption.
Qed.

Lemma doyByBands_uses_all_bands_witness :
  let obj := [ICSamples.scene 0 1 2; ICSamples.scene ICSamples.day_ms 3 4;
              ICSamples.scene (365 * ICSamples.day_ms) 10 20] in
  let run := ImageCollection.doyByBands ICSamples.day_of_year ICSamples.sumRed
               (ImageCollection.suffix "sum") (fun x : Z => x) "doy"
               "system:time_start" in
  run ["B1"%string] ["b1"%string] obj = None /\
  run ["B2"%string] ["b2"%string; "b1"%string] obj
  = run ["B2"%string; "B1"%string] ["b2"%string; "b1"%string] obj /\
  exists d dl,
    run ["B2"%string; "B1"%string] ["b2"%string; "b1"%string] obj = Some d /\
    ImageCollection.Dictionary_get d "b2"%string = Some dl /\
    ImageCollection.Dictionary_get dl (pretty 0) = Some 11.
Proof.
  intros obj run.
  assert (Hhom : forall i, In i obj ->
            ImageCollection.bandNames i = ["B1"; "B2"]%string /\
            is_Some (ImageCollection.get_num i "system:time_start"))
    by (intros i [<-|[<-|[<-|[]]]]; split; solve [reflexivity | eexists; reflexivity]).
  split; [|split].
  - destruct (doyByBands_uses_all_bands ICSamples.day_of_year ICSamples.sumRed
                (ImageCollection.suffix "sum") (fun x : Z => x) "doy" "system:time_start"
                ["B1"%string] ["b1"%string] ["B1"; "B2"]%string obj)
      as [_ H]; [discriminate | discriminate |].
    destruct (H Hhom) as (_ & Hnone & _). apply Hnone.
    + exists (ICSamples.scene 0 1 2). split; [left; reflexivity | vm_compute; split; [discriminate | reflexivity]].
    + simpl. lia.
  - destruct (doyByBands_uses_all_bands ICSamples.day_of_year ICSamples.sumRed
                (ImageCollection.suffix "sum") (fun x : Z => x) "doy" "system:time_start"
                ["B2"; "B1"]%string ["b2"; "b1"]%string ["B1"; "B2"]%string obj)
      as [H _]; [discriminate | discriminate |].
    apply H. discriminate.
  - destruct (doyByBands_uses_all_bands ICSamples.day_of_year ICSamples.sumRed
                (ImageCollection.suffix "sum") (fun x : Z => x) "doy" "system:time_start"
                ["B2"; "B1"]%string ["b2"; "b1"]%string ["B1"; "B2"]%string obj)
      as [_ H]; [discriminate | discriminate |].
    destruct (H Hhom) as (_ & _ & Hsome).
    destruct Hsome as (d & Hd & Hget);
      [reflexivity | apply (bool_decide_unpack _); vm_compute; exact I |].
    destruct (Hget 0%nat "b2"%string "B1"%string 0) as (dl & Hdl & Hv);
      [reflexivity | reflexivity | lia | discriminate |].
    exists d, dl. split; [exact Hd|]. split; [exact Hdl | exact Hv].
Defined.
